(** * WebRTC relay: signaling server, HLS recorder and playback route

    A shallow embedding of

    - [src/server/socket-server.ts]  (the socket.io signaling handlers and
      the process-wide maps they mutate),
    - [HLSRecorderV2]                (the RTP-to-HLS recording bridge),
    - [src/app/api/hls/[...path]/route.ts] (the playback file route),
    - [createTransport] of [src/server/mediasoup.ts] (the address a
      transport announces),
    - [WatchPage]                    (the stream list of the watch page),

    followed by the properties of the specification that concern them
    and by further properties of the same code.

    Conventions of the embedding.

    - A JavaScript [Map] is an insertion-ordered association list
      ([JsMap]): the handlers iterate maps ([Array.from(m.values()).find],
      [for ... of m.entries()]), so order is observable.  Maps that are
      only read and written by key ([transports], [hlsRecorders]) are
      stdpp [gmap]s.
    - A JavaScript [Set] of socket ids is an insertion-ordered list
      without repetition ([JsSet]).
    - Recorder objects are shared between [activeStreams] and
      [hlsRecorders]; they live in a heap (a list indexed by reference)
      and both maps hold references.
    - Every call into mediasoup, the file system or [child_process] is
      an [Outcome] supplied with the request: the value the awaited call
      returned, or the exception it threw.
    - Each handler runs to completion as one step; the interleaving of
      two handlers at an [await] is outside this model.
    - A request carries the payload object its handler expects, or none
      at all ([WithoutPayload]); acknowledgements are delivered only to
      the socket that asked. *)

From Stdlib Require Import ZArith Ascii String.
From stdpp Require Import base option list strings gmap pretty.

Open Scope string_scope.
Open Scope list_scope.

Set Warnings "-clear-no-such-hyp".

(** ** Outcomes of awaited calls *)

Inductive Outcome (A : Type) : Type :=
| Ok (a : A)
| Throw (msg : string).
Arguments Ok {A} a.
Arguments Throw {A} msg.

(** ** JavaScript [Map<string, V>] with insertion order *)

Module JsMap.
Section Ops.
Context {V : Type}.

Fixpoint get (k : string) (m : list (string * V)) : option V :=
  match m with
  | [] => None
  | (k', v) :: r => if decide (k = k') then Some v else get k r
  end.

Definition has (k : string) (m : list (string * V)) : bool :=
  match get k m with Some _ => true | None => false end.

(** [m.set(k, v)]: an existing key keeps its position, a new key goes
    last. *)
Fixpoint set (k : string) (v : V) (m : list (string * V)) : list (string * V) :=
  match m with
  | [] => [(k, v)]
  | (k', v') :: r =>
      if decide (k = k') then (k, v) :: r else (k', v') :: set k v r
  end.

Fixpoint delete (k : string) (m : list (string * V)) : list (string * V) :=
  match m with
  | [] => []
  | (k', v') :: r =>
      if decide (k = k') then delete k r else (k', v') :: delete k r
  end.

Definition values (m : list (string * V)) : list V := map snd m.
Definition keys (m : list (string * V)) : list string := map fst m.
Definition size (m : list (string * V)) : nat := length m.

(** [Array.from(m.values()).find(p)] followed by a mutation of the
    object found: the first value satisfying [p] is replaced by [f] of
    it, in place. *)
Fixpoint alter_first (p : V -> bool) (f : V -> V) (m : list (string * V))
  : list (string * V) :=
  match m with
  | [] => []
  | (k, v) :: r => if p v then (k, f v) :: r else (k, v) :: alter_first p f r
  end.
End Ops.
End JsMap.

Abbreviation jsmap V := (list (string * V)).

(** ** JavaScript [Set<string>] with insertion order *)

Module JsSet.
Definition has (x : string) (s : list string) : bool := bool_decide (x ∈ s).

Definition add (x : string) (s : list string) : list string :=
  if has x s then s else s ++ [x].

Fixpoint delete (x : string) (s : list string) : list string :=
  match s with
  | [] => []
  | y :: r => if decide (x = y) then delete x r else y :: delete x r
  end.

Definition size (s : list string) : nat := length s.
End JsSet.

(** ** Node's [path] module (POSIX flavour)

    [join], [normalize] and [extname] as Node implements them; the route
    and the recorder only call these three. *)

Module NodePath.

Definition slash : Ascii.ascii := "/"%char.
Definition dot : Ascii.ascii := "."%char.

(** [s.split("/")] *)
Fixpoint split_aux (cur : string) (s : string) : list string :=
  match s with
  | EmptyString => [String.rev cur]
  | String c r =>
      if decide (c = slash) then String.rev cur :: split_aux "" r
      else split_aux (String c cur) r
  end.
Definition split (s : string) : list string := split_aux "" s.

Fixpoint concat_sep (l : list string) : string :=
  match l with
  | [] => ""
  | [x] => x
  | x :: r => x +:+ "/" +:+ concat_sep r
  end.

(** [normalizeString]: drops empty and ["."] segments and resolves
    [".."] against the segment before it; [acc] is the result so far,
    last segment first. *)
Fixpoint normalizeSegments (allowAboveRoot : bool) (acc : list string)
    (segs : list string) : list string :=
  match segs with
  | [] => rev acc
  | s :: rest =>
      if decide (s = "") then normalizeSegments allowAboveRoot acc rest
      else if decide (s = ".") then normalizeSegments allowAboveRoot acc rest
      else if decide (s = "..") then
        match acc with
        | top :: acc' =>
            if decide (top = "..") then
              normalizeSegments allowAboveRoot
                (if allowAboveRoot then ".." :: acc else acc) rest
            else normalizeSegments allowAboveRoot acc' rest
        | [] =>
            normalizeSegments allowAboveRoot
              (if allowAboveRoot then [".."] else []) rest
        end
      else normalizeSegments allowAboveRoot (s :: acc) rest
  end.

Definition first_is_slash (s : string) : bool :=
  match s with
  | String c _ => bool_decide (c = slash)
  | EmptyString => false
  end.

Fixpoint last_is_slash (s : string) : bool :=
  match s with
  | EmptyString => false
  | String c EmptyString => bool_decide (c = slash)
  | String _ r => last_is_slash r
  end.

Definition normalize (p : string) : string :=
  if decide (p = "") then "."
  else
    let isAbsolute := first_is_slash p in
    let trailingSeparator := last_is_slash p in
    let res := concat_sep (normalizeSegments (negb isAbsolute) [] (split p)) in
    if decide (res = "") then
      if isAbsolute then "/" else if trailingSeparator then "./" else "."
    else
      let res' := if trailingSeparator then res +:+ "/" else res in
      if isAbsolute then "/" +:+ res' else res'.

Definition join (args : list string) : string :=
  match filter (λ a, a ≠ "") args with
  | [] => "."
  | parts => normalize (concat_sep parts)
  end.

(** The suffix of [s] that starts at its last dot, if it has one. *)
Fixpoint from_last_dot (s : string) : option string :=
  match s with
  | EmptyString => None
  | String c r =>
      match from_last_dot r with
      | Some e => Some e
      | None => if decide (c = dot) then Some s else None
      end
  end.

(** Last non-empty component of a path. *)
Definition basename (p : string) : string :=
  match rev (filter (λ a, a ≠ "") (split p)) with
  | b :: _ => b
  | [] => ""
  end.

(** [extname]: from the last dot of the last component, unless that
    dot is the component's first character or the component is
    [".."]. *)
Definition extname (p : string) : string :=
  let b := basename p in
  if decide (b = "..") then ""
  else match b with
       | EmptyString => ""
       | String _ r => default "" (from_last_dot r)
       end.

(** [s.startsWith(pre)] *)
Fixpoint startsWith (pre s : string) : bool :=
  match pre, s with
  | EmptyString, _ => true
  | String a pre', String b s' => bool_decide (a = b) && startsWith pre' s'
  | String _ _, EmptyString => false
  end.

(** [s.includes(sub)] *)
Fixpoint includes (sub s : string) : bool :=
  startsWith sub s ||
  match s with
  | EmptyString => false
  | String _ s' => includes sub s'
  end.

End NodePath.


(** ** mediasoup objects, as far as the server looks at them *)

Inductive MediaKind := audio | video.

#[global] Instance MediaKind_eq_dec : EqDecision MediaKind.
Proof. solve_decision. Defined.

Record Producer := {
  p_id : string;
  p_kind : MediaKind;
  p_paused : bool }.

Record Consumer := {
  c_id : string;
  c_producerId : string;
  c_kind : MediaKind;
  c_paused : bool }.

Record Transport := { t_id : string }.

(** The receive capabilities a client declares: the engine's business,
    opaque to the server. *)
Definition RtpCapabilities := list string.

Record Router := {
  rtpCapabilities : option RtpCapabilities;
  canConsume : string -> RtpCapabilities -> bool }.

(** What [transport.produce] and [transport.consume] hand back: a fresh
    id, and whether the object starts paused. *)
Record Created := { new_id : string; starts_paused : bool }.

(** Values of the [producers] and [consumers] maps. *)
Record ProducerData := { producer : Producer; producerId : string }.
Record ConsumerData := { consumer : Consumer; consumer_Id : string }.

Definition resumed (c : Consumer) : Consumer :=
  {| c_id := c_id c; c_producerId := c_producerId c;
     c_kind := c_kind c; c_paused := false |}.

Definition is_video (p : ProducerData) : bool :=
  bool_decide (p_kind (producer p) = video).

(** ** The recording bridge: class [HLSRecorderV2] *)

Module Recorder.

Record PlainTransport := { pt_id : string; localPort : Z }.
Record ChildProcess := { pid : Z }.

Record HLSRecorderV2 := {
  ffmpegProcess : option ChildProcess;
  isRecording : bool;
  outputPath : string;
  streamKey : string;
  transport : option PlainTransport;
  consumer : option Consumer }.

(** What a method does to the world outside the object. *)
Inductive Effect :=
| CreatedTransport (t : PlainTransport)
| CreatedConsumer (c : Consumer)
| Spawned (p : ChildProcess) (input : string) (playlist : string)
| TimerSet (ms : Z)
| Connected (t : PlainTransport) (port : Z)
| Resumed (c : Consumer)
| Killed (p : ChildProcess)
| ClosedConsumer (c : Consumer)
| ClosedTransport (t : PlainTransport).

(** [constructor(streamKey)]; creating the output directory is the
    caller's [ctor] outcome, see [startHLSStream]. *)
Definition new (cwd : string) (key : string) : HLSRecorderV2 :=
  {| ffmpegProcess := None; isRecording := false;
     outputPath := NodePath.join [cwd; "public"; "hls"; key];
     streamKey := key; transport := None; consumer := None |}.

Definition with_isRecording (b : bool) (r : HLSRecorderV2) : HLSRecorderV2 :=
  {| ffmpegProcess := ffmpegProcess r; isRecording := b;
     outputPath := outputPath r; streamKey := streamKey r;
     transport := transport r; consumer := consumer r |}.

Definition with_ffmpegProcess (p : option ChildProcess) (r : HLSRecorderV2)
  : HLSRecorderV2 :=
  {| ffmpegProcess := p; isRecording := isRecording r;
     outputPath := outputPath r; streamKey := streamKey r;
     transport := transport r; consumer := consumer r |}.

Definition with_transport (t : option PlainTransport) (r : HLSRecorderV2)
  : HLSRecorderV2 :=
  {| ffmpegProcess := ffmpegProcess r; isRecording := isRecording r;
     outputPath := outputPath r; streamKey := streamKey r;
     transport := t; consumer := consumer r |}.

Definition with_consumer (c : option Consumer) (r : HLSRecorderV2)
  : HLSRecorderV2 :=
  {| ffmpegProcess := ffmpegProcess r; isRecording := isRecording r;
     outputPath := outputPath r; streamKey := streamKey r;
     transport := transport r; consumer := c |}.

(** [cleanup()] *)
Definition cleanup (r : HLSRecorderV2) : HLSRecorderV2 * list Effect :=
  let r1 := with_isRecording false r in
  let '(r2, e2) :=
    match ffmpegProcess r1 with
    | Some p => (with_ffmpegProcess None r1, [Killed p])
    | None => (r1, [])
    end in
  let '(r3, e3) :=
    match consumer r2 with
    | Some c => (with_consumer None r2, [ClosedConsumer c])
    | None => (r2, [])
    end in
  let '(r4, e4) :=
    match transport r3 with
    | Some t => (with_transport None r3, [ClosedTransport t])
    | None => (r3, [])
    end in
  (r4, e2 ++ e3 ++ e4).

(** [stopRecording()] *)
Definition stopRecording (r : HLSRecorderV2) : HLSRecorderV2 * list Effect :=
  cleanup r.

Definition getPlaylistUrl (r : HLSRecorderV2) : string :=
  "/api/hls/" +:+ streamKey r +:+ "/playlist.m3u8".

Definition isActive (r : HLSRecorderV2) : bool := isRecording r.

(** The awaited calls of [startRecording], in program order. *)
Record StartOutcomes := {
  so_transport : Outcome PlainTransport;   (* router.createPlainTransport *)
  so_consumer : Outcome Created;           (* transport.consume, paused *)
  so_spawn : Outcome ChildProcess }.       (* spawn('ffmpeg', args) *)

(** The [try] block of [startRecording]: the recorder as the block
    leaves it, what it did, and how it ended. *)
Definition startRecording_try (router : option Router)
    (producers : jsmap ProducerData) (o : StartOutcomes) (r : HLSRecorderV2)
  : HLSRecorderV2 * list Effect * Outcome unit :=
  match filter (λ p, is_video p = true) (JsMap.values producers) with
  | [] => (r, [], Throw "No video producers found")
  | first :: _ =>
      let videoProducer := producer first in
      match router with
      | None => (r, [], Throw "TypeError: router is undefined")
      | Some _ =>
          match so_transport o with
          | Throw m => (r, [], Throw m)
          | Ok t =>
              let r1 := with_transport (Some t) r in
              match so_consumer o with
              | Throw m => (r1, [CreatedTransport t], Throw m)
              | Ok cr =>
                  let c := {| c_id := new_id cr;
                              c_producerId := p_id videoProducer;
                              c_kind := p_kind videoProducer;
                              c_paused := true |} in
                  let r2 := with_consumer (Some c) r1 in
                  match so_spawn o with
                  | Throw m =>
                      (r2, [CreatedTransport t; CreatedConsumer c], Throw m)
                  | Ok p =>
                      let r3 := with_ffmpegProcess (Some p) r2 in
                      (r3,
                       [CreatedTransport t; CreatedConsumer c;
                        Spawned p ("rtp://127.0.0.1:" +:+ pretty (localPort t))
                          (NodePath.join [outputPath r; "playlist.m3u8"]);
                        TimerSet 3000],
                       Ok ())
                  end
              end
          end
      end
  end.

(** [startRecording(router, producers)]: returns at once when already
    recording; otherwise runs the [try] block, and on an exception
    cleans up and rethrows. *)
Definition startRecording (router : option Router)
    (producers : jsmap ProducerData) (o : StartOutcomes) (r : HLSRecorderV2)
  : HLSRecorderV2 * list Effect * Outcome unit :=
  if isRecording r then (r, [], Ok ())
  else
    match startRecording_try router producers o r with
    | (r', es, Ok u) => (r', es, Ok u)
    | (r', es, Throw m) =>
        let '(r'', ces) := cleanup r' in (r'', es ++ ces, Throw m)
    end.

(** The callback of [setTimeout(..., 3000)]: connect the transport,
    resume the consumer, mark the recorder as recording; on an
    exception (a failed call, or a handle that is already null) stop
    the recorder. *)
Definition delayedSetup (connect resume : Outcome unit) (r : HLSRecorderV2)
  : HLSRecorderV2 * list Effect :=
  match transport r with
  | None => stopRecording r
  | Some t =>
      match connect with
      | Throw _ => stopRecording r
      | Ok _ =>
          match consumer r with
          | None =>
              let '(r', es) := stopRecording r in
              (r', Connected t (localPort t) :: es)
          | Some c =>
              match resume with
              | Throw _ =>
                  let '(r', es) := stopRecording r in
                  (r', Connected t (localPort t) :: es)
              | Ok _ =>
                  (with_isRecording true (with_consumer (Some (resumed c)) r),
                   [Connected t (localPort t); Resumed c])
              end
          end
      end
  end.

(** The handlers [setupFFmpegHandlers] installs on the subprocess. *)
Definition onStderr (output : string) (r : HLSRecorderV2) : HLSRecorderV2 :=
  if NodePath.includes "fps=" output && NodePath.includes "frame=" output then
    if negb (isRecording r) then with_isRecording true r else r
  else r.

Definition onError (r : HLSRecorderV2) : HLSRecorderV2 * list Effect :=
  cleanup r.

Definition onClose (r : HLSRecorderV2) : HLSRecorderV2 * list Effect :=
  cleanup r.

(** A recorder that holds nothing and records nothing. *)
Definition stopped (r : HLSRecorderV2) : Prop :=
  isActive r = false ∧ ffmpegProcess r = None ∧
  consumer r = None ∧ transport r = None.

(** The releases owed for the handles [r] holds. *)
Definition releases (r : HLSRecorderV2) : list Effect :=
  match ffmpegProcess r with Some p => [Killed p] | None => [] end ++
  match consumer r with Some c => [ClosedConsumer c] | None => [] end ++
  match transport r with Some t => [ClosedTransport t] | None => [] end.

End Recorder.

(** ** The signaling server: [socket-server.ts] *)

Module Signaling.

(** Values of [activeStreams]; [recorder] is a reference into the
    heap of recorder objects. *)
Record StreamEntry := { streamers : list string; recorder : option nat }.

(** The module-level variables of [socket-server.ts], the recorder
    objects they refer to, and the [rtpCapabilities] property the
    server hangs on each socket. *)
Record Server := {
  cwd : string;
  router : option Router;
  hlsRecorders : gmap string nat;
  activeStreams : jsmap StreamEntry;
  transports : gmap string Transport;
  producers : jsmap ProducerData;
  consumers : jsmap ConsumerData;
  heap : list Recorder.HLSRecorderV2;
  socketCaps : gmap string RtpCapabilities }.

Definition initial (dir : string) : Server :=
  {| cwd := dir; router := None; hlsRecorders := ∅; activeStreams := [];
     transports := ∅; producers := []; consumers := []; heap := [];
     socketCaps := ∅ |}.

Definition with_router (x : option Router) (s : Server) : Server :=
  {| cwd := cwd s; router := x; hlsRecorders := hlsRecorders s;
     activeStreams := activeStreams s; transports := transports s;
     producers := producers s; consumers := consumers s; heap := heap s;
     socketCaps := socketCaps s |}.

Definition with_hlsRecorders (x : gmap string nat) (s : Server) : Server :=
  {| cwd := cwd s; router := router s; hlsRecorders := x;
     activeStreams := activeStreams s; transports := transports s;
     producers := producers s; consumers := consumers s; heap := heap s;
     socketCaps := socketCaps s |}.

Definition with_activeStreams (x : jsmap StreamEntry) (s : Server) : Server :=
  {| cwd := cwd s; router := router s; hlsRecorders := hlsRecorders s;
     activeStreams := x; transports := transports s;
     producers := producers s; consumers := consumers s; heap := heap s;
     socketCaps := socketCaps s |}.

Definition with_transports (x : gmap string Transport) (s : Server) : Server :=
  {| cwd := cwd s; router := router s; hlsRecorders := hlsRecorders s;
     activeStreams := activeStreams s; transports := x;
     producers := producers s; consumers := consumers s; heap := heap s;
     socketCaps := socketCaps s |}.

Definition with_producers (x : jsmap ProducerData) (s : Server) : Server :=
  {| cwd := cwd s; router := router s; hlsRecorders := hlsRecorders s;
     activeStreams := activeStreams s; transports := transports s;
     producers := x; consumers := consumers s; heap := heap s;
     socketCaps := socketCaps s |}.

Definition with_consumers (x : jsmap ConsumerData) (s : Server) : Server :=
  {| cwd := cwd s; router := router s; hlsRecorders := hlsRecorders s;
     activeStreams := activeStreams s; transports := transports s;
     producers := producers s; consumers := x; heap := heap s;
     socketCaps := socketCaps s |}.

Definition with_heap (x : list Recorder.HLSRecorderV2) (s : Server) : Server :=
  {| cwd := cwd s; router := router s; hlsRecorders := hlsRecorders s;
     activeStreams := activeStreams s; transports := transports s;
     producers := producers s; consumers := consumers s; heap := x;
     socketCaps := socketCaps s |}.

Definition with_socketCaps (x : gmap string RtpCapabilities) (s : Server)
  : Server :=
  {| cwd := cwd s; router := router s; hlsRecorders := hlsRecorders s;
     activeStreams := activeStreams s; transports := transports s;
     producers := producers s; consumers := consumers s; heap := heap s;
     socketCaps := x |}.

(** *** What a handler sends *)

Record StreamInfo := {
  si_streamId : string;
  si_playlistUrl : option string;
  si_streamers : list string;
  si_isLive : bool }.

(** Acknowledgements: the argument of [callback(...)]. *)
Inductive Ack :=
| AckCapabilities (caps : RtpCapabilities)
| AckTransport (t : Transport)
| AckSuccess
| AckProduced (id : string)
| AckConsumed (id pid : string) (kind : MediaKind)
| AckProducerList (l : list (string * string))
| AckStream (streamId : string) (playlistUrl : option string)
| AckStreams (l : list StreamInfo)
| AckError (msg : string).

(** Server-to-client events, all the server ever emits. *)
Inductive Event :=
| NewProducer (pid socketId : string)
| StreamLive (streamId : string) (playlistUrl : option string)
    (members : list string)
| StreamEnded (streamId : string).

Definition event_name (e : Event) : string :=
  match e with
  | NewProducer _ _ => "newProducer"
  | StreamLive _ _ _ => "streamLive"
  | StreamEnded _ => "streamEnded"
  end.

Inductive Output :=
| Reply (a : Ack)              (* callback(a), to the requesting socket *)
| BroadcastEmit (e : Event)    (* socket.broadcast.emit: all sockets but the sender *)
| IoEmit (e : Event)           (* io.emit: all sockets *)
| Engine (e : Recorder.Effect).

Definition is_reply (o : Output) : bool :=
  match o with Reply _ => true | _ => false end.

Definition is_stream_live (o : Output) : bool :=
  match o with
  | IoEmit (StreamLive _ _ _) | BroadcastEmit (StreamLive _ _ _) => true
  | _ => false
  end.

(** An event sent to clients that carries the producer id [pid]. *)
Definition names_producer (pid : string) (o : Output) : bool :=
  match o with
  | IoEmit (NewProducer p _) | BroadcastEmit (NewProducer p _) =>
      bool_decide (p = pid)
  | _ => false
  end.

Definition producer_key (id : string) : string := id +:+ "-producer".
Definition consumer_key (id : string) : string := id +:+ "-consumer".

(** [createTransport(router)] dereferences the router before it
    awaits anything. *)
Definition createTransport (r : option Router) (o : Outcome Transport)
  : Outcome Transport :=
  match r with
  | None => Throw "TypeError: router is undefined"
  | Some _ => o
  end.

(** *** Handlers, in the order of the source *)

(** ["healthCheck"]: logs, and leaves its callback alone. *)
Definition healthCheck (id : string) (s : Server) : Server * list Output :=
  (s, []).

(** ["rtpCapabilities"]: the two guards return without a word to the
    callback. *)
Definition getRtpCapabilities (id : string) (s : Server)
  : Server * list Output :=
  match router s with
  | None => (s, [])
  | Some r =>
      match rtpCapabilities r with
      | None => (s, [])
      | Some caps => (s, [Reply (AckCapabilities caps)])
      end
  end.

(** ["createProducerTransport"] and ["createConsumerTransport"]: a
    transport already registered for the role is dropped from the map
    first. *)
Definition createProducerTransport (id : string) (o : Outcome Transport)
    (s : Server) : Server * list Output :=
  let ts :=
    if bool_decide (is_Some (transports s !! producer_key id))
    then delete (producer_key id) (transports s) else transports s in
  match createTransport (router s) o with
  | Ok t =>
      (with_transports (<[producer_key id := t]> ts) s,
       [Reply (AckTransport t)])
  | Throw _ =>
      (with_transports ts s,
       [Reply (AckError "Error creating producer transport")])
  end.

Definition createConsumerTransport (id : string) (o : Outcome Transport)
    (s : Server) : Server * list Output :=
  let ts :=
    if bool_decide (is_Some (transports s !! consumer_key id))
    then delete (consumer_key id) (transports s) else transports s in
  match createTransport (router s) o with
  | Ok t =>
      (with_transports (<[consumer_key id := t]> ts) s,
       [Reply (AckTransport t)])
  | Throw _ =>
      (with_transports ts s,
       [Reply (AckError "Error creating consumer transport")])
  end.

(** ["connectProducerTransport"] and ["connectConsumerTransport"]; [o]
    is [transport.connect]. *)
Definition connectProducerTransport (id : string) (o : Outcome unit)
    (s : Server) : Server * list Output :=
  match transports s !! producer_key id with
  | None => (s, [Reply (AckError "Error connecting producer transport")])
  | Some _ =>
      match o with
      | Ok _ => (s, [Reply AckSuccess])
      | Throw _ => (s, [Reply (AckError "Error connecting producer transport")])
      end
  end.

Definition connectConsumerTransport (id : string) (o : Outcome unit)
    (s : Server) : Server * list Output :=
  match transports s !! consumer_key id with
  | None => (s, [Reply (AckError "Error connecting consumer transport")])
  | Some _ =>
      match o with
      | Ok _ => (s, [Reply AckSuccess])
      | Throw _ => (s, [Reply (AckError "Error connecting consumer transport")])
      end
  end.

(** [produce]: [o] is [transport.produce], [res] the
    [producer.resume()] that follows when the producer starts paused. *)
Definition produce (id : string) (kind : MediaKind) (o : Outcome Created)
    (res : Outcome unit) (s : Server) : Server * list Output :=
  let transport := transports s !! producer_key id in
  let s1 :=
    if JsMap.has id (producers s)
    then with_producers (JsMap.delete id (producers s)) s else s in
  let failed := (s1, [Reply (AckError "Error producing")]) in
  match transport with
  | None => failed
  | Some _ =>
      match o with
      | Throw _ => failed
      | Ok cr =>
          let p := {| p_id := new_id cr; p_kind := kind; p_paused := false |} in
          let made :=
            (with_producers
               (JsMap.set id {| producer := p; producerId := p_id p |}
                  (producers s1)) s1,
             [BroadcastEmit (NewProducer (p_id p) id);
              Reply (AckProduced (p_id p))]) in
          if starts_paused cr then
            match res with
            | Throw _ => failed
            | Ok _ => made
            end
          else made
      end
  end.

(** [consume] *)
Definition consume (id : string) (pid : string) (o : Outcome Created)
    (s : Server) : Server * list Output :=
  let s1 :=
    if JsMap.has id (consumers s)
    then with_consumers (JsMap.delete id (consumers s)) s else s in
  let failed := (s1, [Reply (AckError "Error consuming")]) in
  let transport := transports s1 !! consumer_key id in
  let producerData :=
    find (λ p, bool_decide (producerId p = pid)) (JsMap.values (producers s1)) in
  match transport with
  | None => failed
  | Some _ =>
      match producerData with
      | None => failed
      | Some pd =>
          match socketCaps s1 !! id with
          | None => failed
          | Some caps =>
              match router s1 with
              | None => failed
              | Some r =>
                  if negb (canConsume r (p_id (producer pd)) caps) then failed
                  else
                    match o with
                    | Throw _ => failed
                    | Ok cr =>
                        let c := {| c_id := new_id cr;
                                    c_producerId := p_id (producer pd);
                                    c_kind := p_kind (producer pd);
                                    c_paused := starts_paused cr |} in
                        (with_consumers
                           (JsMap.set id {| consumer := c; consumer_Id := id |}
                              (consumers s1)) s1,
                         [Reply (AckConsumed (c_id c) pid (c_kind c))])
                    end
              end
          end
      end
  end.

Definition has_consumer_id (cid : string) (d : ConsumerData) : bool :=
  bool_decide (c_id (consumer d) = cid).

Definition resume_data (d : ConsumerData) : ConsumerData :=
  {| consumer := resumed (consumer d); consumer_Id := consumer_Id d |}.

(** [resumeConsumer] *)
Definition resumeConsumer (id : string) (cid : string) (o : Outcome unit)
    (s : Server) : Server * list Output :=
  match find (has_consumer_id cid) (JsMap.values (consumers s)) with
  | None => (s, [Reply (AckError "Error resuming consumer")])
  | Some _ =>
      match o with
      | Throw _ => (s, [Reply (AckError "Error resuming consumer")])
      | Ok _ =>
          (with_consumers
             (JsMap.alter_first (has_consumer_id cid) resume_data (consumers s)) s,
           [Reply AckSuccess])
      end
  end.

(** [getProducers] *)
Definition getProducers (id : string) (s : Server) : Server * list Output :=
  let currentProducer := JsMap.get id (producers s) in
  let producerList :=
    map (λ e : string * ProducerData, (producerId e.2, e.1))
      (filter (λ e : string * ProducerData,
                 Some (producerId e.2) ≠ producerId <$> currentProducer)
         (producers s)) in
  (s, [Reply (AckProducerList producerList)]).

(** [setRtpCapabilities]: fire and forget; [None] is a payload that
    is not a capabilities object. *)
Definition setRtpCapabilities (id : string) (caps : option RtpCapabilities)
    (s : Server) : Server * list Output :=
  match caps with
  | Some c => (with_socketCaps (<[id := c]> (socketCaps s)) s, [])
  | None => (with_socketCaps (delete id (socketCaps s)) s, [])
  end.

(** *** Broadcast groups *)

(** What [startHLSStream] gets from outside: the clock, the
    directory check of the recorder's constructor, and the awaited
    calls of [startRecording]. *)
Record StartArgs := {
  now : Z;
  ctor : Outcome unit;
  start : Recorder.StartOutcomes }.

Definition playlistUrl_of (h : list Recorder.HLSRecorderV2)
    (stream : StreamEntry) : option string :=
  match recorder stream with
  | Some ref => Recorder.getPlaylistUrl <$> h !! ref
  | None => None
  end.

(** The tail of [startHLSStream]: acknowledge, then tell everybody. *)
Definition announce (streamId : string) (stream : StreamEntry) (s : Server)
  : list Output :=
  [Reply (AckStream streamId (playlistUrl_of (heap s) stream));
   IoEmit (StreamLive streamId (playlistUrl_of (heap s) stream)
             (streamers stream))].

(** [if (!streamId) streamId = `stream_${Date.now()}`] *)
Definition effective_key (streamId : option string) (t : Z) : string :=
  match streamId with
  | Some k => if decide (k = "") then "stream_" +:+ pretty t else k
  | None => "stream_" +:+ pretty t
  end.

(** [startHLSStream] *)
Definition startHLSStream (id : string) (requested : option string)
    (a : StartArgs) (s : Server) : Server * list Output :=
  let streamId := effective_key requested (now a) in
  let streams1 :=
    if JsMap.has streamId (activeStreams s) then activeStreams s
    else JsMap.set streamId {| streamers := []; recorder := None |}
           (activeStreams s) in
  match JsMap.get streamId streams1 with
  | None => (s, [Reply (AckError "Failed to start HLS stream")])
  | Some stream =>
      let stream1 := {| streamers := JsSet.add id (streamers stream);
                        recorder := recorder stream |} in
      let s1 := with_activeStreams (JsMap.set streamId stream1 streams1) s in
      let hasVideoProducers := existsb is_video (JsMap.values (producers s1)) in
      if hasVideoProducers && bool_decide (recorder stream1 = None) then
        match ctor a with
        | Throw _ => (s1, [Reply (AckError "Failed to start HLS stream")])
        | Ok _ =>
            let ref := length (heap s1) in
            match Recorder.startRecording (router s1) (producers s1) (start a)
                    (Recorder.new (cwd s1) streamId) with
            | (rec, es, Throw m) =>
                (with_heap (heap s1 ++ [rec]) s1,
                 map Engine es ++
                 [Reply (AckError ("Failed to start HLS recording: Error: " +:+ m))])
            | (rec, es, Ok _) =>
                let stream2 := {| streamers := streamers stream1;
                                  recorder := Some ref |} in
                let s2 :=
                  with_hlsRecorders (<[streamId := ref]> (hlsRecorders s1))
                    (with_activeStreams
                       (JsMap.set streamId stream2 (activeStreams s1))
                       (with_heap (heap s1 ++ [rec]) s1)) in
                (s2, map Engine es ++ announce streamId stream2 s2)
            end
        end
      else (s1, announce streamId stream1 s1)
  end.

(** [stream.recorder.stopRecording()] on the shared recorder object. *)
Definition stop_recorder (ref : nat) (s : Server) : Server * list Output :=
  match heap s !! ref with
  | Some rec =>
      let '(rec', es) := Recorder.stopRecording rec in
      (with_heap (<[ref := rec']> (heap s)) s, map Engine es)
  | None => (s, [])
  end.

(** The body shared, textually, by [stopHLSStream] and the loop of
    [disconnect]: take [id] out of the group; if that empties a group
    with a recorder, stop the recorder, drop the group and announce
    the end. *)
Definition leave (id : string) (streamId : string) (stream : StreamEntry)
    (s : Server) : Server * list Output :=
  let stream1 := {| streamers := JsSet.delete id (streamers stream);
                    recorder := recorder stream |} in
  let s1 := with_activeStreams (JsMap.set streamId stream1 (activeStreams s)) s in
  match recorder stream1 with
  | Some ref =>
      if bool_decide (JsSet.size (streamers stream1) = 0) then
        let '(s2, es) := stop_recorder ref s1 in
        (with_activeStreams (JsMap.delete streamId (activeStreams s2))
           (with_hlsRecorders (delete streamId (hlsRecorders s2)) s2),
         es ++ [IoEmit (StreamEnded streamId)])
      else (s1, [])
  | None => (s1, [])
  end.

(** [stopHLSStream] *)
Definition stopHLSStream (id : string) (streamId : string) (s : Server)
  : Server * list Output :=
  match JsMap.get streamId (activeStreams s) with
  | Some stream =>
      let '(s', out) := leave id streamId stream s in
      (s', out ++ [Reply AckSuccess])
  | None => (s, [Reply AckSuccess])
  end.

(** [getActiveStreams] *)
Definition getActiveStreams (id : string) (s : Server) : Server * list Output :=
  (s, [Reply (AckStreams
         (map (λ e : string * StreamEntry,
                 {| si_streamId := e.1;
                    si_playlistUrl := playlistUrl_of (heap s) e.2;
                    si_streamers := streamers e.2;
                    si_isLive :=
                      match recorder e.2 with
                      | Some ref =>
                          default false (Recorder.isActive <$> heap s !! ref)
                      | None => false
                      end |})
            (activeStreams s)))]).

(** One turn of [for (const [streamId, stream] of activeStreams.entries())]
    in [disconnect]. *)
Definition disconnect_visit (id : string) (acc : Server * list Output)
    (streamId : string) : Server * list Output :=
  match JsMap.get streamId (activeStreams acc.1) with
  | Some stream =>
      if JsSet.has id (streamers stream) then
        let '(s', out) := leave id streamId stream acc.1 in
        (s', acc.2 ++ out)
      else acc
  | None => acc
  end.

(** [disconnect]: the four registry deletions, then the walk over the
    groups.  The socket object, and with it its [rtpCapabilities]
    property, is gone afterwards. *)
Definition disconnect (id : string) (s : Server) : Server * list Output :=
  let s1 := with_producers (JsMap.delete id (producers s)) s in
  let s2 := with_transports (delete (producer_key id) (transports s1)) s1 in
  let s3 := with_transports (delete (consumer_key id) (transports s2)) s2 in
  let s4 := with_consumers (JsMap.delete id (consumers s3)) s3 in
  let s5 := with_socketCaps (delete id (socketCaps s4)) s4 in
  foldl (disconnect_visit id) (s5, []) (JsMap.keys (activeStreams s5)).

(** *** Requests and runs *)

(** The handlers that take their payload apart in the parameter list
    ([async ({ dtlsParameters }, callback) => ...]), outside their
    [try] block. *)
Inductive Destructuring :=
| OfConnectProducerTransport
| OfConnectConsumerTransport
| OfProduce
| OfConsume
| OfResumeConsumer
| OfStartHLSStream
| OfStopHLSStream.

Inductive Request :=
| HealthCheck
| GetRtpCapabilities
| CreateProducerTransport (o : Outcome Transport)
| CreateConsumerTransport (o : Outcome Transport)
| ConnectProducerTransport (o : Outcome unit)
| ConnectConsumerTransport (o : Outcome unit)
| Produce (kind : MediaKind) (o : Outcome Created) (res : Outcome unit)
| Consume (pid : string) (o : Outcome Created)
| ResumeConsumer (cid : string) (o : Outcome unit)
| GetProducers
| SetRtpCapabilities (caps : option RtpCapabilities)
| StartHLSStream (streamId : option string) (a : StartArgs)
| StopHLSStream (streamId : string)
| GetActiveStreams
| Disconnect
| WithoutPayload (event : Destructuring).

(** A request for one of the destructuring handlers that arrives with
    [null] or no payload makes the destructuring throw before the first
    statement of the handler: nothing is changed and the callback is
    never called.  What the runtime does with the exception is outside
    this model. *)
Definition handle (id : string) (req : Request) (s : Server)
  : Server * list Output :=
  match req with
  | HealthCheck => healthCheck id s
  | GetRtpCapabilities => getRtpCapabilities id s
  | CreateProducerTransport o => createProducerTransport id o s
  | CreateConsumerTransport o => createConsumerTransport id o s
  | ConnectProducerTransport o => connectProducerTransport id o s
  | ConnectConsumerTransport o => connectConsumerTransport id o s
  | Produce kind o res => produce id kind o res s
  | Consume pid o => consume id pid o s
  | ResumeConsumer cid o => resumeConsumer id cid o s
  | GetProducers => getProducers id s
  | SetRtpCapabilities caps => setRtpCapabilities id caps s
  | StartHLSStream k a => startHLSStream id k a s
  | StopHLSStream k => stopHLSStream id k s
  | GetActiveStreams => getActiveStreams id s
  | Disconnect => disconnect id s
  | WithoutPayload _ => (s, [])
  end.

(** Callbacks a recorder registered: the start-up timer and the
    subprocess's events. *)
Inductive Callback :=
| TimerFired (connect resume : Outcome unit)
| Stderr (output : string)
| ProcessError
| ProcessClose.

Definition recorder_callback (cb : Callback) (rec : Recorder.HLSRecorderV2)
  : Recorder.HLSRecorderV2 * list Recorder.Effect :=
  match cb with
  | TimerFired c r => Recorder.delayedSetup c r rec
  | Stderr out => (Recorder.onStderr out rec, [])
  | ProcessError => Recorder.onError rec
  | ProcessClose => Recorder.onClose rec
  end.

(** Everything the event loop can run. *)
Inductive Op :=
| InitMediasoup (o : Outcome Router)
| FromSocket (id : string) (req : Request)
| FromRecorder (ref : nat) (cb : Callback).

Definition step (op : Op) (s : Server) : Server * list Output :=
  match op with
  | InitMediasoup (Ok r) => (with_router (Some r) s, [])
  | InitMediasoup (Throw _) => (s, [])
  | FromSocket id req => handle id req s
  | FromRecorder ref cb =>
      match heap s !! ref with
      | Some rec =>
          let '(rec', es) := recorder_callback cb rec in
          (with_heap (<[ref := rec']> (heap s)) s, map Engine es)
      | None => (s, [])
      end
  end.

Fixpoint run (ops : list Op) (s : Server) : Server * list Output :=
  match ops with
  | [] => (s, [])
  | op :: rest =>
      let '(s1, o1) := step op s in
      let '(s2, o2) := run rest s1 in
      (s2, o1 ++ o2)
  end.

Definition reachable (s : Server) : Prop :=
  ∃ dir ops, (run ops (initial dir)).1 = s.

End Signaling.

(** ** The playback route: [app/api/hls/[...path]/route.ts] *)

Module Playback.

(** The two file-system calls the handler decides on. *)
Record Fs := { existsSync : string → bool; statSize : string → Z }.

(** [req.query.path]: missing, a single string, or the array of
    segments a catch-all route delivers. *)
Inductive Query :=
| Absent
| Single (s : string)
| Segments (l : list string).

Inductive Body :=
| Json (error : string)
| FileStream (path : string).

Record Response := {
  status : Z;
  headers : list (string * string);
  body : Body }.

Definition hlsRoot (cwd : string) : string :=
  NodePath.join [cwd; "public"; "hls"].

Definition contentType (filePath : string) : list (string * string) :=
  let fileExtension := NodePath.extname filePath in
  if decide (fileExtension = ".m3u8")
  then [("Content-Type", "application/vnd.apple.mpegurl")]
  else if decide (fileExtension = ".ts")
  then [("Content-Type", "video/mp2t")]
  else [].

(** [handler(req, res)] *)
Definition handler (cwd : string) (fs : Fs) (q : Query) : Response :=
  match q with
  | Absent | Single _ =>
      {| status := 400; headers := []; body := Json "Invalid path" |}
  | Segments hlsPath =>
      let filePath := NodePath.join ([cwd; "public"; "hls"] ++ hlsPath) in
      if negb (NodePath.startsWith (hlsRoot cwd) filePath) then
        {| status := 403; headers := []; body := Json "Forbidden" |}
      else if negb (existsSync fs filePath) then
        {| status := 404; headers := []; body := Json "File not found" |}
      else
        {| status := 200;
           headers :=
             contentType filePath ++
             [("Access-Control-Allow-Origin", "*");
              ("Cache-Control", "no-cache, no-store, must-revalidate");
              ("Content-Length", pretty (statSize fs filePath))];
           body := FileStream filePath |}
  end.

End Playback.

(** ** Transport options: [src/server/mediasoup.ts] *)

Module Mediasoup.

(** An entry of [os.networkInterfaces()[name]]. *)
Record NetworkInterfaceInfo := {
  family : string;
  internal : bool;
  address : string }.

Record ListenIp := { ip : string; announcedIp : option string }.

(** The inner loop of [createTransport]: the first entry that is IPv4
    and not internal sets [localIp] and ends the loop over this
    interface. *)
Fixpoint scanInterface (nets : list NetworkInterfaceInfo) (localIp : string)
  : string :=
  match nets with
  | [] => localIp
  | net :: rest =>
      if bool_decide (family net = "IPv4") && negb (internal net)
      then address net
      else scanInterface rest localIp
  end.

(** The outer loop, over [Object.keys(networkInterfaces)] in order,
    starting from ['127.0.0.1']. *)
Definition localIp
    (networkInterfaces : list (string * list NetworkInterfaceInfo)) : string :=
  foldl (λ ip entry, scanInterface entry.2 ip) "127.0.0.1" networkInterfaces.

(** The [listenIps] option passed to [router.createWebRtcTransport]. *)
Definition listenIps
    (networkInterfaces : list (string * list NetworkInterfaceInfo))
  : list ListenIp :=
  [{| ip := "0.0.0.0"; announcedIp := Some (localIp networkInterfaces) |};
   {| ip := "127.0.0.1"; announcedIp := None |}].

End Mediasoup.

(** ** The watch page: [WatchPage] *)

Module WatchPage.

(** The state of the page that its socket handlers touch.  The
    listeners are registered again whenever [selectedStream] changes,
    so [handleStreamEnded] reads the current selection. *)
Record Page := {
  activeStreams : list Signaling.StreamInfo;
  selectedStream : option Signaling.StreamInfo;
  error : option string }.

Definition newPage : Page :=
  {| activeStreams := []; selectedStream := None; error := None |}.

(** [handleStreamLive(data)] *)
Definition handleStreamLive (streamId : string) (playlistUrl : option string)
    (streamers : list string) (p : Page) : Page :=
  let filtered :=
    filter (λ s, Signaling.si_streamId s ≠ streamId) (activeStreams p) in
  {| activeStreams :=
       filtered ++
       [{| Signaling.si_streamId := streamId;
           Signaling.si_playlistUrl := playlistUrl;
           Signaling.si_streamers := streamers;
           Signaling.si_isLive := true |}];
     selectedStream := selectedStream p;
     error := error p |}.

(** [handleStreamEnded(data)] *)
Definition handleStreamEnded (streamId : string) (p : Page) : Page :=
  let selected :=
    match selectedStream p with
    | Some s => bool_decide (Signaling.si_streamId s = streamId)
    | None => false
    end in
  {| activeStreams :=
       filter (λ s, Signaling.si_streamId s ≠ streamId) (activeStreams p);
     selectedStream := if selected then None else selectedStream p;
     error := if selected then Some "Stream ended" else error p |}.

(** [getStreams], on the acknowledgement of [getActiveStreams]:
    [if (response.streams) setActiveStreams(response.streams)]. *)
Definition getStreams (response : Signaling.Ack) (p : Page) : Page :=
  match response with
  | Signaling.AckStreams streams =>
      {| activeStreams := streams;
         selectedStream := selectedStream p;
         error := error p |}
  | _ => p
  end.

(** The listeners of the page: [streamLive] and [streamEnded]; no
    other event is listened to. *)
Definition on (p : Page) (e : Signaling.Event) : Page :=
  match e with
  | Signaling.StreamLive streamId playlistUrl streamers =>
      handleStreamLive streamId playlistUrl streamers p
  | Signaling.StreamEnded streamId => handleStreamEnded streamId p
  | Signaling.NewProducer _ _ => p
  end.

End WatchPage.

(** * Vocabulary of the properties, and sample data *)

Module RecorderTerms.
Import Recorder.

(** [res] is what a stop or a failure made of a recorder that was
    [before]: nothing is held any more, the recorder is inactive, and
    the last things done were the releases owed for [before]. *)
Definition torn_down (before : HLSRecorderV2)
    (res : HLSRecorderV2 * list Effect) : Prop :=
  stopped res.1 ∧ ∃ pre, res.2 = pre ++ releases before.

(** The effects that give a handle back. *)
Definition is_release (e : Effect) : bool :=
  match e with
  | Killed _ | ClosedConsumer _ | ClosedTransport _ => true
  | _ => false
  end.

(** The timer callback either establishes the pipeline or tears the
    recorder down. *)
Definition delayed_ok (connect resume : Outcome unit) (r : HLSRecorderV2)
  : bool :=
  match transport r, connect, consumer r, resume with
  | Some _, Ok _, Some _, Ok _ => true
  | _, _, _, _ => false
  end.

(** Sample values for the examples below. *)
Definition sample_router : Router :=
  {| rtpCapabilities := Some ["video/H264"]; canConsume := λ _ _, true |}.
Definition sample_camera : ProducerData :=
  {| producer := {| p_id := "P1"; p_kind := video; p_paused := false |};
     producerId := "P1" |}.
Definition sample_tap : PlainTransport := {| pt_id := "T9"; localPort := 40000 |}.
Definition consume_fails : StartOutcomes :=
  {| so_transport := Ok sample_tap; so_consumer := Throw "consume failed";
     so_spawn := Ok {| pid := 4242 |} |}.
Definition all_succeed : StartOutcomes :=
  {| so_transport := Ok sample_tap;
     so_consumer := Ok {| new_id := "C9"; starts_paused := true |};
     so_spawn := Ok {| pid := 4242 |} |}.

(** A recorder in the middle of its grace window. *)
Definition sample_started : HLSRecorderV2 :=
  (startRecording (Some sample_router) [("A", sample_camera)] all_succeed
     (new "/srv/app" "k")).1.1.

(** The producer [startRecording] taps: the first video producer in
    the order of the [producers] map. *)
Definition first_video (ps : jsmap ProducerData) : option ProducerData :=
  head (filter (λ p, is_video p = true) (JsMap.values ps)).

(** The tap consumer made for producer [pd]: created paused. *)
Definition tap_consumer (pd : ProducerData) (cr : Created) : Consumer :=
  {| c_id := new_id cr; c_producerId := p_id (producer pd);
     c_kind := p_kind (producer pd); c_paused := true |}.

(** What a successful [startRecording] does, in order. *)
Definition start_effects (rec : HLSRecorderV2) (t : PlainTransport)
    (c : Consumer) (p : ChildProcess) : list Effect :=
  [CreatedTransport t; CreatedConsumer c;
   Spawned p ("rtp://127.0.0.1:" +:+ pretty (localPort t))
     (NodePath.join [outputPath rec; "playlist.m3u8"]);
   TimerSet 3000].

End RecorderTerms.

Module SignalingTerms.
Import Signaling.

(** No group is registered under the empty key. *)
Definition no_empty_key (s : Server) : Prop :=
  "" ∉ JsMap.keys (activeStreams s).

(** Every recorder a group refers to is an object of the heap. *)
Definition refs_valid (s : Server) : Prop :=
  ∀ k st ref,
    (k, st) ∈ activeStreams s → recorder st = Some ref → ref < length (heap s).

(** Sample runs for the examples. *)
Definition start_ok : StartArgs :=
  {| now := 1700000000000; ctor := Ok (); start := RecorderTerms.all_succeed |}.

Definition ops_produce : list Op :=
  [ InitMediasoup (Ok RecorderTerms.sample_router);
    FromSocket "A" (CreateProducerTransport (Ok {| t_id := "TA" |}));
    FromSocket "A" (Produce video
                      (Ok {| new_id := "P1"; starts_paused := false |}) (Ok ())) ].

Definition ops_consume : list Op :=
  ops_produce ++
  [ FromSocket "B" (SetRtpCapabilities (Some ["video/H264"]));
    FromSocket "B" (CreateConsumerTransport (Ok {| t_id := "TB" |}));
    FromSocket "B" (Consume "P1"
                      (Ok {| new_id := "C1"; starts_paused := true |})) ].

Definition ops_live_one : list Op :=
  ops_produce ++ [ FromSocket "A" (StartHLSStream (Some "k") start_ok) ].

Definition ops_live_two : list Op :=
  ops_live_one ++ [ FromSocket "B" (StartHLSStream (Some "k") start_ok) ].

Definition after (ops : list Op) : Server := (run ops (initial "/srv/app")).1.

(** The group [k] exists and has a recorder attached. *)
Definition recording (s : Server) (k : string) : bool :=
  match JsMap.get k (activeStreams s) with
  | Some st => match recorder st with Some _ => true | None => false end
  | None => false
  end.

(** How many "stream live" events [out] holds; whether it holds the
    success acknowledgement of a start-broadcast request, or an error
    reply. *)
Definition stream_live_count (out : list Output) : nat :=
  length (filter (λ o, is_stream_live o = true) out).

Definition acknowledged (out : list Output) : bool :=
  existsb (λ o, match o with Reply (AckStream _ _) => true | _ => false end) out.

Definition refused (out : list Output) : bool :=
  existsb (λ o, match o with Reply (AckError _) => true | _ => false end) out.

(** The three ways [startHLSStream] can end. *)
Inductive StartEnd (s : Server) (k : string) (r : Server * list Output) : Prop :=
| NothingToStart (st : StreamEntry) :
    (existsb is_video (JsMap.values (producers s)) = false ∨ recording s k = true) →
    r.2 = announce k st r.1 →
    JsMap.get k (activeStreams r.1) = Some st →
    recording r.1 k = recording s k →
    StartEnd s k r
| StartFailed (es : list Recorder.Effect) (msg : string) :
    existsb is_video (JsMap.values (producers s)) = true →
    recording s k = false →
    r.2 = map Engine es ++ [Reply (AckError msg)] →
    recording r.1 k = false →
    StartEnd s k r
| Started (es : list Recorder.Effect) (st : StreamEntry) :
    existsb is_video (JsMap.values (producers s)) = true →
    recording s k = false →
    r.2 = map Engine es ++ announce k st r.1 →
    JsMap.get k (activeStreams r.1) = Some st →
    recording r.1 k = true →
    StartEnd s k r.

(** The claim of the specification: the event fires once when the
    group becomes Recording, and not otherwise. *)
Definition live_only_when_recording_starts (id : string)
    (req : option string) (a : StartArgs) (s : Server) : Prop :=
  let k := effective_key req (now a) in
  let r := startHLSStream id req a s in
  stream_live_count r.2 = if negb (recording s k) && recording r.1 k then 1 else 0.

(** A start whose tap consumer cannot be created. *)
Definition start_fails : StartArgs :=
  {| now := 1700000000000; ctor := Ok (); start := RecorderTerms.consume_fails |}.

(** Outputs that are a "stream ended" event or the recorder's doing. *)
Definition ended_or_engine (o : Output) : bool :=
  match o with
  | IoEmit (StreamEnded _) | Engine _ => true
  | _ => false
  end.

(** The claim of the specification about what a disconnect leaves
    behind. *)
Definition no_trace_after_disconnect (s : Server) (id : string) : Prop :=
  let s' := (disconnect id s).1 in
  transports s' !! producer_key id = None ∧
  transports s' !! consumer_key id = None ∧
  JsMap.get id (producers s') = None ∧
  JsMap.get id (consumers s') = None ∧
  ∀ pd other cd,
    JsMap.get id (producers s) = Some pd →
    JsMap.get other (consumers s') = Some cd →
    c_producerId (consumer cd) ≠ producerId pd.

(** The claim of the specification about the notification. *)
Definition producer_gone_announced (s : Server) (id : string) : Prop :=
  ∀ pd, JsMap.get id (producers s) = Some pd →
        ∃ o, o ∈ (disconnect id s).2 ∧ names_producer (producerId pd) o = true.

(** A router that only lets clients with H264 consume, and a server
    where B, who declared audio only, is about to consume A's camera. *)
Definition picky_router : Router :=
  {| rtpCapabilities := Some ["audio/opus"; "video/H264"];
     canConsume := λ _ caps, bool_decide ("video/H264" ∈ caps) |}.

Definition audio_only_viewer : Server :=
  (run [ InitMediasoup (Ok picky_router);
         FromSocket "A" (CreateProducerTransport (Ok {| t_id := "TA" |}));
         FromSocket "A" (Produce video
                           (Ok {| new_id := "P1"; starts_paused := false |})
                           (Ok ()));
         FromSocket "B" (SetRtpCapabilities (Some ["audio/opus"]));
         FromSocket "B" (CreateConsumerTransport (Ok {| t_id := "TB" |})) ]
     (initial "/srv/app")).1.

(** How many times the acknowledgement callback was called. *)
Definition reply_count (out : list Output) : nat :=
  length (List.filter is_reply out).

(** Requests whose handler acknowledges: all but the health check,
    the capabilities query, the fire-and-forget [setRtpCapabilities],
    the disconnect event, and a request that arrives without the
    payload object its handler destructures. *)
Definition acknowledging (req : Request) : bool :=
  match req with
  | HealthCheck | GetRtpCapabilities | SetRtpCapabilities _ | Disconnect
  | WithoutPayload _ => false
  | _ => true
  end.

(** What the handlers keep true of the two per-client registries:
    one entry per client, a producer entry's [producerId] is its
    producer's id, a consumer entry's [consumer_Id] is the client it is
    filed under. *)
Record registry_ok (s : Server) : Prop := {
  ok_producer_keys : NoDup (JsMap.keys (producers s));
  ok_consumer_keys : NoDup (JsMap.keys (consumers s));
  ok_producer_ids :
    ∀ k d, (k, d) ∈ producers s → producerId d = p_id (producer d);
  ok_consumer_owner :
    ∀ k d, (k, d) ∈ consumers s → consumer_Id d = k }.

(** The producer entry a successful [produce] files for a client. *)
Definition produced (kind : MediaKind) (cr : Created) : ProducerData :=
  {| producer := {| p_id := new_id cr; p_kind := kind; p_paused := false |};
     producerId := new_id cr |}.

(** The consumer entry a successful [consume] files for client [id]. *)
Definition consumed (id : string) (pd : ProducerData) (cr : Created)
  : ConsumerData :=
  {| consumer := {| c_id := new_id cr; c_producerId := p_id (producer pd);
                    c_kind := p_kind (producer pd);
                    c_paused := starts_paused cr |};
     consumer_Id := id |}.

(** What the handlers keep true of the broadcast groups: one entry per
    key, no member listed twice, no group left with a recorder and no
    member, [hlsRecorders] holding exactly the recorders attached to
    groups, and every attached recorder being a heap object created for
    the key of its group. *)
Record streams_ok (s : Server) : Prop := {
  ok_stream_keys : NoDup (JsMap.keys (activeStreams s));
  ok_members :
    ∀ k st, JsMap.get k (activeStreams s) = Some st → NoDup (streamers st);
  ok_nonempty :
    ∀ k st ref, JsMap.get k (activeStreams s) = Some st →
                recorder st = Some ref → streamers st ≠ [];
  ok_index :
    ∀ k, hlsRecorders s !! k = JsMap.get k (activeStreams s) ≫= recorder;
  ok_refs :
    ∀ k st ref, JsMap.get k (activeStreams s) = Some st →
                recorder st = Some ref → ref < length (heap s);
  ok_key :
    ∀ k st ref rec, JsMap.get k (activeStreams s) = Some st →
                    recorder st = Some ref → heap s !! ref = Some rec →
                    Recorder.streamKey rec = k }.

(** The entry of group [k] once [id] has been added to it by
    [startHLSStream]: the group as it was, or a new empty one, plus
    [id]. *)
Definition joined (id k : string) (s : Server) : StreamEntry :=
  let st0 := default {| streamers := []; recorder := None |}
               (JsMap.get k (activeStreams s)) in
  {| streamers := JsSet.add id (streamers st0); recorder := recorder st0 |}.

(** The entry of a group once [id] has been taken out of it. *)
Definition left_by (id : string) (st : StreamEntry) : StreamEntry :=
  {| streamers := JsSet.delete id (streamers st); recorder := recorder st |}.

(** The playback locator the server hands out for stream key [k]. *)
Definition playlist_url (k : string) : string :=
  "/api/hls/" +:+ k +:+ "/playlist.m3u8".

(** The group [k] exists and has no recorder. *)
Definition active_without_recorder (s : Server) (k : string) : Prop :=
  ∃ st, JsMap.get k (activeStreams s) = Some st ∧ recorder st = None.

(** [id] is listed in no group. *)
Definition in_no_group (id : string) (s : Server) : Prop :=
  ∀ k st, JsMap.get k (activeStreams s) = Some st → id ∉ streamers st.

(** A start-broadcast whose recorder calls all succeed. *)
Definition all_ok (a : StartArgs) : Prop :=
  ctor a = Ok () ∧
  ∃ t cr p, start a = {| Recorder.so_transport := Ok t;
                         Recorder.so_consumer := Ok cr;
                         Recorder.so_spawn := Ok p |}.

(** What [getActiveStreams] would report as [isLive] for group [k]. *)
Definition is_live (s : Server) (k : string) : bool :=
  match JsMap.get k (activeStreams s) ≫= recorder with
  | Some ref => default false (Recorder.isActive <$> heap s !! ref)
  | None => false
  end.

(** Outputs that are the recorder's doing, not messages to clients. *)
Definition is_engine (o : Output) : bool :=
  match o with Engine _ => true | _ => false end.

(** A run that leaves one group, without recorder: nobody produces. *)
Definition ops_active_only : list Op :=
  [ FromSocket "A" (StartHLSStream (Some "quiet") start_ok) ].

(** What a "stream ended" event for [k] in the result [r] of a
    disconnect of [id] from [s] stands for: group [k] of [s] had a
    recorder attached and [id] as its only member; it is gone from
    [activeStreams] and [hlsRecorders]; and the recorder object, if the
    heap has it, was stopped: it holds nothing, is inactive, and every
    release owed for what it held is among the outputs. *)
Definition stopped_and_dropped (s : Server) (id k : string)
    (r : Server * list Output) : Prop :=
  ∃ st ref,
    JsMap.get k (activeStreams s) = Some st ∧
    recorder st = Some ref ∧
    id ∈ streamers st ∧ (∀ x, x ∈ streamers st → x = id) ∧
    JsMap.get k (activeStreams r.1) = None ∧
    hlsRecorders r.1 !! k = None ∧
    ∀ rec, heap s !! ref = Some rec →
      (∃ rec', heap r.1 !! ref = Some rec' ∧ Recorder.stopped rec') ∧
      ∀ e, e ∈ Recorder.releases rec → Engine e ∈ r.2.

(** What holds at every turn of the loop of [disconnect], [s] being
    the state the loop started from and [acc] the state and the outputs
    so far: a group that still lists [id] is as it was in [s]; a
    recorder object of [s] is untouched or has been stopped, its
    releases sent; and every "stream ended" sent so far stands for a
    group that was stopped and dropped. *)
Record walk_ok (s : Server) (id : string) (acc : Server * list Output)
  : Prop := {
  wk_members :
    ∀ k st, JsMap.get k (activeStreams acc.1) = Some st →
            id ∈ streamers st → JsMap.get k (activeStreams s) = Some st;
  wk_heap :
    ∀ ref rec, heap s !! ref = Some rec →
      heap acc.1 !! ref = Some rec ∨
      ((∃ rec', heap acc.1 !! ref = Some rec' ∧ Recorder.stopped rec') ∧
       ∀ e, e ∈ Recorder.releases rec → Engine e ∈ acc.2);
  wk_ended :
    ∀ k, IoEmit (StreamEnded k) ∈ acc.2 → stopped_and_dropped s id k acc }.

End SignalingTerms.

Module PlaybackTerms.
Import Playback.

(** [path] is the root directory itself or lies below it. *)
Definition inside (root path : string) : bool :=
  bool_decide (path = root) || NodePath.startsWith (root +:+ "/") path.

(** The claim of the specification: a request whose path resolves
    outside the root is answered 403 and serves nothing. *)
Definition rejects_outside (cwd : string) (fs : Fs) (hlsPath : list string)
  : Prop :=
  inside (hlsRoot cwd) (NodePath.join ([cwd; "public"; "hls"] ++ hlsPath)) = false →
  handler cwd fs (Segments hlsPath) =
    {| status := 403; headers := []; body := Json "Forbidden" |}.

(** A deployment with a sibling directory next to the HLS root. *)
Definition sibling_fs : Fs :=
  {| existsSync := λ p,
       bool_decide (p = "/srv/app/public/hls_private/secret.ts") ||
       bool_decide (p = "/srv/app/public/hls/k/playlist.m3u8");
     statSize := λ _, 1880%Z |}.

(** A request that leaves the root through [".."]. *)
Definition escaping : list string := [".."; "hls_private"; "secret.ts"].

(** Plain path segments: not empty, not ["."], not [".."], no slash. *)
Fixpoint has_slash (s : string) : bool :=
  match s with
  | EmptyString => false
  | String c r => bool_decide (c = NodePath.slash) || has_slash r
  end.

Definition plain (s : string) : Prop :=
  s ≠ "" ∧ s ≠ "." ∧ s ≠ ".." ∧ has_slash s = false.

(** The absolute path with the given segments: [/a/b/c]. *)
Definition abs_path (segs : list string) : string :=
  "/" +:+ NodePath.concat_sep segs.

(** The response that streams file [p]. *)
Definition streaming (fs : Fs) (p : string) : Response :=
  {| status := 200;
     headers :=
       contentType p ++
       [("Access-Control-Allow-Origin", "*");
        ("Cache-Control", "no-cache, no-store, must-revalidate");
        ("Content-Length", pretty (statSize fs p))];
     body := FileStream p |}.

Definition not_found : Response :=
  {| status := 404; headers := []; body := Json "File not found" |}.

End PlaybackTerms.

Module MediasoupTerms.
Import Mediasoup.

(** The first IPv4 address of an interface that is not internal. *)
Definition first_external (nets : list NetworkInterfaceInfo) : option string :=
  address <$> List.find (λ net, bool_decide (family net = "IPv4") &&
                                negb (internal net)) nets.

(** A host with a loopback, a LAN and a container bridge interface. *)
Definition sample_interfaces : list (string * list NetworkInterfaceInfo) :=
  [("lo", [{| family := "IPv4"; internal := true; address := "127.0.0.1" |}]);
   ("eth0", [{| family := "IPv6"; internal := false; address := "fe80::1" |};
             {| family := "IPv4"; internal := false; address := "192.168.1.5" |}]);
   ("docker0",
    [{| family := "IPv4"; internal := false; address := "172.17.0.1" |}])].

End MediasoupTerms.

Module WatchTerms.
Import Signaling.

(** The stream ids the page lists, in order. *)
Definition ids (p : WatchPage.Page) : list string :=
  map si_streamId (WatchPage.activeStreams p).

(** The entry the page shows for [id]: [activeStreams.find]. *)
Definition entry (id : string) (p : WatchPage.Page) : option StreamInfo :=
  List.find (λ s, bool_decide (si_streamId s = id)) (WatchPage.activeStreams p).

(** What the events say about [id], given what was known [before]:
    the last [streamLive] or [streamEnded] that names it decides. *)
Fixpoint latest (id : string) (events : list Event)
    (before : option StreamInfo) : option StreamInfo :=
  match events with
  | [] => before
  | StreamLive k url members :: rest =>
      latest id rest
        (if bool_decide (k = id)
         then Some {| si_streamId := k; si_playlistUrl := url;
                      si_streamers := members; si_isLive := true |}
         else before)
  | StreamEnded k :: rest =>
      latest id rest (if bool_decide (k = id) then None else before)
  | NewProducer _ _ :: rest => latest id rest before
  end.

(** What the page makes of one output of the server.  Emitted events
    reach the page's socket; acknowledgements of other sockets'
    requests and the recorder's own actions do not. *)
Definition hear (p : WatchPage.Page) (o : Output) : WatchPage.Page :=
  match o with
  | IoEmit e | BroadcastEmit e => WatchPage.on p e
  | Reply _ | Engine _ => p
  end.



(** The page's own request: it asks for the active streams and stores
    the acknowledgement. *)
Definition refresh (w : string) (s : Server) (p : WatchPage.Page)
  : WatchPage.Page :=
  foldl (λ p o, match o with Reply a => WatchPage.getStreams a p | _ => p end)
    p (getActiveStreams w s).2.

(** The server and a page watching it: the server runs an operation
    and the page hears what it emits, or the page refreshes its
    list. *)
Inductive Tick :=
| Runs (op : Op)
| Refreshes.

Definition watch (w : string) (sp : Server * WatchPage.Page) (t : Tick)
  : Server * WatchPage.Page :=
  match t with
  | Runs op => ((step op sp.1).1, foldl hear sp.2 (step op sp.1).2)
  | Refreshes => (sp.1, refresh w sp.1 sp.2)
  end.

(** A page that watches two broadcasts start and one of them end. *)
Definition sample_events : list Event :=
  [StreamLive "a" (Some "/api/hls/a/playlist.m3u8") ["A"];
   StreamLive "b" None ["B"];
   StreamLive "a" (Some "/api/hls/a/playlist.m3u8") ["A"; "C"];
   StreamEnded "b"].

End WatchTerms.

(** * Properties *)

(** ** Laws of the container models *)

Module JsMapFacts.
Section Laws.
Context {V : Type}.
Implicit Types (m : jsmap V) (k : string) (v : V).

Lemma get_set_eq k v m : JsMap.get k (JsMap.set k v m) = Some v.
Proof.
  induction m as [|[k' v'] m IH]; cbn.
  - rewrite decide_True; done.
  - destruct (decide (k = k')) as [->|Hne]; cbn.
    + rewrite decide_True; done.
    + rewrite decide_False; done.
Qed.

Lemma get_set_ne k k' v m :
  k ≠ k' → JsMap.get k' (JsMap.set k v m) = JsMap.get k' m.
Proof.
  intros Hne. induction m as [|[k0 v0] m IH]; cbn.
  - rewrite decide_False; [done | congruence].
  - destruct (decide (k = k0)) as [->|Hne0]; cbn.
    + rewrite !decide_False; congruence.
    + destruct (decide (k' = k0)); done.
Qed.

Lemma get_delete_eq k m : JsMap.get k (JsMap.delete k m) = None.
Proof.
  induction m as [|[k' v'] m IH]; cbn; [done|].
  destruct (decide (k = k')) as [->|Hne]; cbn; [done|].
  rewrite decide_False; done.
Qed.

Lemma get_delete_ne k k' m :
  k ≠ k' → JsMap.get k' (JsMap.delete k m) = JsMap.get k' m.
Proof.
  intros Hne. induction m as [|[k0 v0] m IH]; cbn; [done|].
  destruct (decide (k = k0)) as [->|Hne0]; cbn.
  - rewrite decide_False; [done | congruence].
  - destruct (decide (k' = k0)); done.
Qed.

Lemma get_delete_Some k k' v m :
  JsMap.get k' (JsMap.delete k m) = Some v → JsMap.get k' m = Some v.
Proof.
  destruct (decide (k = k')) as [->|Hne].
  - rewrite get_delete_eq. discriminate.
  - rewrite get_delete_ne; done.
Qed.

Lemma has_true k m : JsMap.has k m = true ↔ is_Some (JsMap.get k m).
Proof.
  unfold JsMap.has. destruct (JsMap.get k m); split; intros H;
    try done; try (by eexists); by destruct H.
Qed.

Lemma get_elem_of k v m : JsMap.get k m = Some v → (k, v) ∈ m.
Proof.
  induction m as [|[k' v'] m IH]; cbn; [done|].
  destruct (decide (k = k')) as [->|Hne].
  - intros [= ->]. apply elem_of_cons. by left.
  - intros H. apply elem_of_cons. right. auto.
Qed.

Lemma keys_set k v m : JsMap.keys (JsMap.set k v m) ⊆ k :: JsMap.keys m.
Proof.
  induction m as [|[k' v'] m IH]; cbn; [set_solver|].
  destruct (decide (k = k')) as [->|Hne]; cbn; set_solver.
Qed.

Lemma keys_delete k m : JsMap.keys (JsMap.delete k m) ⊆ JsMap.keys m.
Proof.
  induction m as [|[k' v'] m IH]; cbn; [set_solver|].
  destruct (decide (k = k')) as [->|Hne]; cbn; set_solver.
Qed.

Lemma entry_of_set k v m e : e ∈ JsMap.set k v m → e = (k, v) ∨ e ∈ m.
Proof.
  induction m as [|[k' v'] m IH]; cbn.
  - intros H%list_elem_of_singleton. by left.
  - destruct (decide (k = k')) as [->|Hne]; rewrite !elem_of_cons.
    + intros [H|H]; [by left | right; by right].
    + intros [H|H]; [right; by left|].
      destruct (IH H) as [?|?]; [by left | right; by right].
Qed.

Lemma entry_of_delete k m e : e ∈ JsMap.delete k m → e ∈ m.
Proof.
  induction m as [|[k' v'] m IH]; cbn; [done|].
  destruct (decide (k = k')) as [->|Hne]; rewrite !elem_of_cons.
  - intros H. right. auto.
  - intros [H|H]; [by left | right; auto].
Qed.

Lemma get_is_key k v m : JsMap.get k m = Some v → k ∈ JsMap.keys m.
Proof.
  intros H%get_elem_of. unfold JsMap.keys.
  change k with (fst (k, v)). apply (list_elem_of_fmap_2 fst). exact H.
Qed.

(** [find] over the values sees the first entry that satisfies the
    predicate, whoever owns it. *)
Lemma find_values_elem_of (p : V → bool) k v m :
  (k, v) ∈ m → p v = true →
  ∃ v0, find p (JsMap.values m) = Some v0 ∧ p v0 = true.
Proof.
  induction m as [|[k' v'] m IH]; [intros H; inversion H|].
  intros Hin Hp. cbn. destruct (p v') eqn:Hv'.
  - exists v'. done.
  - apply elem_of_cons in Hin as [[= -> ->]|Hin]; [congruence|].
    apply IH; done.
Qed.

Lemma find_alter_first (p : V → bool) (f : V → V) m v0 :
  (∀ v, p v = true → p (f v) = true) →
  find p (JsMap.values m) = Some v0 →
  find p (JsMap.values (JsMap.alter_first p f m)) = Some (f v0).
Proof.
  intros Hpf. induction m as [|[k' v'] m IH]; cbn; [done|].
  destruct (p v') eqn:Hv'; cbn.
  - intros [= ->]. rewrite (Hpf _ Hv'). done.
  - rewrite Hv'. exact IH.
Qed.

Lemma keys_alter_first (p : V → bool) (f : V → V) m :
  JsMap.keys (JsMap.alter_first p f m) = JsMap.keys m.
Proof.
  induction m as [|[k' v'] m IH]; cbn; [done|].
  destruct (p v'); cbn; [done|]. f_equal. exact IH.
Qed.
End Laws.
End JsMapFacts.

Module JsSetFacts.
Lemma elem_of_delete x y s : y ∈ JsSet.delete x s ↔ y ∈ s ∧ y ≠ x.
Proof.
  induction s as [|z s IH]; cbn; [set_solver|].
  destruct (decide (x = z)) as [->|Hne]; set_solver.
Qed.

Lemma delete_all x s : (∀ y, y ∈ s → y = x) → JsSet.delete x s = [].
Proof.
  induction s as [|z s IH]; cbn; [done|].
  intros H. rewrite decide_True; [|symmetry; apply H; set_solver].
  apply IH. intros y Hy. apply H. set_solver.
Qed.

Lemma delete_nonempty x y s : y ∈ s → y ≠ x → JsSet.size (JsSet.delete x s) ≠ 0.
Proof.
  intros Hy Hne Hsz.
  assert (y ∈ JsSet.delete x s) as Hin by (apply elem_of_delete; done).
  destruct (JsSet.delete x s); [inversion Hin | discriminate].
Qed.

Lemma elem_of_add x y s : y ∈ JsSet.add x s ↔ y = x ∨ y ∈ s.
Proof.
  unfold JsSet.add, JsSet.has. case_bool_decide; set_solver.
Qed.
End JsSetFacts.

(** ** The recording bridge *)

Module RecorderFacts.
Import Recorder.
Import RecorderTerms.

Lemma cleanup_spec r :
  stopped (cleanup r).1 ∧ (cleanup r).2 = releases r.
Proof.
  destruct r as [fp ir op sk tr co].
  destruct fp, tr, co; repeat split.
Qed.

Lemma cleanup_stopped r : stopped r → cleanup r = (r, []).
Proof.
  destruct r as [fp ir op sk tr co].
  intros (Hact & Hfp & Hco & Htr); cbn in *; subst; reflexivity.
Qed.

Lemma cleanup_torn_down r : torn_down r (cleanup r).
Proof.
  destruct (cleanup_spec r) as [Hs He].
  split; [exact Hs | exists []; exact He].
Qed.

Lemma releases_transport r t :
  transport r = Some t → ClosedTransport t ∈ releases r.
Proof.
  intros H. unfold releases. rewrite H.
  rewrite !elem_of_app. right; right. apply list_elem_of_singleton. reflexivity.
Qed.

Lemma releases_consumer r c :
  consumer r = Some c → ClosedConsumer c ∈ releases r.
Proof.
  intros H. unfold releases. rewrite H.
  rewrite !elem_of_app. right; left. apply list_elem_of_singleton. reflexivity.
Qed.

Lemma releases_process r p :
  ffmpegProcess r = Some p → Killed p ∈ releases r.
Proof.
  intros H. unfold releases. rewrite H.
  rewrite !elem_of_app. left. apply list_elem_of_singleton. reflexivity.
Qed.

Lemma releases_are_releases r e : e ∈ releases r → is_release e = true.
Proof.
  unfold releases. rewrite !elem_of_app.
  destruct (ffmpegProcess r), (consumer r), (transport r);
    rewrite ?list_elem_of_singleton, ?elem_of_nil;
    intros [H|[H|H]]; subst; try reflexivity; contradiction.
Qed.

(** The [try] block only ever adds handles, and every handle it
    reports as created is the one the recorder then holds. *)
Lemma try_block_holds router ps o r r' es res :
  startRecording_try router ps o r = (r', es, res) →
  (∀ t, CreatedTransport t ∈ es → transport r' = Some t) ∧
  (∀ c, CreatedConsumer c ∈ es → consumer r' = Some c) ∧
  (∀ p i pl, Spawned p i pl ∈ es → ffmpegProcess r' = Some p).
Proof.
  unfold startRecording_try.
  destruct (filter _ _) as [|first rest]; [intros [= <- <- <-]|].
  { repeat split; intros; exfalso; eapply not_elem_of_nil; eassumption. }
  destruct router as [rt|]; [|intros [= <- <- <-]].
  2:{ repeat split; intros; exfalso; eapply not_elem_of_nil; eassumption. }
  destruct (so_transport o) as [t|m]; [|intros [= <- <- <-]].
  2:{ repeat split; intros; exfalso; eapply not_elem_of_nil; eassumption. }
  destruct (so_consumer o) as [cr|m]; [|intros [= <- <- <-]].
  2:{ repeat split; intros ? ; rewrite ?list_elem_of_singleton;
      try (intros ? ?); rewrite ?list_elem_of_singleton; try congruence.
      intros [= ->]. reflexivity. }
  destruct (so_spawn o) as [p|m]; intros [= <- <- <-].
  - repeat split; intros *; rewrite !elem_of_cons, elem_of_nil;
      intros H; destruct_or?; try discriminate; try contradiction;
      simplify_eq; reflexivity.
  - repeat split; intros *; rewrite !elem_of_cons, elem_of_nil;
      intros H; destruct_or?; try discriminate; try contradiction;
      simplify_eq; reflexivity.
Qed.

Lemma startRecording_failure router ps o r r' es m :
  startRecording router ps o r = (r', es, Throw m) →
  stopped r' ∧
  (∀ t, CreatedTransport t ∈ es → ClosedTransport t ∈ es) ∧
  (∀ c, CreatedConsumer c ∈ es → ClosedConsumer c ∈ es) ∧
  (∀ p i pl, Spawned p i pl ∈ es → Killed p ∈ es) ∧
  ∃ mid es0,
    startRecording_try router ps o r = (mid, es0, Throw m) ∧
    es = es0 ++ releases mid.
Proof.
  unfold startRecording.
  destruct (isRecording r); [discriminate|].
  destruct (startRecording_try router ps o r) as [[mid es0] res] eqn:Htry.
  destruct res as [u|m']; [discriminate|].
  destruct (cleanup_spec mid) as [Hstop Hrel].
  destruct (cleanup mid) as [r'' ces] eqn:Hc; cbn in Hstop, Hrel.
  intros [= <- <- <-]. subst ces.
  destruct (try_block_holds _ _ _ _ _ _ _ Htry) as (Ht & Hc' & Hp).
  split; [exact Hstop|].
  split; [|split; [|split]].
  - intros t Hin. apply elem_of_app in Hin as [Hin|Hin].
    + apply elem_of_app. right. apply releases_transport. auto.
    + apply releases_are_releases in Hin. discriminate.
  - intros c Hin. apply elem_of_app in Hin as [Hin|Hin].
    + apply elem_of_app. right. apply releases_consumer. auto.
    + apply releases_are_releases in Hin. discriminate.
  - intros p i pl Hin. apply elem_of_app in Hin as [Hin|Hin].
    + apply elem_of_app. right. eapply releases_process. eauto.
    + apply releases_are_releases in Hin. discriminate.
  - exists mid, es0. split; reflexivity.
Qed.

Lemma delayedSetup_failure connect resume r :
  delayed_ok connect resume r = false →
  torn_down r (delayedSetup connect resume r).
Proof.
  unfold delayed_ok, delayedSetup, stopRecording.
  pose proof (cleanup_spec r) as [Hs He].
  destruct (transport r) as [t|] eqn:Ht.
  2:{ intros _. apply cleanup_torn_down. }
  destruct connect as [[]|m].
  2:{ intros _. apply cleanup_torn_down. }
  destruct (consumer r) as [c|] eqn:Hc.
  - destruct resume as [[]|m]; [discriminate|]. intros _.
    destruct (cleanup r) as [r' es]. cbn in *.
    split; [exact Hs|]. exists [Connected t (localPort t)]. subst es. reflexivity.
  - intros _. destruct (cleanup r) as [r' es]. cbn in *.
    split; [exact Hs|]. exists [Connected t (localPort t)]. subst es. reflexivity.
Qed.

Example start_then_failed_connect :
  delayedSetup (Throw "connect failed") (Ok ()) sample_started =
  (new "/srv/app" "k",
   [Killed {| pid := 4242 |};
    ClosedConsumer {| c_id := "C9"; c_producerId := "P1"; c_kind := video;
                      c_paused := true |};
    ClosedTransport sample_tap]).
Proof. reflexivity. Qed.

(** C8.  Stopping the bridge is idempotent: a second [stopRecording]
    changes nothing and does nothing.  Every stop, every failure of
    [startRecording], every failure of the delayed connect-and-resume
    step and every subprocess [error]/[close] event leaves the bridge
    inactive ([isActive] false) with no handle held, having killed the
    subprocess if there was one and closed the tap consumer and the
    tap transport it held; whatever a failed [startRecording] created
    it also released. *)
Theorem stop_idempotent_and_failures_release
    (r : HLSRecorderV2) (router : option Router) (ps : jsmap ProducerData)
    (o : StartOutcomes) (connect resume : Outcome unit) :
  (torn_down r (stopRecording r) ∧ (stopRecording r).2 = releases r) ∧
  stopRecording (stopRecording r).1 = ((stopRecording r).1, []) ∧
  (∀ r' es m,
      startRecording router ps o r = (r', es, Throw m) →
      stopped r' ∧
      (∀ t, CreatedTransport t ∈ es → ClosedTransport t ∈ es) ∧
      (∀ c, CreatedConsumer c ∈ es → ClosedConsumer c ∈ es) ∧
      (∀ p i pl, Spawned p i pl ∈ es → Killed p ∈ es) ∧
      ∃ mid es0,
        startRecording_try router ps o r = (mid, es0, Throw m) ∧
        es = es0 ++ releases mid) ∧
  (delayed_ok connect resume r = false →
   torn_down r (delayedSetup connect resume r)) ∧
  torn_down r (onError r) ∧ torn_down r (onClose r).
Proof.
  split; [split|split; [|split; [|split; [|split]]]].
  - apply cleanup_torn_down.
  - apply cleanup_spec.
  - unfold stopRecording. apply cleanup_stopped, cleanup_spec.
  - intros r' es m. apply startRecording_failure.
  - apply delayedSetup_failure.
  - apply cleanup_torn_down.
  - apply cleanup_torn_down.
Qed.

(** The subprocess's handlers outlive a stop: a progress line that
    still arrives on stderr marks the recorder as recording again, until
    the [close] event cleans up once more. *)
Example progress_line_after_stop :
  isActive (onStderr "frame=  100 fps= 30 q=28.0"
              (stopRecording sample_started).1) = true ∧
  stopped (onClose (onStderr "frame=  100 fps= 30 q=28.0"
                      (stopRecording sample_started).1)).1.
Proof. split; [reflexivity | repeat split]. Qed.

Lemma stop_idempotent_and_failures_release_witness :
  startRecording (Some sample_router) [("A", sample_camera)] consume_fails
    (new "/srv/app" "k")
  = (new "/srv/app" "k",
     [CreatedTransport sample_tap; ClosedTransport sample_tap],
     Throw "consume failed") ∧
  delayed_ok (Throw "connect failed") (Ok ()) sample_started = false ∧
  stopped (new "/srv/app" "k") ∧
  torn_down sample_started
    (delayedSetup (Throw "connect failed") (Ok ()) sample_started).
Proof.
  split; [reflexivity|]. split; [reflexivity|].
  split.
  - destruct (stop_idempotent_and_failures_release (new "/srv/app" "k")
                (Some sample_router) [("A", sample_camera)] consume_fails
                (Ok ()) (Ok ())) as (_ & _ & Hstart & _).
    exact (proj1 (Hstart _ _ _ eq_refl)).
  - destruct (stop_idempotent_and_failures_release sample_started
                (Some sample_router) [("A", sample_camera)] consume_fails
                (Throw "connect failed") (Ok ())) as (_ & _ & _ & Hdelay & _).
    exact (Hdelay eq_refl).
Defined.

End RecorderFacts.

(** ** The signaling server *)

Module SignalingFacts.
Import Signaling.
Import SignalingTerms.
Import JsMapFacts.

Lemma stop_recorder_spec ref s rec :
  heap s !! ref = Some rec →
  stop_recorder ref s =
    (with_heap (<[ref := (Recorder.cleanup rec).1]> (heap s)) s,
     map Engine (Recorder.releases rec)).
Proof.
  intros H. unfold stop_recorder, Recorder.stopRecording. rewrite H.
  destruct (RecorderFacts.cleanup_spec rec) as [_ He].
  destruct (Recorder.cleanup rec) as [rec' es]; cbn in *. by subst.
Qed.

(** *** Stopping a broadcast *)

(** C6.  In a group with an attached recorder, a stop-broadcast
    request from its only remaining member stops the recorder (it ends
    up holding nothing, inactive) and deletes the group from
    [activeStreams] and [hlsRecorders]; a stop-broadcast request from a
    member who is not the last one removes just that member: the group
    stays, with the same recorder attached and untouched, and no other
    group changes. *)
Theorem stop_by_last_member_only
    (s : Server) (id key : string) (stream : StreamEntry) (ref : nat)
    (rec : Recorder.HLSRecorderV2) :
  JsMap.get key (activeStreams s) = Some stream →
  recorder stream = Some ref →
  heap s !! ref = Some rec →
  id ∈ streamers stream →
  ((∀ x, x ∈ streamers stream → x = id) →
     JsMap.get key (activeStreams (stopHLSStream id key s).1) = None ∧
     hlsRecorders (stopHLSStream id key s).1 !! key = None ∧
     (∃ rec', heap (stopHLSStream id key s).1 !! ref = Some rec' ∧
              Recorder.stopped rec') ∧
     (stopHLSStream id key s).2 =
       map Engine (Recorder.releases rec) ++
       [IoEmit (StreamEnded key); Reply AckSuccess]) ∧
  ((∃ x, x ∈ streamers stream ∧ x ≠ id) →
     JsMap.get key (activeStreams (stopHLSStream id key s).1) =
       Some {| streamers := JsSet.delete id (streamers stream);
               recorder := Some ref |} ∧
     (∀ x, x ∈ JsSet.delete id (streamers stream) ↔
           x ∈ streamers stream ∧ x ≠ id) ∧
     heap (stopHLSStream id key s).1 = heap s ∧
     hlsRecorders (stopHLSStream id key s).1 = hlsRecorders s ∧
     (∀ k', k' ≠ key →
            JsMap.get k' (activeStreams (stopHLSStream id key s).1) =
            JsMap.get k' (activeStreams s)) ∧
     (stopHLSStream id key s).2 = [Reply AckSuccess]).
Proof.
  intros Hget Hrec Hheap Hmem.
  unfold stopHLSStream, leave. rewrite Hget. cbn. rewrite Hrec.
  split.
  - intros Hlast. rewrite (JsSetFacts.delete_all _ _ Hlast). cbn.
    rewrite bool_decide_true by reflexivity.
    rewrite (stop_recorder_spec ref _ rec) by exact Hheap. cbn.
    split; [apply get_delete_eq|].
    split; [apply lookup_delete_eq|].
    split.
    + exists (Recorder.cleanup rec).1. split.
      * apply list_lookup_insert_eq. eapply lookup_lt_Some. exact Hheap.
      * apply RecorderFacts.cleanup_spec.
    + rewrite <- app_assoc. reflexivity.
  - intros (x & Hx & Hne).
    pose proof (JsSetFacts.delete_nonempty id x _ Hx Hne) as Hsz.
    rewrite bool_decide_false by exact Hsz. cbn.
    split; [apply get_set_eq|].
    split; [intros y; apply JsSetFacts.elem_of_delete|].
    split; [reflexivity|]. split; [reflexivity|].
    split; [|reflexivity].
    intros k' Hk'. apply get_set_ne. congruence.
Qed.

(** *** An invariant of every run: no group has the empty key *)

Lemma effective_key_nonempty req t : effective_key req t ≠ "".
Proof.
  unfold effective_key. destruct req as [k|]; [|discriminate].
  destruct (decide (k = "")); [discriminate | assumption].
Qed.

Lemma effective_key_given k t : k ≠ "" → effective_key (Some k) t = k.
Proof. intros H. unfold effective_key. by rewrite decide_False. Qed.

Lemma stop_recorder_activeStreams ref s :
  activeStreams (stop_recorder ref s).1 = activeStreams s.
Proof.
  unfold stop_recorder. destruct (heap s !! ref); [|reflexivity].
  destruct (Recorder.stopRecording _); reflexivity.
Qed.

Lemma leave_keys id k st s :
  JsMap.get k (activeStreams s) = Some st →
  JsMap.keys (activeStreams (leave id k st s).1) ⊆ JsMap.keys (activeStreams s).
Proof.
  intros Hget. pose proof (get_is_key _ _ _ Hget) as Hk.
  assert (JsMap.keys (JsMap.set k
            {| streamers := JsSet.delete id (streamers st);
               recorder := recorder st |} (activeStreams s))
          ⊆ JsMap.keys (activeStreams s)) as Hset.
  { intros x Hx. apply keys_set in Hx. apply elem_of_cons in Hx as [->|Hx]; done. }
  unfold leave. cbn. destruct (recorder st) as [ref|]; [|exact Hset].
  case_bool_decide; [|exact Hset].
  pose proof (stop_recorder_activeStreams ref
    (with_activeStreams (JsMap.set k
       {| streamers := JsSet.delete id (streamers st); recorder := Some ref |}
       (activeStreams s)) s)) as Hstop.
  destruct (stop_recorder ref _) as [s2 es]. cbn in *. rewrite Hstop.
  intros x Hx. apply keys_delete in Hx. auto.
Qed.

Lemma disconnect_walk_keys id l acc :
  JsMap.keys (activeStreams (foldl (disconnect_visit id) acc l).1)
  ⊆ JsMap.keys (activeStreams acc.1).
Proof.
  revert acc. induction l as [|k l IH]; intros acc; cbn; [done|].
  etransitivity; [apply IH|].
  unfold disconnect_visit.
  destruct (JsMap.get k (activeStreams acc.1)) as [st|] eqn:Hget; [|done].
  destruct (JsSet.has id (streamers st)); [|done].
  pose proof (leave_keys id k st acc.1 Hget) as Hl.
  destruct (leave id k st acc.1) as [s' out]. exact Hl.
Qed.

Lemma startHLSStream_keys id req a s :
  JsMap.keys (activeStreams (startHLSStream id req a s).1)
  ⊆ effective_key req (now a) :: JsMap.keys (activeStreams s).
Proof.
  unfold startHLSStream.
  set (k := effective_key req (now a)).
  set (streams1 := if JsMap.has k (activeStreams s) then _ else _).
  assert (JsMap.keys streams1 ⊆ k :: JsMap.keys (activeStreams s)) as H1.
  { subst streams1. destruct (JsMap.has k (activeStreams s)).
    - intros x Hx. apply elem_of_cons. by right.
    - apply keys_set. }
  assert (∀ v, JsMap.keys (JsMap.set k v streams1)
               ⊆ k :: JsMap.keys (activeStreams s)) as H2.
  { intros v x Hx. apply keys_set in Hx.
    apply elem_of_cons in Hx as [->|Hx]; [apply elem_of_cons; by left | auto]. }
  assert (∀ v w, JsMap.keys (JsMap.set k v (JsMap.set k w streams1))
               ⊆ k :: JsMap.keys (activeStreams s)) as H3.
  { intros v w x Hx. apply keys_set in Hx.
    apply elem_of_cons in Hx as [->|Hx]; [apply elem_of_cons; by left|].
    eapply H2; eauto. }
  destruct (JsMap.get k streams1) as [st|]; cbn -[Recorder.startRecording].
  2:{ intros x Hx. apply elem_of_cons. by right. }
  destruct (existsb is_video _ && _); cbn -[Recorder.startRecording];
    [|apply H2].
  destruct (ctor a); cbn -[Recorder.startRecording]; [|apply H2].
  destruct (Recorder.startRecording _ _ _ _) as [[rec es] [u|m]]; cbn.
  - apply H3.
  - apply H2.
Qed.

Ltac same_streams :=
  intros; cbv beta delta [healthCheck getRtpCapabilities
    createProducerTransport createConsumerTransport
    connectProducerTransport connectConsumerTransport produce consume
    resumeConsumer getProducers setRtpCapabilities getActiveStreams
    createTransport];
  cbn; repeat case_match; reflexivity.

Lemma step_no_empty_key op s :
  no_empty_key s → no_empty_key (step op s).1.
Proof.
  unfold no_empty_key. intros Hs.
  destruct op as [[r|m]|id req|ref cb]; cbn; try exact Hs.
  - destruct req; cbn; try exact Hs;
      try (match goal with
           | |- "" ∉ JsMap.keys (activeStreams ?t.1) =>
               replace (activeStreams t.1) with (activeStreams s);
               [exact Hs | symmetry; same_streams]
           end).
    + intros Hin. apply startHLSStream_keys in Hin.
      apply elem_of_cons in Hin as [Hin|Hin]; [|done].
      symmetry in Hin. by apply effective_key_nonempty in Hin.
    + unfold stopHLSStream.
      destruct (JsMap.get streamId (activeStreams s)) as [st|] eqn:Hget;
        [|exact Hs].
      pose proof (leave_keys id streamId st s Hget) as Hl.
      destruct (leave id streamId st s) as [s' out]. cbn in *.
      intros Hin. apply Hl in Hin. done.
    + intros Hin. apply disconnect_walk_keys in Hin. done.
  - destruct (heap s !! ref); [|exact Hs].
    destruct (recorder_callback cb _). exact Hs.
Qed.

Lemma run_cons op ops s :
  (run (op :: ops) s).1 = (run ops (step op s).1).1.
Proof.
  cbn. destruct (step op s) as [s1 o1]. cbn. destruct (run ops s1). reflexivity.
Qed.

Lemma run_no_empty_key ops s :
  no_empty_key s → no_empty_key (run ops s).1.
Proof.
  revert s. induction ops as [|op ops IH]; intros s Hs; [exact Hs|].
  rewrite run_cons. apply IH, step_no_empty_key, Hs.
Qed.

Lemma reachable_no_empty_key s : reachable s → no_empty_key s.
Proof.
  intros (dir & ops & <-). apply run_no_empty_key.
  unfold no_empty_key. cbn. apply not_elem_of_nil.
Qed.

(** *** A second invariant: recorder references are never dangling *)

Lemma stop_recorder_heap_length ref s :
  length (heap (stop_recorder ref s).1) = length (heap s).
Proof.
  unfold stop_recorder. destruct (heap s !! ref); [|reflexivity].
  destruct (Recorder.stopRecording _). cbn. apply length_insert.
Qed.

Lemma leave_refs_valid id k st s :
  refs_valid s → JsMap.get k (activeStreams s) = Some st →
  refs_valid (leave id k st s).1.
Proof.
  intros Hs Hget. pose proof (get_elem_of _ _ _ Hget) as Hin.
  set (st1 := {| streamers := JsSet.delete id (streamers st);
                 recorder := recorder st |}).
  assert (∀ e, e ∈ JsMap.set k st1 (activeStreams s) →
               ∀ ref, recorder e.2 = Some ref → ref < length (heap s)) as Hset.
  { intros e He ref Hr. apply entry_of_set in He as [->|He].
    - eapply Hs; [exact Hin | exact Hr].
    - destruct e as [k' st']. eapply Hs; [exact He | exact Hr]. }
  unfold leave. fold st1. cbn.
  destruct (recorder st) as [r|] eqn:Hrec.
  2:{ intros k' st' ref He Hr. cbn in *. exact (Hset _ He _ Hr). }
  case_bool_decide.
  2:{ intros k' st' ref He Hr. cbn in *. exact (Hset _ He _ Hr). }
  match goal with
  | |- context [stop_recorder r ?t] =>
      pose proof (stop_recorder_heap_length r t) as Hlen;
      pose proof (stop_recorder_activeStreams r t) as Hact;
      destruct (stop_recorder r t) as [s2 es]
  end.
  cbn in *. intros k' st' ref He Hr. cbn in *.
  rewrite Hlen. rewrite Hact in He. apply entry_of_delete in He.
  exact (Hset _ He _ Hr).
Qed.

Lemma disconnect_walk_refs_valid id l acc :
  refs_valid acc.1 → refs_valid (foldl (disconnect_visit id) acc l).1.
Proof.
  revert acc. induction l as [|k l IH]; intros acc Hacc; [exact Hacc|].
  cbn. apply IH. unfold disconnect_visit.
  destruct (JsMap.get k (activeStreams acc.1)) as [st|] eqn:Hget; [|exact Hacc].
  destruct (JsSet.has id (streamers st)); [|exact Hacc].
  pose proof (leave_refs_valid id k st acc.1 Hacc Hget) as Hl.
  destruct (leave id k st acc.1) as [s' out]. exact Hl.
Qed.

Lemma startHLSStream_refs_valid id req a s :
  refs_valid s → refs_valid (startHLSStream id req a s).1.
Proof.
  intros Hs. unfold startHLSStream.
  set (k := effective_key req (now a)).
  set (streams1 := if JsMap.has k (activeStreams s) then _ else _).
  assert (∀ e, e ∈ streams1 →
               ∀ ref, recorder e.2 = Some ref → ref < length (heap s)) as H1.
  { intros e He ref Hr. subst streams1.
    destruct (JsMap.has k (activeStreams s)).
    - destruct e. eapply Hs; eauto.
    - apply entry_of_set in He as [->|He]; [discriminate|].
      destruct e. eapply Hs; eauto. }
  destruct (JsMap.get k streams1) as [st|] eqn:Hst;
    cbn -[Recorder.startRecording]; [|exact Hs].
  pose proof (get_elem_of _ _ _ Hst) as Hin.
  set (st1 := {| streamers := JsSet.add id (streamers st);
                 recorder := recorder st |}).
  assert (∀ e, e ∈ JsMap.set k st1 streams1 →
               ∀ ref, recorder e.2 = Some ref → ref < length (heap s)) as H2.
  { intros e He ref Hr. apply entry_of_set in He as [->|He].
    - exact (H1 _ Hin _ Hr).
    - exact (H1 _ He _ Hr). }
  assert (refs_valid (with_activeStreams (JsMap.set k st1 streams1) s)) as Hs1.
  { intros k' st' ref He Hr. exact (H2 _ He _ Hr). }
  destruct (existsb is_video _ && _); cbn -[Recorder.startRecording];
    [|exact Hs1].
  destruct (ctor a); cbn -[Recorder.startRecording]; [|exact Hs1].
  destruct (Recorder.startRecording _ _ _ _) as [[rec es] [u|m]]; cbn.
  - intros k' st' ref He Hr. cbn in *. rewrite length_app. cbn.
    apply entry_of_set in He as [[= -> ->]|He].
    + cbn in Hr. injection Hr as <-. lia.
    + pose proof (H2 _ He _ Hr). lia.
  - intros k' st' ref He Hr. cbn in *. rewrite length_app.
    pose proof (H2 _ He _ Hr). lia.
Qed.

Ltac same_heap_and_streams :=
  intros; cbv beta delta [healthCheck getRtpCapabilities
    createProducerTransport createConsumerTransport
    connectProducerTransport connectConsumerTransport produce consume
    resumeConsumer getProducers setRtpCapabilities getActiveStreams
    createTransport];
  cbn; repeat case_match; split; reflexivity.

Lemma step_refs_valid op s : refs_valid s → refs_valid (step op s).1.
Proof.
  intros Hs.
  destruct op as [[r|m]|id req|ref cb]; cbn; try exact Hs.
  - destruct req; cbn [handle];
      try (match goal with
           | |- refs_valid ?t.1 =>
               assert (activeStreams t.1 = activeStreams s ∧ heap t.1 = heap s)
                 as [Ha Hh] by same_heap_and_streams;
               intros k st r; rewrite Ha, Hh; apply Hs
           end).
    + apply startHLSStream_refs_valid, Hs.
    + unfold stopHLSStream.
      destruct (JsMap.get streamId (activeStreams s)) as [st|] eqn:Hget;
        [|exact Hs].
      pose proof (leave_refs_valid id streamId st s Hs Hget) as Hl.
      destruct (leave id streamId st s) as [s' out]. exact Hl.
    + unfold disconnect. apply disconnect_walk_refs_valid. exact Hs.
  - destruct (heap s !! ref); [|exact Hs].
    destruct (recorder_callback cb _). cbn.
    intros k st r Hin Hr. cbn in *. rewrite length_insert. eapply Hs; eauto.
Qed.

Lemma run_refs_valid ops s : refs_valid s → refs_valid (run ops s).1.
Proof.
  revert s. induction ops as [|op ops IH]; intros s Hs; [exact Hs|].
  rewrite run_cons. apply IH, step_refs_valid, Hs.
Qed.

(** In a reachable state every group's recorder reference points at
    a recorder object: the hypothesis [heap s !! ref = Some rec] of the
    theorem on stopping can always be met. *)
Lemma reachable_recorder_exists s k st ref :
  reachable s → JsMap.get k (activeStreams s) = Some st →
  recorder st = Some ref → ∃ rec, heap s !! ref = Some rec.
Proof.
  intros (dir & ops & <-) Hget Hr.
  apply lookup_lt_is_Some_2.
  eapply (run_refs_valid ops (initial dir)); [|apply get_elem_of; exact Hget|exact Hr].
  intros k' st' ref' Hin. inversion Hin.
Qed.

(** *** Starting a broadcast *)

Lemma startHLSStream_attached s id key a stream ref :
  key ≠ "" →
  JsMap.get key (activeStreams s) = Some stream →
  recorder stream = Some ref →
  startHLSStream id (Some key) a s =
    (let stream1 := {| streamers := JsSet.add id (streamers stream);
                       recorder := Some ref |} in
     let s1 := with_activeStreams
                 (JsMap.set key stream1 (activeStreams s)) s in
     (s1, announce key stream1 s1)).
Proof.
  intros Hne Hget Hrec. unfold startHLSStream.
  rewrite (effective_key_given _ _ Hne).
  assert (JsMap.has key (activeStreams s) = true) as ->.
  { apply has_true. rewrite Hget. by eexists. }
  rewrite Hget. cbn -[Recorder.startRecording]. rewrite Hrec.
  rewrite bool_decide_false by discriminate.
  rewrite andb_false_r. reflexivity.
Qed.

(** C1.  In every state the server can reach, a start-broadcast
    request for a stream key whose group already has a recorder
    attached constructs no recorder (the heap of recorder objects is
    the same afterwards, so the existing object is also untouched),
    leaves the same recorder attached to the group and leaves
    [hlsRecorders] as it was; the request only adds the caller to the
    members and sends the acknowledgement and the announcement. *)
Theorem start_while_recording_keeps_recorder
    (s : Server) (id key : string) (a : StartArgs)
    (stream : StreamEntry) (ref : nat) :
  reachable s →
  JsMap.get key (activeStreams s) = Some stream →
  recorder stream = Some ref →
  heap (startHLSStream id (Some key) a s).1 = heap s ∧
  hlsRecorders (startHLSStream id (Some key) a s).1 = hlsRecorders s ∧
  JsMap.get key (activeStreams (startHLSStream id (Some key) a s).1) =
    Some {| streamers := JsSet.add id (streamers stream);
            recorder := Some ref |} ∧
  Forall (λ o, match o with Engine _ => False | _ => True end)
    (startHLSStream id (Some key) a s).2.
Proof.
  intros Hreach Hget Hrec.
  assert (key ≠ "") as Hne.
  { intros ->. apply (reachable_no_empty_key _ Hreach).
    eapply get_is_key. exact Hget. }
  rewrite (startHLSStream_attached _ _ _ _ _ _ Hne Hget Hrec). cbn.
  split; [reflexivity|]. split; [reflexivity|].
  split; [apply get_set_eq|].
  repeat constructor.
Qed.

Lemma after_reachable ops : reachable (after ops).
Proof. exists "/srv/app", ops. reflexivity. Defined.

Example live_one_group :
  JsMap.get "k" (activeStreams (after ops_live_one)) =
    Some {| streamers := ["A"]; recorder := Some 0 |}.
Proof. reflexivity. Qed.

Example live_two_outputs :
  (run ops_live_two (initial "/srv/app")).2 =
  [ Reply (AckTransport {| t_id := "TA" |});
    BroadcastEmit (NewProducer "P1" "A");
    Reply (AckProduced "P1");
    Engine (Recorder.CreatedTransport RecorderTerms.sample_tap);
    Engine (Recorder.CreatedConsumer
              {| c_id := "C9"; c_producerId := "P1"; c_kind := video;
                 c_paused := true |});
    Engine (Recorder.Spawned {| Recorder.pid := 4242 |} "rtp://127.0.0.1:40000"
              "/srv/app/public/hls/k/playlist.m3u8");
    Engine (Recorder.TimerSet 3000);
    Reply (AckStream "k" (Some "/api/hls/k/playlist.m3u8"));
    IoEmit (StreamLive "k" (Some "/api/hls/k/playlist.m3u8") ["A"]);
    Reply (AckStream "k" (Some "/api/hls/k/playlist.m3u8"));
    IoEmit (StreamLive "k" (Some "/api/hls/k/playlist.m3u8") ["A"; "B"]) ].
Proof. reflexivity. Qed.

Lemma start_while_recording_keeps_recorder_witness :
  JsMap.get "k" (activeStreams (after ops_live_one)) =
    Some {| streamers := ["A"]; recorder := Some 0 |} ∧
  heap (startHLSStream "B" (Some "k") start_ok (after ops_live_one)).1 =
    heap (after ops_live_one) ∧
  JsMap.get "k"
    (activeStreams (startHLSStream "B" (Some "k") start_ok (after ops_live_one)).1)
  = Some {| streamers := ["A"; "B"]; recorder := Some 0 |}.
Proof.
  split; [reflexivity|].
  destruct (start_while_recording_keeps_recorder (after ops_live_one) "B" "k"
              start_ok {| streamers := ["A"]; recorder := Some 0 |} 0
              (after_reachable ops_live_one) eq_refl eq_refl)
    as (Hheap & _ & Hgroup & _).
  split; [exact Hheap | exact Hgroup].
Defined.

Lemma stop_by_last_member_only_witness :
  JsMap.get "k" (activeStreams (stopHLSStream "A" "k" (after ops_live_one)).1)
    = None ∧
  (stopHLSStream "A" "k" (after ops_live_one)).2 =
    [ Engine (Recorder.Killed {| Recorder.pid := 4242 |});
      Engine (Recorder.ClosedConsumer
                {| c_id := "C9"; c_producerId := "P1"; c_kind := video;
                   c_paused := true |});
      Engine (Recorder.ClosedTransport RecorderTerms.sample_tap);
      IoEmit (StreamEnded "k"); Reply AckSuccess ] ∧
  JsMap.get "k" (activeStreams (stopHLSStream "A" "k" (after ops_live_two)).1)
    = Some {| streamers := ["B"]; recorder := Some 0 |} ∧
  heap (stopHLSStream "A" "k" (after ops_live_two)).1 = heap (after ops_live_two).
Proof.
  destruct (stop_by_last_member_only (after ops_live_one) "A" "k"
              {| streamers := ["A"]; recorder := Some 0 |} 0
              RecorderTerms.sample_started eq_refl eq_refl eq_refl
              ltac:(apply elem_of_cons; by left)) as [Hlast _].
  destruct Hlast as (Hgone & _ & _ & Hout).
  { intros x Hx. apply list_elem_of_singleton in Hx. exact Hx. }
  destruct (stop_by_last_member_only (after ops_live_two) "A" "k"
              {| streamers := ["A"; "B"]; recorder := Some 0 |} 0
              RecorderTerms.sample_started eq_refl eq_refl eq_refl
              ltac:(apply elem_of_cons; by left)) as [_ Hother].
  destruct Hother as (Hkept & _ & Hheap & _).
  { exists "B". split; [|discriminate].
    apply elem_of_cons; right. apply elem_of_cons; by left. }
  split; [exact Hgone|]. split; [exact Hout|].
  split; [exact Hkept | exact Hheap].
Defined.

(** *** When "stream live" is announced *)

Lemma stream_live_count_engine es rest :
  stream_live_count (map Engine es ++ rest) = stream_live_count rest.
Proof.
  unfold stream_live_count. induction es as [|e es IH]; [reflexivity|].
  change (map Engine (e :: es) ++ rest) with (Engine e :: (map Engine es ++ rest)).
  rewrite filter_cons_False by (cbn; discriminate). exact IH.
Qed.

Lemma acknowledged_engine es rest :
  acknowledged (map Engine es ++ rest) = acknowledged rest.
Proof. induction es as [|e es IH]; [reflexivity | exact IH]. Qed.

Lemma refused_engine es rest :
  refused (map Engine es ++ rest) = refused rest.
Proof. induction es as [|e es IH]; [reflexivity | exact IH]. Qed.

Lemma startHLSStream_ends id req a s :
  StartEnd s (effective_key req (now a)) (startHLSStream id req a s).
Proof.
  unfold startHLSStream.
  set (k := effective_key req (now a)).
  set (streams1 := if JsMap.has k (activeStreams s) then _ else _).
  assert (∃ st, JsMap.get k streams1 = Some st ∧
                recording s k =
                  match recorder st with Some _ => true | None => false end)
    as (st & Hst & Hrec).
  { subst streams1. unfold recording, JsMap.has.
    destruct (JsMap.get k (activeStreams s)) as [st|] eqn:Hget.
    - exists st. by rewrite Hget.
    - eexists. rewrite get_set_eq. done. }
  rewrite Hst. cbn -[Recorder.startRecording JsMap.values].
  set (st1 := {| streamers := JsSet.add id (streamers st);
                 recorder := recorder st |}).
  destruct (existsb is_video (JsMap.values (producers s))) eqn:Hvid;
    cbn -[Recorder.startRecording JsMap.values].
  2:{ apply (NothingToStart _ _ _ st1); cbn.
      - by left.
      - reflexivity.
      - apply get_set_eq.
      - unfold recording at 1. cbn. rewrite get_set_eq. cbn. by rewrite Hrec. }
  destruct (recorder st) as [ref|] eqn:Hr.
  { rewrite bool_decide_false by discriminate.
    apply (NothingToStart _ _ _ st1); cbn.
    - by right.
    - reflexivity.
    - apply get_set_eq.
    - unfold recording at 1. cbn. rewrite get_set_eq. cbn. by rewrite Hrec. }
  rewrite bool_decide_true by reflexivity.
  destruct (ctor a) as [[]|m]; cbn -[Recorder.startRecording JsMap.values].
  2:{ apply (StartFailed _ _ _ [] "Failed to start HLS stream"); cbn; try done.
      unfold recording. cbn. rewrite get_set_eq. done. }
  destruct (Recorder.startRecording _ _ _ _) as [[rec es] [u|m]]; cbn.
  - eapply (Started _ _ _ es); cbn; try done.
    + apply get_set_eq.
    + unfold recording. cbn. rewrite get_set_eq. done.
  - eapply (StartFailed _ _ _ es); cbn; try done.
    unfold recording. cbn. rewrite get_set_eq. done.
Qed.

(** C5, as stated, fails: a start-broadcast request on a server with
    no video producer leaves the group Active, with no recorder, and
    still broadcasts "stream live". *)
Lemma stream_live_without_recorder :
  ¬ live_only_when_recording_starts "A" (Some "k") start_ok (initial "/srv/app").
Proof. intros H. vm_compute in H. discriminate H. Qed.

(** ... and so does a request that finds the recorder attached. *)
Example stream_live_again_when_attached :
  ¬ live_only_when_recording_starts "B" (Some "k") start_ok (after ops_live_one).
Proof. intros H. vm_compute in H. discriminate H. Qed.

(** C5, amended.  Every start-broadcast request that is acknowledged
    with success broadcasts "stream live" exactly once, and a request
    answered with an error broadcasts none.  A request is acknowledged
    whenever there is no video producer (the group stays as it was,
    Active or Recording), whenever a recorder is already attached, and
    whenever the group newly becomes Recording; it is answered with an
    error only when a recorder had to be started and could not be. *)
Theorem stream_live_on_every_acknowledged_start
    (id : string) (req : option string) (a : StartArgs) (s : Server) :
  let k := effective_key req (now a) in
  let r := startHLSStream id req a s in
  stream_live_count r.2 = (if acknowledged r.2 then 1 else 0) ∧
  acknowledged r.2 = negb (refused r.2) ∧
  (existsb is_video (JsMap.values (producers s)) = false →
   acknowledged r.2 = true ∧ recording r.1 k = recording s k) ∧
  (recording s k = true → acknowledged r.2 = true) ∧
  (recording s k = false → recording r.1 k = true → acknowledged r.2 = true) ∧
  (refused r.2 = true →
   existsb is_video (JsMap.values (producers s)) = true ∧
   recording s k = false ∧ recording r.1 k = false).
Proof.
  intros k r. subst k r.
  destruct (startHLSStream_ends id req a s)
    as [st Hwhy Hout Hget Hsame | es msg Hvid Hbefore Hout Hafter
        | es st Hvid Hbefore Hout Hget Hafter]; rewrite Hout.
  - cbn. repeat split; try done.
  - rewrite stream_live_count_engine, acknowledged_engine, refused_engine. cbn.
    repeat split; try done; congruence.
  - rewrite stream_live_count_engine, acknowledged_engine, refused_engine. cbn.
    repeat split; try done; congruence.
Qed.

Lemma stream_live_on_every_acknowledged_start_witness :
  existsb is_video (JsMap.values (producers (initial "/srv/app"))) = false ∧
  acknowledged
    (startHLSStream "A" (Some "k") start_ok (initial "/srv/app")).2 = true ∧
  recording (after ops_live_one) "k" = true ∧
  acknowledged
    (startHLSStream "B" (Some "k") start_ok (after ops_live_one)).2 = true ∧
  refused (startHLSStream "A" (Some "k") start_fails (after ops_produce)).2 = true ∧
  recording (startHLSStream "A" (Some "k") start_fails (after ops_produce)).1 "k"
    = false.
Proof.
  split; [reflexivity|].
  split.
  { exact (proj1 (proj1 (proj2 (proj2
      (stream_live_on_every_acknowledged_start "A" (Some "k") start_ok
         (initial "/srv/app")))) eq_refl)). }
  split; [reflexivity|].
  split.
  { exact (proj1 (proj2 (proj2 (proj2
      (stream_live_on_every_acknowledged_start "B" (Some "k") start_ok
         (after ops_live_one))))) eq_refl). }
  split; [reflexivity|].
  exact (proj2 (proj2 (proj2 (proj2 (proj2 (proj2 (proj2
      (stream_live_on_every_acknowledged_start "A" (Some "k") start_fails
         (after ops_produce)))))) eq_refl))).
Defined.

(** *** Disconnect *)

Lemma Forall_engine es : Forall (λ o, ended_or_engine o = true) (map Engine es).
Proof. induction es; constructor; done. Qed.

Lemma stop_recorder_frame ref s :
  producers (stop_recorder ref s).1 = producers s ∧
  consumers (stop_recorder ref s).1 = consumers s ∧
  transports (stop_recorder ref s).1 = transports s ∧
  Forall (λ o, ended_or_engine o = true) (stop_recorder ref s).2.
Proof.
  unfold stop_recorder. destruct (heap s !! ref) as [rec|]; cbn.
  - destruct (Recorder.stopRecording rec) as [rec' es]. cbn.
    repeat split. apply Forall_engine.
  - repeat split. constructor.
Qed.

Lemma leave_frame id k st s :
  producers (leave id k st s).1 = producers s ∧
  consumers (leave id k st s).1 = consumers s ∧
  transports (leave id k st s).1 = transports s ∧
  Forall (λ o, ended_or_engine o = true) (leave id k st s).2.
Proof.
  unfold leave. cbn.
  destruct (recorder st) as [ref|]; [|repeat split; constructor].
  case_bool_decide; [|repeat split; constructor].
  match goal with
  | |- context [stop_recorder ref ?t] =>
      pose proof (stop_recorder_frame ref t) as (Hp & Hc & Ht & Ho);
      destruct (stop_recorder ref t) as [s2 es]
  end.
  cbn in *. repeat split; try done.
  apply Forall_app. split; [exact Ho|]. repeat constructor.
Qed.

Lemma disconnect_walk_frame id l acc :
  producers (foldl (disconnect_visit id) acc l).1 = producers acc.1 ∧
  consumers (foldl (disconnect_visit id) acc l).1 = consumers acc.1 ∧
  transports (foldl (disconnect_visit id) acc l).1 = transports acc.1 ∧
  (Forall (λ o, ended_or_engine o = true) acc.2 →
   Forall (λ o, ended_or_engine o = true) (foldl (disconnect_visit id) acc l).2).
Proof.
  revert acc. induction l as [|k l IH]; intros acc; cbn; [done|].
  destruct (IH (disconnect_visit id acc k)) as (Hp & Hc & Ht & Ho).
  rewrite Hp, Hc, Ht. clear Hp Hc Ht.
  assert (producers (disconnect_visit id acc k).1 = producers acc.1 ∧
          consumers (disconnect_visit id acc k).1 = consumers acc.1 ∧
          transports (disconnect_visit id acc k).1 = transports acc.1 ∧
          (Forall (λ o, ended_or_engine o = true) acc.2 →
           Forall (λ o, ended_or_engine o = true) (disconnect_visit id acc k).2))
    as (Hp & Hc & Ht & Hv).
  { unfold disconnect_visit.
    destruct (JsMap.get k (activeStreams acc.1)) as [st|]; [|done].
    destruct (JsSet.has id (streamers st)); [|done].
    pose proof (leave_frame id k st acc.1) as (Hp & Hc & Ht & Hl).
    destruct (leave id k st acc.1) as [s' out]. cbn in *.
    repeat split; try done. intros Hacc. apply Forall_app. done. }
  repeat split; try done. intros Hacc. apply Ho, Hv, Hacc.
Qed.

Lemma disconnect_registries id s :
  producers (disconnect id s).1 = JsMap.delete id (producers s) ∧
  consumers (disconnect id s).1 = JsMap.delete id (consumers s) ∧
  transports (disconnect id s).1 =
    delete (consumer_key id) (delete (producer_key id) (transports s)) ∧
  Forall (λ o, ended_or_engine o = true) (disconnect id s).2.
Proof.
  unfold disconnect.
  match goal with
  | |- context [foldl (disconnect_visit id) ?acc ?l] =>
      pose proof (disconnect_walk_frame id l acc) as (Hp & Hc & Ht & Ho)
  end.
  cbn in *. rewrite Hp, Hc, Ht. repeat split. apply Ho. constructor.
Qed.

Example consumer_of_B_before :
  consumers (after ops_consume) =
    [("B", {| consumer := {| c_id := "C1"; c_producerId := "P1";
                             c_kind := video; c_paused := true |};
              consumer_Id := "B" |})].
Proof. reflexivity. Qed.

(** C2, as stated, fails: B consumes A's producer P1, A disconnects,
    and B's consumer record for P1 is still in the registry. *)
Lemma dangling_consumer_survives :
  ¬ no_trace_after_disconnect (after ops_consume) "A".
Proof.
  intros (_ & _ & _ & _ & H).
  eapply (H _ "B" _ eq_refl eq_refl). reflexivity.
Qed.

(** C2, amended.  After a client disconnects, no entry keyed by its
    id remains in [transports] (neither role), [producers] or
    [consumers]; the entries of every other client in [producers] and
    [consumers] are exactly what they were, consumer records that
    refer to the disconnected client's producer included. *)
Theorem disconnect_clears_own_entries (s : Server) (id : string) :
  transports (disconnect id s).1 !! producer_key id = None ∧
  transports (disconnect id s).1 !! consumer_key id = None ∧
  JsMap.get id (producers (disconnect id s).1) = None ∧
  JsMap.get id (consumers (disconnect id s).1) = None ∧
  (∀ other, other ≠ id →
     JsMap.get other (producers (disconnect id s).1) =
     JsMap.get other (producers s)) ∧
  (∀ other, other ≠ id →
     JsMap.get other (consumers (disconnect id s).1) =
     JsMap.get other (consumers s)).
Proof.
  destruct (disconnect_registries id s) as (Hp & Hc & Ht & _).
  rewrite Hp, Hc, Ht.
  split.
  { destruct (decide (consumer_key id = producer_key id)) as [He|Hne].
    - rewrite He. apply lookup_delete_eq.
    - rewrite lookup_delete_ne by exact Hne. apply lookup_delete_eq. }
  split; [apply lookup_delete_eq|].
  split; [apply get_delete_eq|].
  split; [apply get_delete_eq|].
  split; intros other Hne; apply get_delete_ne; congruence.
Qed.

(** C3, as stated, fails: A, who produces P1, disconnects and the
    server sends nothing at all. *)
Lemma no_producer_gone_on_disconnect :
  ¬ producer_gone_announced (after ops_consume) "A".
Proof.
  intros H. destruct (H _ eq_refl) as (o & Hin & _).
  replace (disconnect "A" (after ops_consume)).2 with (@nil Output) in Hin
    by reflexivity.
  by apply elem_of_nil in Hin.
Qed.

Example disconnect_of_last_member :
  (disconnect "A" (after ops_live_one)).2 =
    [ Engine (Recorder.Killed {| Recorder.pid := 4242 |});
      Engine (Recorder.ClosedConsumer
                {| c_id := "C9"; c_producerId := "P1"; c_kind := video;
                   c_paused := true |});
      Engine (Recorder.ClosedTransport RecorderTerms.sample_tap);
      IoEmit (StreamEnded "k") ].
Proof. reflexivity. Qed.

(** *** Consume and resume *)

Lemma delete_if_has {V} (k : string) (m : jsmap V) :
  (if JsMap.has k m then JsMap.delete k m else m) = JsMap.delete k m.
Proof.
  unfold JsMap.has. destruct (JsMap.get k m) eqn:Hget; [reflexivity|].
  induction m as [|[k' v'] m IH]; [reflexivity|]. cbn in *.
  destruct (decide (k = k')); [discriminate|]. f_equal. auto.
Qed.

(** C7.  A consume request that names a registered producer for
    which the engine's [canConsume] is false under the capabilities
    the requester declared is answered with an error and adds no
    ConsumerRecord: afterwards the requester has no entry in
    [consumers], and every entry the registry holds was there before. *)
Theorem consume_incompatible_rejected
    (s : Server) (id pid : string) (o : Outcome Created)
    (pd : ProducerData) (caps : RtpCapabilities) (r : Router) :
  find (λ p, bool_decide (producerId p = pid)) (JsMap.values (producers s))
    = Some pd →
  socketCaps s !! id = Some caps →
  router s = Some r →
  canConsume r (p_id (producer pd)) caps = false →
  (consume id pid o s).2 = [Reply (AckError "Error consuming")] ∧
  JsMap.get id (consumers (consume id pid o s).1) = None ∧
  (∀ k d, JsMap.get k (consumers (consume id pid o s).1) = Some d →
          JsMap.get k (consumers s) = Some d) ∧
  producers (consume id pid o s).1 = producers s.
Proof.
  intros Hfind Hcaps Hrouter Hcan.
  assert ((consume id pid o s) =
          (with_consumers (JsMap.delete id (consumers s)) s,
           [Reply (AckError "Error consuming")])) as ->.
  { unfold consume.
    assert ((if JsMap.has id (consumers s)
             then with_consumers (JsMap.delete id (consumers s)) s else s)
            = with_consumers (JsMap.delete id (consumers s)) s) as ->.
    { rewrite <- (delete_if_has id (consumers s)).
      destruct (JsMap.has id (consumers s)); [reflexivity|].
      destruct s; reflexivity. }
    cbn -[JsMap.values].
    destruct (transports s !! consumer_key id); [|reflexivity].
    rewrite Hfind, Hcaps, Hrouter, Hcan. reflexivity. }
  cbn. split; [reflexivity|]. split; [apply get_delete_eq|].
  split; [|reflexivity]. intros k d. apply get_delete_Some.
Qed.

Lemma consume_incompatible_rejected_witness :
  (consume "B" "P1" (Ok {| new_id := "C1"; starts_paused := true |})
     audio_only_viewer).2 = [Reply (AckError "Error consuming")] ∧
  JsMap.get "B"
    (consumers (consume "B" "P1" (Ok {| new_id := "C1"; starts_paused := true |})
                  audio_only_viewer).1) = None.
Proof.
  destruct (consume_incompatible_rejected audio_only_viewer "B" "P1"
              (Ok {| new_id := "C1"; starts_paused := true |})
              {| producer := {| p_id := "P1"; p_kind := video; p_paused := false |};
                 producerId := "P1" |}
              ["audio/opus"] picky_router eq_refl eq_refl eq_refl eq_refl)
    as (Hout & Hnone & _).
  split; [exact Hout | exact Hnone].
Defined.

Lemma has_consumer_id_resume cid d :
  has_consumer_id cid d = true → has_consumer_id cid (resume_data d) = true.
Proof. intros H. exact H. Qed.

(** C10.  [resumeConsumer] looks the consumer id up among the
    records of all clients: whenever some client [owner] holds a
    record for [cid], a resume request for [cid] from any client
    [requester] (the engine's [resume] succeeding) is acknowledged with
    success and un-pauses the first record with that id; the
    requester's id plays no role in the lookup or in the result. *)
Theorem resume_ignores_ownership
    (s : Server) (requester owner cid : string) (d : ConsumerData) :
  (owner, d) ∈ consumers s →
  c_id (consumer d) = cid →
  ∃ d0,
    find (has_consumer_id cid) (JsMap.values (consumers s)) = Some d0 ∧
    c_id (consumer d0) = cid ∧
    (resumeConsumer requester cid (Ok ()) s).2 = [Reply AckSuccess] ∧
    find (has_consumer_id cid)
      (JsMap.values (consumers (resumeConsumer requester cid (Ok ()) s).1))
      = Some (resume_data d0) ∧
    c_paused (consumer (resume_data d0)) = false ∧
    JsMap.keys (consumers (resumeConsumer requester cid (Ok ()) s).1)
      = JsMap.keys (consumers s) ∧
    ∀ other, resumeConsumer other cid (Ok ()) s
             = resumeConsumer requester cid (Ok ()) s.
Proof.
  intros Hin Hcid.
  destruct (find_values_elem_of (has_consumer_id cid) owner d (consumers s) Hin)
    as (d0 & Hfind & Hd0).
  { unfold has_consumer_id. by apply bool_decide_eq_true. }
  exists d0. split; [exact Hfind|].
  split; [by apply bool_decide_eq_true in Hd0|].
  unfold resumeConsumer. rewrite Hfind. cbn.
  split; [reflexivity|].
  split; [apply find_alter_first; [apply has_consumer_id_resume | exact Hfind]|].
  split; [reflexivity|].
  split; [apply keys_alter_first | reflexivity].
Qed.

Lemma resume_ignores_ownership_witness :
  (resumeConsumer "A" "C1" (Ok ()) (after ops_consume)).2 = [Reply AckSuccess] ∧
  consumers (resumeConsumer "A" "C1" (Ok ()) (after ops_consume)).1 =
    [("B", {| consumer := {| c_id := "C1"; c_producerId := "P1";
                             c_kind := video; c_paused := false |};
              consumer_Id := "B" |})].
Proof.
  destruct (resume_ignores_ownership (after ops_consume) "A" "B" "C1"
              {| consumer := {| c_id := "C1"; c_producerId := "P1";
                                c_kind := video; c_paused := true |};
                 consumer_Id := "B" |}
              ltac:(apply elem_of_cons; by left) eq_refl)
    as (d0 & _ & _ & Hout & _).
  split; [exact Hout | reflexivity].
Defined.

(** *** Replies *)

(** C4 is contradicted by the code at the get-capabilities request:
    while the router is not initialised the handler returns without
    calling the acknowledgement callback, and [healthCheck] never
    calls it. *)
Theorem get_capabilities_before_init_never_replies (dir id : string) :
  getRtpCapabilities id (initial dir) = (initial dir, []) ∧
  (∀ m, (run [InitMediasoup (Throw m); FromSocket id GetRtpCapabilities]
           (initial dir)).2 = []) ∧
  (∀ s, healthCheck id s = (s, [])).
Proof. repeat split. Qed.

Lemma reply_count_app o1 o2 :
  reply_count (o1 ++ o2) = reply_count o1 + reply_count o2.
Proof. unfold reply_count. by rewrite List.filter_app, length_app. Qed.

Lemma reply_count_quiet out :
  Forall (λ o, ended_or_engine o = true) out → reply_count out = 0.
Proof.
  induction 1 as [|o out Ho _ IH]; [reflexivity|].
  unfold reply_count in *. cbn. destruct o as [a|e|e|e]; try done.
Qed.

(** A request that arrives without the payload object its handler
    destructures is never answered: the handler throws before its
    [try] block. *)
Lemma request_without_payload_is_not_answered id event s :
  handle id (WithoutPayload event) s = (s, []).
Proof. reflexivity. Qed.

(** All other requests to a handler that acknowledges are answered
    exactly once, on success and on every failure path inside the
    handler's [try] block alike. *)
Lemma acknowledging_handlers_reply_once id req s :
  acknowledging req = true → reply_count (handle id req s).2 = 1.
Proof.
  destruct req; try discriminate; intros _; cbn [handle].
  1-7: cbv beta delta [createProducerTransport createConsumerTransport
         connectProducerTransport connectConsumerTransport produce consume
         resumeConsumer createTransport]; cbn;
       repeat case_match; reflexivity.
  - reflexivity.
  - destruct (startHLSStream_ends id streamId a s)
      as [st _ Hout _ _ | es msg _ _ Hout _ | es st _ _ Hout _ _];
      rewrite Hout, ?reply_count_app, ?(reply_count_quiet _ (Forall_engine _));
      reflexivity.
  - unfold stopHLSStream.
    destruct (JsMap.get streamId (activeStreams s)) as [st|]; [|reflexivity].
    pose proof (leave_frame id streamId st s) as (_ & _ & _ & Hq).
    destruct (leave id streamId st s) as [s' out]. cbn -[reply_count] in *.
    rewrite reply_count_app, (reply_count_quiet _ Hq). reflexivity.
  - reflexivity.
Qed.

(** The capabilities query does reply once the router is there. *)
Lemma get_capabilities_after_init id s r caps :
  router s = Some r → rtpCapabilities r = Some caps →
  getRtpCapabilities id s = (s, [Reply (AckCapabilities caps)]).
Proof. intros Hr Hc. unfold getRtpCapabilities. by rewrite Hr, Hc. Qed.

End SignalingFacts.

(** ** The playback route *)

Module PlaybackFacts.
Import Playback.
Import PlaybackTerms.

Lemma startsWith_app pre rest : NodePath.startsWith pre (pre +:+ rest) = true.
Proof.
  induction pre as [|c pre IH]; [reflexivity|].
  change (String c pre +:+ rest) with (String c (pre +:+ rest)).
  cbn -[bool_decide]. rewrite bool_decide_true by reflexivity. exact IH.
Qed.

Lemma startsWith_trans a b c :
  NodePath.startsWith a b = true → NodePath.startsWith b c = true →
  NodePath.startsWith a c = true.
Proof.
  revert b c. induction a as [|x a IH]; intros b c; [reflexivity|].
  destruct b as [|y b]; [discriminate|]. destruct c as [|z c]; [discriminate|].
  cbn -[bool_decide]. intros [Hxy Hab]%andb_prop [Hyz Hbc]%andb_prop.
  apply bool_decide_eq_true in Hxy, Hyz. subst.
  rewrite bool_decide_true by reflexivity. cbn. eapply IH; eassumption.
Qed.

Lemma startsWith_refl a : NodePath.startsWith a a = true.
Proof.
  induction a as [|x a IH]; [reflexivity|]. cbn -[bool_decide].
  rewrite bool_decide_true by reflexivity. exact IH.
Qed.

(** The check in the handler is the plain string prefix test: it
    lets every path inside the root through ... *)
Lemma inside_passes_check root path :
  inside root path = true → NodePath.startsWith root path = true.
Proof.
  unfold inside. intros [H|H]%orb_prop.
  - apply bool_decide_eq_true in H. subst. apply startsWith_refl.
  - eapply startsWith_trans; [apply startsWith_app | exact H].
Qed.

(** ... so a 403 is only ever given to a path outside the root, and a
    path inside the root that exists is served with its content type
    and with caching disabled. *)
Lemma inside_is_served cwd fs hlsPath :
  let filePath := NodePath.join ([cwd; "public"; "hls"] ++ hlsPath) in
  inside (hlsRoot cwd) filePath = true →
  existsSync fs filePath = true →
  status (handler cwd fs (Segments hlsPath)) = 200%Z ∧
  body (handler cwd fs (Segments hlsPath)) = FileStream filePath ∧
  ("Cache-Control", "no-cache, no-store, must-revalidate")
    ∈ headers (handler cwd fs (Segments hlsPath)) ∧
  (NodePath.extname filePath = ".m3u8" →
   ("Content-Type", "application/vnd.apple.mpegurl")
     ∈ headers (handler cwd fs (Segments hlsPath))) ∧
  (NodePath.extname filePath = ".ts" →
   ("Content-Type", "video/mp2t") ∈ headers (handler cwd fs (Segments hlsPath))).
Proof.
  intros filePath Hin Hex. unfold handler. fold filePath.
  rewrite (inside_passes_check _ _ Hin), Hex. cbn [negb status body headers].
  split; [reflexivity|]. split; [reflexivity|].
  split; [|split].
  - apply elem_of_app. right. apply elem_of_cons. right.
    apply elem_of_cons. by left.
  - intros He. unfold contentType. rewrite He. cbn.
    apply elem_of_cons. by left.
  - intros He. unfold contentType. rewrite He. cbn.
    apply elem_of_cons. by left.
Qed.

Lemma failed_check_is_forbidden cwd fs hlsPath :
  NodePath.startsWith (hlsRoot cwd)
    (NodePath.join ([cwd; "public"; "hls"] ++ hlsPath)) = false →
  handler cwd fs (Segments hlsPath) =
    {| status := 403; headers := []; body := Json "Forbidden" |}.
Proof. intros H. unfold handler. by rewrite H. Qed.

(** C9 is contradicted by the code: the security check compares
    strings, not directories, so a path into a sibling directory whose
    name merely begins with [hls] passes it.  The request below
    resolves to [/srv/app/public/hls_private/secret.ts], outside
    [/srv/app/public/hls], and the file is streamed with status 200. *)
Theorem sibling_directory_is_served :
  NodePath.join (["/srv/app"; "public"; "hls"] ++ escaping)
    = "/srv/app/public/hls_private/secret.ts" ∧
  hlsRoot "/srv/app" = "/srv/app/public/hls" ∧
  inside (hlsRoot "/srv/app")
    (NodePath.join (["/srv/app"; "public"; "hls"] ++ escaping)) = false ∧
  handler "/srv/app" sibling_fs (Segments escaping) =
    {| status := 200;
       headers := [("Content-Type", "video/mp2t");
                   ("Access-Control-Allow-Origin", "*");
                   ("Cache-Control", "no-cache, no-store, must-revalidate");
                   ("Content-Length", "1880")];
       body := FileStream "/srv/app/public/hls_private/secret.ts" |} ∧
  ¬ rejects_outside "/srv/app" sibling_fs escaping.
Proof.
  split; [reflexivity|]. split; [reflexivity|]. split; [reflexivity|].
  split; [reflexivity|].
  intros H. specialize (H eq_refl). vm_compute in H. discriminate H.
Qed.

Example playlist_is_served :
  handler "/srv/app" sibling_fs (Segments ["k"; "playlist.m3u8"]) =
    {| status := 200;
       headers := [("Content-Type", "application/vnd.apple.mpegurl");
                   ("Access-Control-Allow-Origin", "*");
                   ("Cache-Control", "no-cache, no-store, must-revalidate");
                   ("Content-Length", "1880")];
       body := FileStream "/srv/app/public/hls/k/playlist.m3u8" |}.
Proof. reflexivity. Qed.

Example parent_is_forbidden :
  handler "/srv/app" sibling_fs (Segments [".."; ".."; "package.json"]) =
    {| status := 403; headers := []; body := Json "Forbidden" |}.
Proof. reflexivity. Qed.

End PlaybackFacts.

(** ** More laws of the insertion-ordered map *)

Module JsMapMore.
Section Laws.
Context {V : Type}.
Implicit Types (m : jsmap V) (k : string) (v : V).

Lemma key_of_entry k v m : (k, v) ∈ m → k ∈ JsMap.keys m.
Proof.
  intros H. unfold JsMap.keys. change k with (fst (k, v)).
  apply (list_elem_of_fmap_2 fst). exact H.
Qed.

Lemma keys_unique_get k v m :
  NoDup (JsMap.keys m) → (k, v) ∈ m → JsMap.get k m = Some v.
Proof.
  induction m as [|[k' v'] m IH]; cbn; [intros _ H; inversion H|].
  intros [Hnot Hnd]%NoDup_cons [[= -> ->]|Hin]%elem_of_cons.
  - by rewrite decide_True.
  - destruct (decide (k = k')) as [->|Hne]; [|auto].
    exfalso. apply Hnot. eapply key_of_entry. exact Hin.
Qed.

Lemma delete_absent k m : k ∉ JsMap.keys m → JsMap.delete k m = m.
Proof.
  induction m as [|[k' v'] m IH]; cbn; [done|].
  intros Hk. apply not_elem_of_cons in Hk as [Hne Hk].
  rewrite decide_False by exact Hne. f_equal. auto.
Qed.

Lemma key_not_in_delete k m : k ∉ JsMap.keys (JsMap.delete k m).
Proof.
  induction m as [|[k' v'] m IH]; cbn; [apply not_elem_of_nil|].
  destruct (decide (k = k')) as [->|Hne]; [exact IH|].
  cbn. apply not_elem_of_cons. done.
Qed.

Lemma keys_delete_NoDup k m :
  NoDup (JsMap.keys m) → NoDup (JsMap.keys (JsMap.delete k m)).
Proof.
  induction m as [|[k' v'] m IH]; cbn; [done|].
  intros [Hnot Hnd]%NoDup_cons.
  destruct (decide (k = k')) as [->|Hne]; [auto|].
  cbn. apply NoDup_cons. split; [|auto].
  intros Hin. apply Hnot. by apply JsMapFacts.keys_delete in Hin.
Qed.

Lemma keys_set_present k v m :
  k ∈ JsMap.keys m → JsMap.keys (JsMap.set k v m) = JsMap.keys m.
Proof.
  induction m as [|[k' v'] m IH]; cbn; [intros H; inversion H|].
  destruct (decide (k = k')) as [->|Hne]; [done|].
  intros [?|Hin]%elem_of_cons; [done|]. cbn. f_equal. auto.
Qed.

Lemma keys_set_absent k v m :
  k ∉ JsMap.keys m → JsMap.keys (JsMap.set k v m) = JsMap.keys m ++ [k].
Proof.
  induction m as [|[k' v'] m IH]; cbn; [done|].
  intros [Hne Hk]%not_elem_of_cons.
  rewrite decide_False by exact Hne. cbn. f_equal. auto.
Qed.

Lemma keys_set_NoDup k v m :
  NoDup (JsMap.keys m) → NoDup (JsMap.keys (JsMap.set k v m)).
Proof.
  intros Hnd. destruct (decide (k ∈ JsMap.keys m)) as [Hin|Hnot].
  - by rewrite keys_set_present.
  - rewrite keys_set_absent by exact Hnot.
    apply NoDup_app. split; [exact Hnd|]. split; [|apply NoDup_singleton].
    intros x Hx Hx'%list_elem_of_singleton. by subst.
Qed.


Lemma set_set k v w m : JsMap.set k v (JsMap.set k w m) = JsMap.set k v m.
Proof.
  induction m as [|[k' v'] m IH]; cbn.
  - by rewrite decide_True.
  - destruct (decide (k = k')) as [->|Hne]; cbn.
    + by rewrite decide_True.
    + rewrite decide_False by exact Hne. f_equal. exact IH.
Qed.

Lemma entry_of_alter_first (p : V → bool) (f : V → V) m k v :
  (k, v) ∈ JsMap.alter_first p f m →
  (k, v) ∈ m ∨ ∃ v0, (k, v0) ∈ m ∧ v = f v0.
Proof.
  induction m as [|[k' v'] m IH]; cbn; [intros H; inversion H|].
  destruct (p v'); rewrite !elem_of_cons.
  - intros [[= -> ->]|Hin]; [|left; by right].
    right. exists v'. split; [by left | done].
  - intros [Heq|Hin]; [left; by left|].
    destruct (IH Hin) as [?|(v0 & ? & ?)]; [left; by right|].
    right. exists v0. split; [by right | done].
Qed.

Lemma find_none_values (p : V → bool) m :
  (∀ k v, (k, v) ∈ m → p v = false) → find p (JsMap.values m) = None.
Proof.
  induction m as [|[k' v'] m IH]; cbn; [done|].
  intros H. rewrite (H k' v') by (apply elem_of_cons; by left).
  apply IH. intros k v Hin. apply (H k v). apply elem_of_cons. by right.
Qed.

End Laws.
End JsMapMore.

(** ** The per-client registries: transports, producers, consumers *)

Module RegistryFacts.
Import Signaling.
Import SignalingTerms.
Import JsMapFacts.
Import JsMapMore.

(** *** Transport keys *)

Lemma length_append a b :
  String.length (a +:+ b) = String.length a + String.length b.
Proof.
  induction a as [|c a IH]; [done|].
  change (String c a +:+ b) with (String c (a +:+ b)). cbn. by rewrite IH.
Qed.

Lemma append_same_length_inj a b x y :
  a +:+ x = b +:+ y → String.length x = String.length y → a = b ∧ x = y.
Proof.
  revert b. induction a as [|c a IH]; intros [|d b] Heq Hlen.
  - done.
  - exfalso. apply (f_equal String.length) in Heq.
    rewrite !length_append in Heq. cbn in Heq. lia.
  - exfalso. apply (f_equal String.length) in Heq.
    rewrite !length_append in Heq. cbn in Heq. lia.
  - change (String c (a +:+ x) = String d (b +:+ y)) in Heq.
    injection Heq as -> Heq. destruct (IH b Heq Hlen) as [-> ->]. done.
Qed.

Lemma producer_key_inj a b : producer_key a = producer_key b → a = b.
Proof. intros H. by apply append_same_length_inj in H as [-> _]. Qed.

Lemma consumer_key_inj a b : consumer_key a = consumer_key b → a = b.
Proof. intros H. by apply append_same_length_inj in H as [-> _]. Qed.

Lemma producer_key_not_consumer_key a b : producer_key a ≠ consumer_key b.
Proof.
  intros H. apply append_same_length_inj in H as [_ H]; [|reflexivity].
  discriminate H.
Qed.

(** *** What each handler does to its registry *)

Lemma drop_if_has id s :
  (if JsMap.has id (producers s)
   then with_producers (JsMap.delete id (producers s)) s else s)
  = with_producers (JsMap.delete id (producers s)) s.
Proof.
  rewrite <- (SignalingFacts.delete_if_has id (producers s)).
  destruct (JsMap.has id (producers s)); [reflexivity|]. by destruct s.
Qed.

Lemma drop_consumer_if_has id s :
  (if JsMap.has id (consumers s)
   then with_consumers (JsMap.delete id (consumers s)) s else s)
  = with_consumers (JsMap.delete id (consumers s)) s.
Proof.
  rewrite <- (SignalingFacts.delete_if_has id (consumers s)).
  destruct (JsMap.has id (consumers s)); [reflexivity|]. by destruct s.
Qed.

Lemma produce_result id kind o res s :
  produce id kind o res s =
    (with_producers (JsMap.delete id (producers s)) s,
     [Reply (AckError "Error producing")])
  ∨ ∃ cr, o = Ok cr ∧ is_Some (transports s !! producer_key id) ∧
      produce id kind o res s =
        (with_producers
           (JsMap.set id (produced kind cr) (JsMap.delete id (producers s))) s,
         [BroadcastEmit (NewProducer (new_id cr) id);
          Reply (AckProduced (new_id cr))]).
Proof.
  unfold produce. rewrite drop_if_has.
  destruct (transports s !! producer_key id) as [t|] eqn:Ht; [|by left].
  destruct o as [cr|m]; [|by left].
  destruct (starts_paused cr); [destruct res as [[]|m]; [|by left]|];
    right; exists cr; repeat split; by eexists.
Qed.

Lemma consume_result id pid o s :
  consume id pid o s =
    (with_consumers (JsMap.delete id (consumers s)) s,
     [Reply (AckError "Error consuming")])
  ∨ ∃ cr pd caps r,
      o = Ok cr ∧
      is_Some (transports s !! consumer_key id) ∧
      find (λ p, bool_decide (producerId p = pid)) (JsMap.values (producers s))
        = Some pd ∧
      socketCaps s !! id = Some caps ∧ router s = Some r ∧
      canConsume r (p_id (producer pd)) caps = true ∧
      consume id pid o s =
        (with_consumers
           (JsMap.set id (consumed id pd cr) (JsMap.delete id (consumers s))) s,
         [Reply (AckConsumed (new_id cr) pid (p_kind (producer pd)))]).
Proof.
  unfold consume. rewrite drop_consumer_if_has. cbn -[JsMap.values].
  destruct (transports s !! consumer_key id) as [t|] eqn:Ht; [|by left].
  destruct (find _ _) as [pd|] eqn:Hfind; [|by left].
  destruct (socketCaps s !! id) as [caps|] eqn:Hcaps; [|by left].
  destruct (router s) as [r|] eqn:Hr; [|by left].
  destruct (canConsume r (p_id (producer pd)) caps) eqn:Hcan; [|by left].
  destruct o as [cr|m]; [|by left].
  right. exists cr, pd, caps, r. cbn. repeat split; try done; by eexists.
Qed.

(** *** The invariant [registry_ok] *)

Lemma startHLSStream_frame id req a s :
  producers (startHLSStream id req a s).1 = producers s ∧
  consumers (startHLSStream id req a s).1 = consumers s ∧
  transports (startHLSStream id req a s).1 = transports s ∧
  router (startHLSStream id req a s).1 = router s.
Proof.
  unfold startHLSStream.
  destruct (JsMap.get _ _) as [st|]; cbn -[Recorder.startRecording]; [|done].
  destruct (existsb is_video _ && _); cbn -[Recorder.startRecording]; [|done].
  destruct (ctor a); cbn -[Recorder.startRecording]; [|done].
  by destruct (Recorder.startRecording _ _ _ _) as [[rec es] [u|m]].
Qed.

Lemma stopHLSStream_frame id k s :
  producers (stopHLSStream id k s).1 = producers s ∧
  consumers (stopHLSStream id k s).1 = consumers s ∧
  transports (stopHLSStream id k s).1 = transports s.
Proof.
  unfold stopHLSStream.
  destruct (JsMap.get k (activeStreams s)) as [st|]; [|done].
  pose proof (SignalingFacts.leave_frame id k st s) as (Hp & Hc & Ht & _).
  by destruct (leave id k st s) as [s' out].
Qed.

Lemma registry_ok_same s s' :
  producers s' = producers s → consumers s' = consumers s →
  registry_ok s → registry_ok s'.
Proof. intros Hp Hc [? ? ? ?]. split; rewrite ?Hp, ?Hc; assumption. Qed.

Lemma registry_ok_delete id s :
  registry_ok s →
  registry_ok (with_consumers (JsMap.delete id (consumers s))
                 (with_producers (JsMap.delete id (producers s)) s)).
Proof.
  intros [Hpk Hck Hpi Hco]. split; cbn.
  - by apply keys_delete_NoDup.
  - by apply keys_delete_NoDup.
  - intros k d Hin%entry_of_delete. eauto.
  - intros k d Hin%entry_of_delete. eauto.
Qed.

Lemma produce_registry_ok id kind o res s :
  registry_ok s → registry_ok (produce id kind o res s).1.
Proof.
  intros [Hpk Hck Hpi Hco].
  destruct (produce_result id kind o res s) as [->|(cr & _ & _ & ->)];
    split; cbn; try done.
  - by apply keys_delete_NoDup.
  - intros k d Hin%entry_of_delete. eauto.
  - by apply keys_set_NoDup, keys_delete_NoDup.
  - intros k d [[= -> ->]|Hin%entry_of_delete]%entry_of_set; [done | eauto].
Qed.

Lemma consume_registry_ok id pid o s :
  registry_ok s → registry_ok (consume id pid o s).1.
Proof.
  intros [Hpk Hck Hpi Hco].
  destruct (consume_result id pid o s)
    as [->|(cr & pd & caps & r & _ & _ & _ & _ & _ & _ & ->)];
    split; cbn; try done.
  - by apply keys_delete_NoDup.
  - intros k d Hin%entry_of_delete. eauto.
  - by apply keys_set_NoDup, keys_delete_NoDup.
  - intros k d [[= -> ->]|Hin%entry_of_delete]%entry_of_set; [done | eauto].
Qed.

Lemma resumeConsumer_registry_ok id cid o s :
  registry_ok s → registry_ok (resumeConsumer id cid o s).1.
Proof.
  intros [Hpk Hck Hpi Hco]. unfold resumeConsumer.
  destruct (find _ _); [|by split]. destruct o; [|by split].
  split; cbn -[JsMap.keys]; try done.
  - by rewrite keys_alter_first.
  - intros k d [Hin|(d0 & Hin & ->)]%entry_of_alter_first; [eauto|].
    cbn. eauto.
Qed.

Ltac same_registries :=
  intros; cbv beta delta [healthCheck getRtpCapabilities
    createProducerTransport createConsumerTransport
    connectProducerTransport connectConsumerTransport
    getProducers setRtpCapabilities getActiveStreams createTransport];
  cbn; repeat case_match; reflexivity.

Lemma step_registry_ok op s : registry_ok s → registry_ok (step op s).1.
Proof.
  intros Hs. destruct op as [[r|m]|id req|ref cb]; cbn [step]; try exact Hs.
  - revert Hs. apply registry_ok_same; reflexivity.
  - destruct req; cbn [handle];
      try (apply (registry_ok_same s); [same_registries | same_registries | exact Hs]).
    + by apply produce_registry_ok.
    + by apply consume_registry_ok.
    + by apply resumeConsumer_registry_ok.
    + destruct (startHLSStream_frame id streamId a s) as (Hp & Hc & _).
      by apply (registry_ok_same s).
    + destruct (stopHLSStream_frame id streamId s) as (Hp & Hc & _).
      by apply (registry_ok_same s).
    + destruct (SignalingFacts.disconnect_registries id s) as (Hp & Hc & _).
      apply (registry_ok_same (with_consumers (JsMap.delete id (consumers s))
               (with_producers (JsMap.delete id (producers s)) s)));
        [exact Hp | exact Hc | by apply registry_ok_delete].
  - destruct (heap s !! ref); [|exact Hs].
    destruct (recorder_callback cb _). revert Hs.
    apply registry_ok_same; reflexivity.
Qed.

Lemma run_registry_ok ops s : registry_ok s → registry_ok (run ops s).1.
Proof.
  revert s. induction ops as [|op ops IH]; intros s Hs; [exact Hs|].
  rewrite SignalingFacts.run_cons. apply IH, step_registry_ok, Hs.
Qed.

Lemma registry_of_reachable s : reachable s → registry_ok s.
Proof.
  intros (dir & ops & <-). apply run_registry_ok.
  split; cbn; try apply NoDup_nil_2; intros k d H; inversion H.
Qed.

(** X1.  In every state the server can reach, the two per-client
    registries are well formed: [producers] and [consumers] hold at most
    one entry per client, the [producerId] stored beside a producer is
    that producer's id, and the [consumer_Id] stored beside a consumer
    is the client the entry is filed under. *)
Theorem reachable_registry_ok (s : Server) : reachable s → registry_ok s.
Proof.
  intros (dir & ops & <-). apply run_registry_ok.
  split; cbn; try apply NoDup_nil_2; intros k d H; inversion H.
Qed.

Lemma reachable_registry_ok_witness : registry_ok (after ops_consume).
Proof. exact (reachable_registry_ok _ (SignalingFacts.after_reachable _)). Defined.

(** *** Transports *)

Lemma delete_if_present (k : string) (m : gmap string Transport) :
  (if bool_decide (is_Some (m !! k)) then delete k m else m) = delete k m.
Proof.
  case_bool_decide as H; [done|]. symmetry. apply delete_id.
  by apply eq_None_not_Some.
Qed.

(** X2.  [createProducerTransport] and [createConsumerTransport] only
    ever touch the caller's own key for that role.  On success the key
    maps to the new transport and the reply carries it; on failure
    (router missing, or the engine call throws) the reply is an error
    and the key is left empty, a transport registered before being
    dropped either way.  The transports of every other client, and the
    caller's transport of the other role, stay as they were: the keys
    [id-producer] and [id-consumer] of different clients or roles never
    coincide. *)
Theorem create_transport_touches_own_key_only
    (s : Server) (id : string) (o : Outcome Transport) :
  (match createTransport (router s) o with
   | Ok t =>
       createProducerTransport id o s =
         (with_transports (<[producer_key id := t]> (transports s)) s,
          [Reply (AckTransport t)]) ∧
       createConsumerTransport id o s =
         (with_transports (<[consumer_key id := t]> (transports s)) s,
          [Reply (AckTransport t)])
   | Throw _ =>
       createProducerTransport id o s =
         (with_transports (delete (producer_key id) (transports s)) s,
          [Reply (AckError "Error creating producer transport")]) ∧
       createConsumerTransport id o s =
         (with_transports (delete (consumer_key id) (transports s)) s,
          [Reply (AckError "Error creating consumer transport")])
   end) ∧
  (∀ other,
     other ≠ id →
     transports (createProducerTransport id o s).1 !! producer_key other
       = transports s !! producer_key other ∧
     transports (createConsumerTransport id o s).1 !! consumer_key other
       = transports s !! consumer_key other) ∧
  (∀ other,
     transports (createProducerTransport id o s).1 !! consumer_key other
       = transports s !! consumer_key other ∧
     transports (createConsumerTransport id o s).1 !! producer_key other
       = transports s !! producer_key other).
Proof.
  unfold createProducerTransport, createConsumerTransport.
  rewrite !delete_if_present.
  assert (∀ a b, a ≠ b → producer_key b ≠ producer_key a) as Hpp.
  { intros a b Hab H%producer_key_inj. by subst. }
  assert (∀ a b, a ≠ b → consumer_key b ≠ consumer_key a) as Hcc.
  { intros a b Hab H%consumer_key_inj. by subst. }
  assert (∀ a b, consumer_key a ≠ producer_key b) as Hcp.
  { intros a b H. by apply (producer_key_not_consumer_key b a). }
  destruct (createTransport (router s) o) as [t|m]; cbn.
  - rewrite !insert_delete_eq. split; [done|].
    split; intros other; [intros Hne|].
    + rewrite !lookup_insert_ne by auto. done.
    + rewrite !lookup_insert_ne; [done | apply Hcp |
        apply producer_key_not_consumer_key].
  - split; [done|]. split; intros other; [intros Hne|].
    + rewrite !lookup_delete_ne by auto. done.
    + rewrite !lookup_delete_ne; [done | apply Hcp |
        apply producer_key_not_consumer_key].
Qed.

(** X3.  Calls out of protocol order are refused.  A client that has
    no producer transport gets an error from [connectProducerTransport]
    and from [produce]; a client that has no consumer transport gets an
    error from [connectConsumerTransport] and from [consume]; none of
    these registers a producer or a consumer for the client.  After its
    disconnect a client id is in exactly that position for both roles. *)
Theorem out_of_order_requests_refused (s : Server) (id : string) :
  (transports s !! producer_key id = None →
   (∀ o, connectProducerTransport id o s =
           (s, [Reply (AckError "Error connecting producer transport")])) ∧
   (∀ kind o res,
      (produce id kind o res s).2 = [Reply (AckError "Error producing")] ∧
      JsMap.get id (producers (produce id kind o res s).1) = None)) ∧
  (transports s !! consumer_key id = None →
   (∀ o, connectConsumerTransport id o s =
           (s, [Reply (AckError "Error connecting consumer transport")])) ∧
   (∀ pid o,
      (consume id pid o s).2 = [Reply (AckError "Error consuming")] ∧
      JsMap.get id (consumers (consume id pid o s).1) = None)) ∧
  transports (disconnect id s).1 !! producer_key id = None ∧
  transports (disconnect id s).1 !! consumer_key id = None.
Proof.
  split; [|split].
  - intros Hnone. split.
    + intros o. unfold connectProducerTransport. by rewrite Hnone.
    + intros kind o res.
      destruct (produce_result id kind o res s) as [->|(cr & _ & [t Ht] & _)].
      * split; [done|]. apply get_delete_eq.
      * congruence.
  - intros Hnone. split.
    + intros o. unfold connectConsumerTransport. by rewrite Hnone.
    + intros pid o.
      destruct (consume_result id pid o s)
        as [->|(cr & pd & caps & r & _ & [t Ht] & _)].
      * split; [done|]. apply get_delete_eq.
      * congruence.
  - destruct (SignalingFacts.disconnect_registries id s) as (_ & _ & -> & _).
    split.
    + rewrite lookup_delete_ne by apply not_eq_sym, producer_key_not_consumer_key.
      apply lookup_delete_eq.
    + apply lookup_delete_eq.
Qed.

Lemma out_of_order_requests_refused_witness :
  (produce "Z" video (Ok {| new_id := "P7"; starts_paused := false |}) (Ok ())
     (after ops_consume)).2 = [Reply (AckError "Error producing")] ∧
  (consume "A" "P1" (Ok {| new_id := "C7"; starts_paused := false |})
     (after ops_consume)).2 = [Reply (AckError "Error consuming")].
Proof.
  destruct (out_of_order_requests_refused (after ops_consume) "Z")
    as (Hprod & _).
  destruct (out_of_order_requests_refused (after ops_consume) "A")
    as (_ & Hcons & _).
  split.
  - exact (proj1 (proj2 (Hprod eq_refl) _ _ _)).
  - exact (proj1 (proj2 (Hcons eq_refl) _ _)).
Defined.

(** *** Producers *)

(** X4.  After a [produce] request the caller's entry in [producers]
    is never the one from before: either the request failed (error
    reply, nothing announced) and the caller has no entry at all, or it
    succeeded, the entry is the new producer, the reply carries its id
    and the new producer is announced to the other sockets only.  The
    entries of all other clients are unchanged. *)
Theorem produce_replaces_entry
    (s : Server) (id : string) (kind : MediaKind) (o : Outcome Created)
    (res : Outcome unit) :
  (((produce id kind o res s).2 = [Reply (AckError "Error producing")] ∧
    JsMap.get id (producers (produce id kind o res s).1) = None)
   ∨ ∃ cr, o = Ok cr ∧
       (produce id kind o res s).2 =
         [BroadcastEmit (NewProducer (new_id cr) id);
          Reply (AckProduced (new_id cr))] ∧
       JsMap.get id (producers (produce id kind o res s).1)
         = Some (produced kind cr)) ∧
  (∀ other, other ≠ id →
     JsMap.get other (producers (produce id kind o res s).1)
       = JsMap.get other (producers s)).
Proof.
  destruct (produce_result id kind o res s) as [->|(cr & Ho & _ & ->)]; cbn.
  - split; [left; split; [done | apply get_delete_eq]|].
    intros other Hne. apply get_delete_ne. congruence.
  - split.
    + right. exists cr. split; [done|]. split; [done | apply get_set_eq].
    + intros other Hne. rewrite get_set_ne by congruence.
      apply get_delete_ne. congruence.
Qed.

(** X5.  In every reachable state, the list [getProducers] returns
    never contains an entry of the caller; each entry it contains is the
    producer id and the socket id of another client's registered
    producer; and it contains every other client's producer whose id
    differs from the id of the caller's own producer. *)
Theorem get_producers_lists_the_others (s : Server) (id : string) :
  reachable s →
  ∃ l,
    getProducers id s = (s, [Reply (AckProducerList l)]) ∧
    (∀ pid sid, (pid, sid) ∈ l →
       sid ≠ id ∧
       ∃ d, JsMap.get sid (producers s) = Some d ∧ producerId d = pid) ∧
    (∀ sid d,
       sid ≠ id → JsMap.get sid (producers s) = Some d →
       (∀ own, JsMap.get id (producers s) = Some own →
               producerId d ≠ producerId own) →
       (producerId d, sid) ∈ l).
Proof.
  intros [Hpk _ _ _]%registry_of_reachable.
  eexists. split; [reflexivity|]. split.
  - intros pid sid Hin.
    apply list_elem_of_fmap in Hin as ([k d] & [= -> ->] & Hin).
    apply list_elem_of_filter in Hin as [Hkeep Hin]. cbn in *.
    pose proof (keys_unique_get _ _ _ Hpk Hin) as Hget.
    split; [|by exists d].
    intros ->. apply Hkeep. by rewrite Hget.
  - intros sid d Hne Hget Hown.
    apply list_elem_of_fmap. exists (sid, d). split; [done|].
    apply list_elem_of_filter. split; [|by apply get_elem_of].
    cbn. destruct (JsMap.get id (producers s)) as [own|] eqn:Hid; cbn; [|done].
    intros [= Heq]. by apply (Hown own).
Qed.

Lemma get_producers_lists_the_others_witness :
  (getProducers "B" (after ops_consume)).2 =
    [Reply (AckProducerList [("P1", "A")])] ∧
  (getProducers "A" (after ops_consume)).2 = [Reply (AckProducerList [])].
Proof.
  destruct (get_producers_lists_the_others (after ops_consume) "B"
              (SignalingFacts.after_reachable _)) as (l & _ & _).
  split; vm_compute; reflexivity.
Defined.

(** X6.  Produce, then list: once a client's [produce] has been
    acknowledged in a reachable state, [getProducers] asked by any other
    client lists the new producer under the producing client's socket
    id (unless that other client's own producer has the very same id). *)
Theorem produced_is_listed_to_others
    (s : Server) (id other : string) (kind : MediaKind) (cr : Created)
    (res : Outcome unit) :
  reachable s →
  (produce id kind (Ok cr) res s).2 =
    [BroadcastEmit (NewProducer (new_id cr) id); Reply (AckProduced (new_id cr))] →
  other ≠ id →
  (∀ own, JsMap.get other (producers s) = Some own → producerId own ≠ new_id cr) →
  ∃ l,
    getProducers other (produce id kind (Ok cr) res s).1
      = ((produce id kind (Ok cr) res s).1, [Reply (AckProducerList l)]) ∧
    (new_id cr, id) ∈ l.
Proof.
  intros Hreach Hout Hne Hown.
  destruct (produce_result id kind (Ok cr) res s)
    as [Herr|(cr' & [= <-] & _ & Hok)]; [rewrite Herr in Hout; discriminate|].
  rewrite Hok. cbn [fst snd].
  eexists. split; [reflexivity|].
  apply list_elem_of_fmap. exists (id, produced kind cr). split; [done|].
  apply list_elem_of_filter. split; [|apply get_elem_of, get_set_eq].
  cbn. rewrite get_set_ne, get_delete_ne by congruence.
  destruct (JsMap.get other (producers s)) as [own|] eqn:Ho; cbn; [|done].
  intros [= Heq]. by apply (Hown own).
Qed.

Lemma produced_is_listed_to_others_witness :
  ∃ l,
    getProducers "B"
      (produce "A" video (Ok {| new_id := "P2"; starts_paused := false |})
         (Ok ()) (after ops_consume)).1
    = ((produce "A" video (Ok {| new_id := "P2"; starts_paused := false |})
          (Ok ()) (after ops_consume)).1, [Reply (AckProducerList l)]) ∧
    ("P2", "A") ∈ l.
Proof.
  apply (produced_is_listed_to_others (after ops_consume) "A" "B" video
           {| new_id := "P2"; starts_paused := false |} (Ok ())
           (SignalingFacts.after_reachable _) eq_refl).
  - discriminate.
  - intros own [=].
Defined.

(** *** Consumers *)

(** X7.  The registry remembers one consumer per client.  Whenever a
    client sends a consume request, the record it had before is dropped
    at once, whether or not the request succeeds; so if the consumer id
    [c1] was known only under that client, a later [resumeConsumer] for
    [c1], from anybody, is refused (unless the new consumer happens to
    carry the same id). *)
Theorem consume_forgets_earlier_consumer
    (s : Server) (id pid c1 : string) (o : Outcome Created) :
  (∀ k d, (k, d) ∈ consumers s → c_id (consumer d) = c1 → k = id) →
  (∀ cr, o = Ok cr → new_id cr ≠ c1) →
  ∀ who r,
    (resumeConsumer who c1 r (consume id pid o s).1).2
      = [Reply (AckError "Error resuming consumer")].
Proof.
  intros Honly Hnew who r.
  assert (find (has_consumer_id c1)
            (JsMap.values (consumers (consume id pid o s).1)) = None) as Hnone.
  { apply find_none_values. intros k d Hin.
    unfold has_consumer_id. apply bool_decide_eq_false. intros Hc1.
    assert ((k, d) ∈ JsMap.delete id (consumers s) → False) as Hold.
    { intros Hd. pose proof (entry_of_delete _ _ _ Hd) as Hin0.
      pose proof (Honly _ _ Hin0 Hc1) as ->.
      apply (key_not_in_delete id (consumers s)).
      eapply key_of_entry. exact Hd. }
    destruct (consume_result id pid o s)
      as [Heq|(cr & pd & caps & rt & Ho & _ & _ & _ & _ & _ & Heq)];
      rewrite Heq in Hin; cbn in Hin.
    - by apply Hold.
    - apply entry_of_set in Hin as [[= -> ->]|Hin]; [|by apply Hold].
      cbn in Hc1. by apply (Hnew cr). }
  unfold resumeConsumer. by rewrite Hnone.
Qed.

Lemma consume_forgets_earlier_consumer_witness :
  (resumeConsumer "B" "C1" (Ok ())
     (consume "B" "P1" (Ok {| new_id := "C2"; starts_paused := true |})
        (after ops_consume)).1).2
  = [Reply (AckError "Error resuming consumer")].
Proof.
  apply (consume_forgets_earlier_consumer (after ops_consume) "B" "P1" "C1").
  - intros k d Hin _. apply list_elem_of_singleton in Hin. congruence.
  - intros cr [= <-]. discriminate.
Defined.

End RegistryFacts.

(** ** The recording bridge: start-up *)

Module RecorderStartFacts.
Import Recorder.
Import RecorderTerms.

Lemma first_video_exists ps :
  existsb is_video (JsMap.values ps) = true → ∃ pd, first_video ps = Some pd.
Proof.
  unfold first_video. induction (JsMap.values ps) as [|p l IH]; [done|].
  cbn [existsb]. destruct (is_video p) eqn:Hp.
  - intros _. exists p. by rewrite filter_cons_True.
  - rewrite filter_cons_False by (rewrite Hp; discriminate). exact IH.
Qed.

Lemma first_video_is_video ps pd :
  first_video ps = Some pd → p_kind (producer pd) = video.
Proof.
  unfold first_video. intros H.
  assert (pd ∈ filter (λ p, is_video p = true) (JsMap.values ps)) as Hin.
  { destruct (filter _ _) as [|x l]; [done|]. injection H as ->.
    apply elem_of_cons. by left. }
  apply list_elem_of_filter in Hin as [Hv _].
  unfold is_video in Hv. by apply bool_decide_eq_true in Hv.
Qed.

Lemma startRecording_success router ps o rec r es u :
  isRecording rec = false →
  startRecording router ps o rec = (r, es, Ok u) →
  ∃ pd t cr p,
    first_video ps = Some pd ∧ router ≠ None ∧
    so_transport o = Ok t ∧ so_consumer o = Ok cr ∧ so_spawn o = Ok p ∧
    r = with_ffmpegProcess (Some p)
          (with_consumer (Some (tap_consumer pd cr))
             (with_transport (Some t) rec)) ∧
    es = start_effects rec t (tap_consumer pd cr) p.
Proof.
  intros Hidle. unfold startRecording. rewrite Hidle.
  destruct (startRecording_try router ps o rec) as [[mid es0] res] eqn:Htry.
  destruct res as [u'|m]; [|by destruct (cleanup mid)].
  intros [= <- <- <-].
  unfold startRecording_try, first_video in *.
  destruct (filter _ _) as [|pd l]; [done|].
  destruct router as [rt|]; [|done].
  destruct (so_transport o) as [t|]; [|done].
  destruct (so_consumer o) as [cr|]; [|done].
  destruct (so_spawn o) as [p|]; [|done].
  injection Htry as <- <- _.
  by exists pd, t, cr, p.
Qed.

Lemma startRecording_fresh rt ps pd t cr p rec :
  isRecording rec = false → first_video ps = Some pd →
  startRecording (Some rt) ps
    {| so_transport := Ok t; so_consumer := Ok cr; so_spawn := Ok p |} rec
  = (with_ffmpegProcess (Some p)
       (with_consumer (Some (tap_consumer pd cr)) (with_transport (Some t) rec)),
     start_effects rec t (tap_consumer pd cr) p, Ok ()).
Proof.
  intros Hidle Hfirst. unfold startRecording. rewrite Hidle.
  unfold startRecording_try, first_video in *.
  destruct (filter _ _) as [|pd' l]; [done|]. by injection Hfirst as ->.
Qed.

(** X12.  A [startRecording] that succeeds on a recorder that is not
    yet recording taps the first video producer in the order of the
    [producers] map: it creates one plain transport, one consumer for
    that producer, paused, and one subprocess reading RTP from the
    transport's own local port and writing [playlist.m3u8] under the
    recorder's output directory, then sets the 3000 ms timer.  The
    recorder holds all three handles afterwards and is not active yet. *)
Theorem start_taps_first_video_producer
    (router : option Router) (ps : jsmap ProducerData) (o : StartOutcomes)
    (rec r : HLSRecorderV2) (es : list Effect) (u : unit) :
  isRecording rec = false →
  startRecording router ps o rec = (r, es, Ok u) →
  ∃ pd t cr p,
    first_video ps = Some pd ∧ p_kind (producer pd) = video ∧
    transport r = Some t ∧
    consumer r = Some (tap_consumer pd cr) ∧
    ffmpegProcess r = Some p ∧
    isActive r = false ∧
    outputPath r = outputPath rec ∧ streamKey r = streamKey rec ∧
    es = start_effects rec t (tap_consumer pd cr) p.
Proof.
  intros Hidle Hstart.
  destruct (startRecording_success _ _ _ _ _ _ _ Hidle Hstart)
    as (pd & t & cr & p & Hfirst & _ & _ & _ & _ & -> & ->).
  exists pd, t, cr, p. repeat split; try done.
  by eapply first_video_is_video.
Qed.

Lemma start_taps_first_video_producer_witness :
  ∃ pd t cr p,
    first_video [("A", sample_camera)] = Some pd ∧
    p_kind (producer pd) = video ∧
    transport sample_started = Some t ∧
    consumer sample_started = Some (tap_consumer pd cr) ∧
    ffmpegProcess sample_started = Some p ∧
    isActive sample_started = false ∧
    outputPath sample_started = outputPath (new "/srv/app" "k") ∧
    streamKey sample_started = streamKey (new "/srv/app" "k") ∧
    start_effects (new "/srv/app" "k") sample_tap
      (tap_consumer sample_camera {| new_id := "C9"; starts_paused := true |})
      {| pid := 4242 |}
    = start_effects (new "/srv/app" "k") t (tap_consumer pd cr) p.
Proof.
  exact (start_taps_first_video_producer (Some sample_router)
           [("A", sample_camera)] all_succeed (new "/srv/app" "k")
           sample_started _ () eq_refl eq_refl).
Defined.

Example audio_producers_are_skipped :
  first_video
    [("A", {| producer := {| p_id := "P1"; p_kind := audio; p_paused := false |};
              producerId := "P1" |});
     ("B", {| producer := {| p_id := "P2"; p_kind := video; p_paused := false |};
              producerId := "P2" |});
     ("C", {| producer := {| p_id := "P3"; p_kind := video; p_paused := false |};
              producerId := "P3" |})]
  = Some {| producer := {| p_id := "P2"; p_kind := video; p_paused := false |};
            producerId := "P2" |}.
Proof. reflexivity. Qed.

(** X13.  The timer callback resumes the tap consumer only after it
    has connected the tap transport, and to that transport's own local
    port: whenever [delayedSetup] resumes a consumer, the connect call
    had succeeded, what it did is exactly connect-then-resume, the
    recorder's consumer is the un-paused one and the recorder is active.
    In every other case the recorder ends up stopped and inactive. *)
Theorem resume_only_after_connect
    (connect resume : Outcome unit) (r : HLSRecorderV2) :
  (∀ c, Resumed c ∈ (delayedSetup connect resume r).2 →
     ∃ t, transport r = Some t ∧ consumer r = Some c ∧
          connect = Ok () ∧ resume = Ok () ∧
          (delayedSetup connect resume r).2 =
            [Connected t (localPort t); Resumed c] ∧
          consumer (delayedSetup connect resume r).1 = Some (resumed c) ∧
          isActive (delayedSetup connect resume r).1 = true) ∧
  ((∀ c, Resumed c ∉ (delayedSetup connect resume r).2) →
   stopped (delayedSetup connect resume r).1).
Proof.
  destruct (RecorderFacts.cleanup_spec r) as [Hstop Hrel].
  assert (∀ c pre, Resumed c ∈ pre ++ (cleanup r).2 → Resumed c ∈ pre) as Hno.
  { intros c pre [H|H]%elem_of_app; [done|]. rewrite Hrel in H.
    by apply RecorderFacts.releases_are_releases in H. }
  unfold delayedSetup, stopRecording.
  destruct (transport r) as [t|] eqn:Ht.
  2:{ split; [|done]. intros c Hin. apply (Hno c []) in Hin. inversion Hin. }
  destruct connect as [[]|m].
  2:{ split; [|done]. intros c Hin. apply (Hno c []) in Hin. inversion Hin. }
  destruct (consumer r) as [c0|] eqn:Hc.
  - destruct resume as [[]|m].
    + split.
      * intros c Hin. exists t.
        apply elem_of_cons in Hin as [[=]|Hin].
        apply list_elem_of_singleton in Hin as [= ->]. done.
      * intros Hnone. exfalso. apply (Hnone c0). cbn.
        apply elem_of_cons. right. apply elem_of_cons. by left.
    + destruct (cleanup r) as [r' es']. cbn in *. split; [|done].
      intros c Hin. apply (Hno c [Connected t (localPort t)]) in Hin.
      apply list_elem_of_singleton in Hin. done.
  - destruct (cleanup r) as [r' es']. cbn in *. split; [|done].
    intros c Hin. apply (Hno c [Connected t (localPort t)]) in Hin.
    apply list_elem_of_singleton in Hin. done.
Qed.

Example timer_after_start :
  delayedSetup (Ok ()) (Ok ()) sample_started =
    (with_isRecording true
       (with_consumer
          (Some {| c_id := "C9"; c_producerId := "P1"; c_kind := video;
                   c_paused := false |}) sample_started),
     [Connected sample_tap 40000;
      Resumed {| c_id := "C9"; c_producerId := "P1"; c_kind := video;
                 c_paused := true |}]).
Proof. reflexivity. Qed.

End RecorderStartFacts.

(** ** Broadcast groups *)

Module StreamFacts.
Import Signaling.
Import SignalingTerms.
Import JsMapFacts.
Import JsMapMore.

(** *** The member sets *)

Lemma add_NoDup x s : NoDup s → NoDup (JsSet.add x s).
Proof.
  intros Hs. unfold JsSet.add, JsSet.has. case_bool_decide as Hin; [done|].
  apply NoDup_app. split; [done|]. split; [|apply NoDup_singleton].
  intros y Hy Hy'%list_elem_of_singleton. by subst.
Qed.

Lemma delete_NoDup x s : NoDup s → NoDup (JsSet.delete x s).
Proof.
  induction s as [|y s IH]; cbn; [done|].
  intros [Hnot Hnd]%NoDup_cons. destruct (decide (x = y)); [auto|].
  apply NoDup_cons. split; [|auto].
  intros Hin%JsSetFacts.elem_of_delete. by destruct Hin.
Qed.


Lemma add_nonempty x s : JsSet.add x s ≠ [].
Proof.
  unfold JsSet.add, JsSet.has. case_bool_decide as Hin.
  - intros ->. inversion Hin.
  - intros H. by apply app_nil in H as [_ ?].
Qed.

Lemma add_member x s : x ∈ JsSet.add x s.
Proof. apply JsSetFacts.elem_of_add. by left. Qed.

(** *** What [startHLSStream] and [leave] do to the state, exactly *)

Lemma delete_set {V} (k : string) (v : V) (m : jsmap V) :
  JsMap.delete k (JsMap.set k v m) = JsMap.delete k m.
Proof.
  induction m as [|[k' v'] m IH]; cbn.
  - by rewrite decide_True.
  - destruct (decide (k = k')) as [->|Hne]; cbn.
    + by rewrite decide_True.
    + rewrite decide_False by done. f_equal. exact IH.
Qed.

Lemma startHLSStream_unfold id req a s :
  startHLSStream id req a s =
    (let k := effective_key req (now a) in
     let st1 := joined id k s in
     let s1 := with_activeStreams (JsMap.set k st1 (activeStreams s)) s in
     if existsb is_video (JsMap.values (producers s)) &&
        bool_decide (recorder st1 = None)
     then
       match ctor a with
       | Throw _ => (s1, [Reply (AckError "Failed to start HLS stream")])
       | Ok _ =>
           match Recorder.startRecording (router s) (producers s) (start a)
                   (Recorder.new (cwd s) k) with
           | (rec, es, Throw m) =>
               (with_heap (heap s ++ [rec]) s1,
                map Engine es ++
                [Reply (AckError ("Failed to start HLS recording: Error: " +:+ m))])
           | (rec, es, Ok _) =>
               let st2 := {| streamers := streamers st1;
                             recorder := Some (length (heap s)) |} in
               let s2 :=
                 with_hlsRecorders (<[k := length (heap s)]> (hlsRecorders s))
                   (with_activeStreams (JsMap.set k st2 (activeStreams s))
                      (with_heap (heap s ++ [rec]) s)) in
               (s2, map Engine es ++ announce k st2 s2)
           end
       end
     else (s1, announce k st1 s1)).
Proof.
  unfold startHLSStream, joined, JsMap.has.
  set (k := effective_key req (now a)).
  destruct (JsMap.get k (activeStreams s)) as [st0|] eqn:Hget; cbn zeta.
  - rewrite Hget. cbn -[Recorder.startRecording JsMap.values JsMap.set].
    destruct (existsb is_video _ && _); [|done].
    destruct (ctor a); [|done].
    destruct (Recorder.startRecording _ _ _ _) as [[rec es] [u|m]]; [|done].
    cbn -[JsMap.set]. by rewrite ?(@set_set StreamEntry).
  - rewrite get_set_eq. cbn -[Recorder.startRecording JsMap.values JsMap.set].
    rewrite !(@set_set StreamEntry).
    destruct (existsb is_video _ && _); [|done].
    destruct (ctor a); [|done].
    destruct (Recorder.startRecording _ _ _ _) as [[rec es] [u|m]]; [|done].
    cbn -[JsMap.set]. by rewrite ?(@set_set StreamEntry).
Qed.

Lemma leave_unfold id k st s :
  leave id k st s =
    match recorder st with
    | Some ref =>
        if bool_decide (JsSet.delete id (streamers st) = [])
        then
          (with_activeStreams (JsMap.delete k (activeStreams s))
             (with_hlsRecorders (delete k (hlsRecorders s))
                (stop_recorder ref s).1),
           (stop_recorder ref s).2 ++ [IoEmit (StreamEnded k)])
        else (with_activeStreams (JsMap.set k (left_by id st) (activeStreams s)) s, [])
    | None => (with_activeStreams (JsMap.set k (left_by id st) (activeStreams s)) s, [])
    end.
Proof.
  unfold leave, left_by, JsSet.size. cbn -[JsMap.set JsMap.delete].
  destruct (recorder st) as [ref|]; [|done].
  destruct (JsSet.delete id (streamers st)) as [|x l] eqn:Hd.
  - rewrite !bool_decide_true by done. unfold stop_recorder.
    cbn -[JsMap.set JsMap.delete].
    destruct (heap s !! ref) as [rec|]; cbn -[JsMap.set JsMap.delete].
    + destruct (Recorder.stopRecording rec) as [rec' es].
      cbn -[JsMap.set JsMap.delete]. by rewrite ?(@delete_set StreamEntry).
    + by rewrite ?(@delete_set StreamEntry).
  - rewrite !bool_decide_false by done. done.
Qed.

(** *** The invariant [streams_ok] *)

Lemma get_set_cases {V} (k k0 : string) (v : V) (m : jsmap V) :
  JsMap.get k0 (JsMap.set k v m) = if decide (k = k0) then Some v else JsMap.get k0 m.
Proof.
  destruct (decide (k = k0)) as [->|Hne];
    [apply get_set_eq | by apply get_set_ne].
Qed.

Lemma get_delete_cases {V} (k k0 : string) (m : jsmap V) :
  JsMap.get k0 (JsMap.delete k m) = if decide (k = k0) then None else JsMap.get k0 m.
Proof.
  destruct (decide (k = k0)) as [->|Hne];
    [apply get_delete_eq | by apply get_delete_ne].
Qed.

Lemma streams_ok_same s s' :
  activeStreams s' = activeStreams s → hlsRecorders s' = hlsRecorders s →
  heap s' = heap s → streams_ok s → streams_ok s'.
Proof. intros Ha Hh Hp [? ? ? ? ? ?]. split; rewrite ?Ha, ?Hh, ?Hp; assumption. Qed.

(** An entry is written that keeps the recorder the group had. *)
Lemma streams_ok_entry s s' k st' :
  streams_ok s →
  activeStreams s' = JsMap.set k st' (activeStreams s) →
  hlsRecorders s' = hlsRecorders s → heap s' = heap s →
  recorder st' = JsMap.get k (activeStreams s) ≫= recorder →
  NoDup (streamers st') →
  (recorder st' ≠ None → streamers st' ≠ []) →
  streams_ok s'.
Proof.
  intros [Hk Hm Hn Hi Hr Hy] Ha Hh Hp Hrec Hnd Hne.
  split; rewrite ?Ha, ?Hh, ?Hp.
  - by apply keys_set_NoDup.
  - intros k0 st. rewrite get_set_cases. case_decide; [|eauto].
    by intros [= <-].
  - intros k0 st ref. rewrite get_set_cases. case_decide; [|eauto].
    intros [= <-] Hs. apply Hne. congruence.
  - intros k0. rewrite get_set_cases, Hi. case_decide; [|done].
    subst k0. cbn. by rewrite Hrec.
  - intros k0 st ref. rewrite get_set_cases. case_decide; [|eauto].
    intros [= <-] Hs. subst k0. rewrite Hrec in Hs.
    destruct (JsMap.get k (activeStreams s)) as [st0|] eqn:Hg; [|done].
    eapply Hr; eauto.
  - intros k0 st ref rec. rewrite get_set_cases. case_decide; [|eauto].
    intros [= <-] Hs. subst k0. rewrite Hrec in Hs.
    destruct (JsMap.get k (activeStreams s)) as [st0|] eqn:Hg; [|done].
    eapply Hy; eauto.
Qed.

(** A new recorder object is appended to the heap and attached. *)
Lemma streams_ok_attach s s' k st' rec :
  streams_ok s →
  activeStreams s' = JsMap.set k st' (activeStreams s) →
  hlsRecorders s' = <[k := length (heap s)]> (hlsRecorders s) →
  heap s' = heap s ++ [rec] →
  recorder st' = Some (length (heap s)) →
  NoDup (streamers st') → streamers st' ≠ [] →
  Recorder.streamKey rec = k →
  streams_ok s'.
Proof.
  intros [Hk Hm Hn Hi Hr Hy] Ha Hh Hp Hrec Hnd Hne Hkey.
  split; rewrite ?Ha, ?Hh, ?Hp.
  - by apply keys_set_NoDup.
  - intros k0 st. rewrite get_set_cases. case_decide; [|eauto].
    by intros [= <-].
  - intros k0 st ref. rewrite get_set_cases. case_decide; [|eauto].
    by intros [= <-] _.
  - intros k0. rewrite get_set_cases. case_decide.
    + subst k0. rewrite lookup_insert_eq. cbn. by rewrite Hrec.
    + rewrite lookup_insert_ne by done. apply Hi.
  - intros k0 st ref. rewrite get_set_cases, length_app. cbn.
    case_decide.
    + intros [= <-] Hs. rewrite Hrec in Hs. injection Hs as <-. lia.
    + intros Hg Hs. pose proof (Hr _ _ _ Hg Hs). lia.
  - intros k0 st ref rec0. rewrite get_set_cases. case_decide.
    + intros [= <-] Hs. rewrite Hrec in Hs. injection Hs as <-.
      rewrite (list_lookup_middle (heap s) [] rec _ eq_refl).
      intros [= <-]. by subst.
    + intros Hg Hs. pose proof (Hr _ _ _ Hg Hs) as Hlt.
      rewrite lookup_app_l by done. eauto.
Qed.

(** A recorder object that nobody refers to is appended to the heap. *)
Lemma streams_ok_garbage s s' rec :
  streams_ok s →
  activeStreams s' = activeStreams s → hlsRecorders s' = hlsRecorders s →
  heap s' = heap s ++ [rec] → streams_ok s'.
Proof.
  intros [Hk Hm Hn Hi Hr Hy] Ha Hh Hp.
  split; rewrite ?Ha, ?Hh, ?Hp; try done.
  - intros k0 st ref Hg Hs. rewrite length_app. pose proof (Hr _ _ _ Hg Hs). lia.
  - intros k0 st ref rec0 Hg Hs. pose proof (Hr _ _ _ Hg Hs) as Hlt.
    rewrite lookup_app_l by done. eauto.
Qed.

(** A recorder object changes, its stream key does not. *)
Lemma streams_ok_heap_update s s' ref rec rec' :
  streams_ok s →
  activeStreams s' = activeStreams s → hlsRecorders s' = hlsRecorders s →
  heap s !! ref = Some rec → heap s' = <[ref := rec']> (heap s) →
  Recorder.streamKey rec' = Recorder.streamKey rec → streams_ok s'.
Proof.
  intros [Hk Hm Hn Hi Hr Hy] Ha Hh Hg0 Hp Hkey.
  split; rewrite ?Ha, ?Hh, ?Hp; try done.
  - intros k0 st r Hg Hs. rewrite length_insert. eauto.
  - intros k0 st r rec0 Hg Hs.
    destruct (decide (r = ref)) as [->|Hne].
    + rewrite list_lookup_insert_eq by (by eapply lookup_lt_Some).
      intros [= <-]. rewrite Hkey. eauto.
    + rewrite list_lookup_insert_ne by done. eauto.
Qed.

(** A group is deleted from both maps. *)
Lemma streams_ok_drop s s' k :
  streams_ok s →
  activeStreams s' = JsMap.delete k (activeStreams s) →
  hlsRecorders s' = delete k (hlsRecorders s) → heap s' = heap s →
  streams_ok s'.
Proof.
  intros [Hk Hm Hn Hi Hr Hy] Ha Hh Hp.
  split; rewrite ?Ha, ?Hh, ?Hp.
  - by apply keys_delete_NoDup.
  - intros k0 st. rewrite get_delete_cases. case_decide; [done | eauto].
  - intros k0 st ref. rewrite get_delete_cases. case_decide; [done | eauto].
  - intros k0. rewrite get_delete_cases. case_decide.
    + subst. by rewrite lookup_delete_eq.
    + rewrite lookup_delete_ne by done. apply Hi.
  - intros k0 st ref. rewrite get_delete_cases. case_decide; [done | eauto].
  - intros k0 st ref rec. rewrite get_delete_cases. case_decide; [done | eauto].
Qed.

Lemma cleanup_streamKey rec :
  Recorder.streamKey (Recorder.cleanup rec).1 = Recorder.streamKey rec.
Proof. destruct rec as [fp ir op sk tr co]. by destruct fp, tr, co. Qed.

Lemma callback_streamKey cb rec :
  Recorder.streamKey (recorder_callback cb rec).1 = Recorder.streamKey rec.
Proof.
  destruct cb as [c r|out| |]; cbn;
    try apply cleanup_streamKey.
  - unfold Recorder.delayedSetup, Recorder.stopRecording.
    pose proof (cleanup_streamKey rec) as Hc.
    destruct (Recorder.transport rec); [|done].
    destruct c; [|done].
    destruct (Recorder.consumer rec).
    + destruct r; [done|]. by destruct (Recorder.cleanup rec).
    + by destruct (Recorder.cleanup rec).
  - unfold Recorder.onStderr. by repeat case_match.
Qed.

Lemma startRecording_streamKey router ps o rec :
  Recorder.streamKey (Recorder.startRecording router ps o rec).1.1
    = Recorder.streamKey rec.
Proof.
  unfold Recorder.startRecording. destruct (Recorder.isRecording rec); [done|].
  destruct (Recorder.startRecording_try router ps o rec) as [[mid es] res] eqn:Htry.
  assert (Recorder.streamKey mid = Recorder.streamKey rec) as Hmid.
  { unfold Recorder.startRecording_try in Htry.
    repeat case_match; simplify_eq; done. }
  destruct res; [done|].
  pose proof (cleanup_streamKey mid) as Hc.
  destruct (Recorder.cleanup mid). cbn in *. congruence.
Qed.

Lemma stop_recorder_streams_ok ref s :
  streams_ok s → streams_ok (stop_recorder ref s).1.
Proof.
  intros Hs. unfold stop_recorder, Recorder.stopRecording.
  destruct (heap s !! ref) as [rec|] eqn:Hg; [|done].
  pose proof (cleanup_streamKey rec) as Hc.
  destruct (Recorder.cleanup rec) as [rec' es]. cbn in *.
  by eapply (streams_ok_heap_update s _ ref rec rec').
Qed.

Lemma stop_recorder_maps ref s :
  activeStreams (stop_recorder ref s).1 = activeStreams s ∧
  hlsRecorders (stop_recorder ref s).1 = hlsRecorders s ∧
  length (heap (stop_recorder ref s).1) = length (heap s).
Proof.
  unfold stop_recorder. destruct (heap s !! ref); [|done].
  destruct (Recorder.stopRecording _). cbn. by rewrite length_insert.
Qed.

Lemma leave_streams_ok id k st s :
  streams_ok s → JsMap.get k (activeStreams s) = Some st →
  streams_ok (leave id k st s).1.
Proof.
  intros Hs Hget. rewrite leave_unfold.
  assert ((recorder st ≠ None → JsSet.delete id (streamers st) ≠ []) →
          streams_ok (with_activeStreams
            (JsMap.set k (left_by id st) (activeStreams s)) s)) as Hkeep.
  { intros Hne. eapply (streams_ok_entry s _ k (left_by id st)); try done; cbn.
    - by rewrite Hget.
    - apply delete_NoDup. eapply ok_members; eauto. }
  assert (∀ ref, streams_ok
            (with_activeStreams (JsMap.delete k (activeStreams s))
               (with_hlsRecorders (delete k (hlsRecorders s))
                  (stop_recorder ref s).1))) as Hdrop.
  { intros ref. pose proof (stop_recorder_streams_ok ref s Hs) as Hstop.
    destruct (stop_recorder_maps ref s) as (Ha & Hh & _).
    eapply (streams_ok_drop (stop_recorder ref s).1 _ k); [done| | |done];
      cbn; by rewrite ?Ha, ?Hh. }
  destruct (recorder st) as [ref|] eqn:Hrec.
  - case_bool_decide as Hd; [apply Hdrop | by apply Hkeep].
  - by apply Hkeep.
Qed.

Lemma joined_recorder id k s :
  recorder (joined id k s) = JsMap.get k (activeStreams s) ≫= recorder.
Proof. unfold joined. by destruct (JsMap.get k (activeStreams s)). Qed.

Lemma joined_NoDup id k s : streams_ok s → NoDup (streamers (joined id k s)).
Proof.
  intros Hs. unfold joined. cbn. apply add_NoDup.
  destruct (JsMap.get k (activeStreams s)) as [st0|] eqn:Hg; cbn.
  - eapply ok_members; eauto.
  - apply NoDup_nil_2.
Qed.

Lemma join_streams_ok id k s :
  streams_ok s →
  streams_ok (with_activeStreams (JsMap.set k (joined id k s) (activeStreams s)) s).
Proof.
  intros Hs. eapply (streams_ok_entry s _ k (joined id k s)); try done.
  - apply joined_recorder.
  - by apply joined_NoDup.
  - intros _. apply add_nonempty.
Qed.

Lemma startHLSStream_streams_ok id req a s :
  streams_ok s → streams_ok (startHLSStream id req a s).1.
Proof.
  intros Hs. rewrite startHLSStream_unfold. cbn zeta.
  set (k := effective_key req (now a)).
  pose proof (join_streams_ok id k s Hs) as Hs1.
  destruct (existsb is_video _ && _); [|exact Hs1].
  destruct (ctor a); [|exact Hs1].
  pose proof (startRecording_streamKey (router s) (producers s) (start a)
                (Recorder.new (cwd s) k)) as Hkey.
  destruct (Recorder.startRecording _ _ _ _) as [[rec es] [u|m]]; cbn in Hkey.
  - eapply (streams_ok_attach s _ k _ rec); try done; cbn.
    + by apply joined_NoDup.
    + apply add_nonempty.
  - by eapply (streams_ok_garbage _ _ rec Hs1).
Qed.

Lemma stopHLSStream_streams_ok id k s :
  streams_ok s → streams_ok (stopHLSStream id k s).1.
Proof.
  intros Hs. unfold stopHLSStream.
  destruct (JsMap.get k (activeStreams s)) as [st|] eqn:Hget; [|done].
  pose proof (leave_streams_ok id k st s Hs Hget).
  by destruct (leave id k st s).
Qed.

Lemma disconnect_walk_streams_ok id l acc :
  streams_ok acc.1 → streams_ok (foldl (disconnect_visit id) acc l).1.
Proof.
  revert acc. induction l as [|k l IH]; intros acc Hacc; [done|].
  cbn. apply IH. unfold disconnect_visit.
  destruct (JsMap.get k (activeStreams acc.1)) as [st|] eqn:Hget; [|done].
  destruct (JsSet.has id (streamers st)); [|done].
  pose proof (leave_streams_ok id k st acc.1 Hacc Hget).
  by destruct (leave id k st acc.1).
Qed.

Ltac same_stream_maps :=
  intros; cbv beta delta [healthCheck getRtpCapabilities
    createProducerTransport createConsumerTransport
    connectProducerTransport connectConsumerTransport produce consume
    resumeConsumer getProducers setRtpCapabilities getActiveStreams
    createTransport];
  cbn; repeat case_match; reflexivity.

Lemma step_streams_ok op s : streams_ok s → streams_ok (step op s).1.
Proof.
  intros Hs. destruct op as [[r|m]|id req|ref cb]; cbn [step]; try exact Hs.
  - revert Hs. by apply streams_ok_same.
  - destruct req; cbn [handle];
      try (apply (streams_ok_same s);
           [same_stream_maps | same_stream_maps | same_stream_maps | exact Hs]).
    + by apply startHLSStream_streams_ok.
    + by apply stopHLSStream_streams_ok.
    + unfold disconnect. apply disconnect_walk_streams_ok. cbn.
      revert Hs. by apply streams_ok_same.
  - destruct (heap s !! ref) as [rec|] eqn:Hg; [|exact Hs].
    pose proof (callback_streamKey cb rec) as Hkey.
    destruct (recorder_callback cb rec) as [rec' es]. cbn in *.
    by eapply (streams_ok_heap_update s _ ref rec rec').
Qed.

Lemma run_streams_ok ops s : streams_ok s → streams_ok (run ops s).1.
Proof.
  revert s. induction ops as [|op ops IH]; intros s Hs; [exact Hs|].
  rewrite SignalingFacts.run_cons. apply IH, step_streams_ok, Hs.
Qed.

Lemma streams_of_reachable s : reachable s → streams_ok s.
Proof.
  intros (dir & ops & <-). apply run_streams_ok.
  split; cbn; try done. apply NoDup_nil_2.
Qed.



(** *** Listing the groups *)

Lemma playlistUrl_of_attached s k st ref :
  streams_ok s → JsMap.get k (activeStreams s) = Some st →
  recorder st = Some ref →
  playlistUrl_of (heap s) st = Some (playlist_url k) ∧
  ∃ rec, heap s !! ref = Some rec.
Proof.
  intros Hs Hget Hrec. unfold playlistUrl_of. rewrite Hrec.
  destruct (lookup_lt_is_Some_2 (heap s) ref) as [rec Hrecd].
  { eapply ok_refs; eauto. }
  rewrite Hrecd. cbn. split; [|by exists rec].
  unfold Recorder.getPlaylistUrl, playlist_url.
  by rewrite (ok_key s Hs k st ref rec Hget Hrec Hrecd).
Qed.

(** X9.  In every reachable state [getActiveStreams] answers with one
    entry per group, in the order the groups were created.  An entry
    for a group without recorder has no playlist URL and is not live; an
    entry for a group with a recorder carries the URL
    [/api/hls/<stream key>/playlist.m3u8] built from the group's own
    key, and is live exactly when that recorder [isActive]. *)
Theorem active_streams_listing (s : Server) (id : string) :
  reachable s →
  ∃ l,
    getActiveStreams id s = (s, [Reply (AckStreams l)]) ∧
    map si_streamId l = JsMap.keys (activeStreams s) ∧
    ∀ info, info ∈ l →
      ∃ st,
        JsMap.get (si_streamId info) (activeStreams s) = Some st ∧
        si_streamers info = streamers st ∧
        match recorder st with
        | None => si_playlistUrl info = None ∧ si_isLive info = false
        | Some ref =>
            si_playlistUrl info = Some (playlist_url (si_streamId info)) ∧
            ∃ rec, heap s !! ref = Some rec ∧
                   si_isLive info = Recorder.isActive rec
        end.
Proof.
  intros Hs%streams_of_reachable.
  eexists. split; [reflexivity|]. split.
  { unfold JsMap.keys. rewrite map_map. reflexivity. }
  intros info Hin.
  apply list_elem_of_fmap in Hin as ([k st] & -> & Hin). cbn.
  pose proof (keys_unique_get _ _ _ (ok_stream_keys s Hs) Hin) as Hget.
  exists st. split; [done|]. split; [done|].
  destruct (recorder st) as [ref|] eqn:Hrec.
  - destruct (playlistUrl_of_attached s k st ref Hs Hget Hrec) as [Hurl [rec Hr]].
    split; [done|]. exists rec. split; [done|]. by rewrite Hr.
  - unfold playlistUrl_of. by rewrite Hrec.
Qed.

Lemma active_streams_listing_witness :
  (getActiveStreams "V" (after ops_live_two)).2 =
    [Reply (AckStreams
       [{| si_streamId := "k";
           si_playlistUrl := Some "/api/hls/k/playlist.m3u8";
           si_streamers := ["A"; "B"]; si_isLive := false |}])].
Proof.
  destruct (active_streams_listing (after ops_live_two) "V"
              (SignalingFacts.after_reachable _)) as (l & _ & _).
  vm_compute. reflexivity.
Defined.

(** *** Leaving groups *)

Lemma leave_other_group id k st s k0 :
  k0 ≠ k →
  JsMap.get k0 (activeStreams (leave id k st s).1) = JsMap.get k0 (activeStreams s).
Proof.
  intros Hne. rewrite leave_unfold.
  destruct (recorder st) as [ref|]; [case_bool_decide|]; cbn.
  - by rewrite get_delete_ne.
  - by rewrite get_set_ne.
  - by rewrite get_set_ne.
Qed.

Lemma leave_own_group id k st s st' :
  JsMap.get k (activeStreams (leave id k st s).1) = Some st' →
  st' = left_by id st.
Proof.
  rewrite leave_unfold.
  destruct (recorder st) as [ref|]; [case_bool_decide|]; cbn.
  - by rewrite get_delete_eq.
  - rewrite get_set_eq. by intros [= <-].
  - rewrite get_set_eq. by intros [= <-].
Qed.

Lemma visit_clears id acc k :
  ∀ st, JsMap.get k (activeStreams (disconnect_visit id acc k).1) = Some st →
        id ∉ streamers st.
Proof.
  intros st'. unfold disconnect_visit.
  destruct (JsMap.get k (activeStreams acc.1)) as [st|] eqn:Hget;
    [|by rewrite Hget].
  destruct (JsSet.has id (streamers st)) eqn:Hhas.
  - pose proof (leave_own_group id k st acc.1 st') as Hl.
    destruct (leave id k st acc.1) as [s' out]. cbn in *.
    intros ->%Hl. cbn. intros [_ ?]%JsSetFacts.elem_of_delete. done.
  - rewrite Hget. intros [= <-].
    unfold JsSet.has in Hhas. by apply bool_decide_eq_false in Hhas.
Qed.

Lemma visit_keeps_clear id acc k k0 :
  (∀ st, JsMap.get k0 (activeStreams acc.1) = Some st → id ∉ streamers st) →
  ∀ st, JsMap.get k0 (activeStreams (disconnect_visit id acc k).1) = Some st →
        id ∉ streamers st.
Proof.
  intros Hclear. destruct (decide (k0 = k)) as [->|Hne]; [apply visit_clears|].
  unfold disconnect_visit.
  destruct (JsMap.get k (activeStreams acc.1)) as [st|] eqn:Hget; [|done].
  destruct (JsSet.has id (streamers st)); [|done].
  pose proof (leave_other_group id k st acc.1 k0 Hne) as Hl.
  destruct (leave id k st acc.1) as [s' out]. cbn in *. by rewrite Hl.
Qed.

Lemma walk_clears id l acc k0 :
  (k0 ∈ l ∨ ∀ st, JsMap.get k0 (activeStreams acc.1) = Some st → id ∉ streamers st) →
  ∀ st, JsMap.get k0 (activeStreams (foldl (disconnect_visit id) acc l).1) = Some st →
        id ∉ streamers st.
Proof.
  revert acc. induction l as [|k l IH]; intros acc H; cbn.
  - destruct H as [H|H]; [inversion H | exact H].
  - apply IH. destruct H as [[->|H]%elem_of_cons|H].
    + right. apply visit_clears.
    + by left.
    + right. by apply visit_keeps_clear.
Qed.

Lemma visit_ended id acc k k0 :
  (IoEmit (StreamEnded k0) ∈ acc.2 → JsMap.get k0 (activeStreams acc.1) = None) →
  IoEmit (StreamEnded k0) ∈ (disconnect_visit id acc k).2 →
  JsMap.get k0 (activeStreams (disconnect_visit id acc k).1) = None.
Proof.
  intros Hacc. unfold disconnect_visit.
  destruct (JsMap.get k (activeStreams acc.1)) as [st|] eqn:Hget; [|done].
  destruct (JsSet.has id (streamers st)); [|done].
  pose proof (leave_other_group id k st acc.1 k0) as Hother.
  pose proof (leave_unfold id k st acc.1) as Hu.
  destruct (leave id k st acc.1) as [s' out]. cbn in *.
  intros [Hin|Hin]%elem_of_app.
  - destruct (decide (k0 = k)) as [->|Hne]; [|by rewrite Hother; auto].
    rewrite (Hacc Hin) in Hget. done.
  - destruct (recorder st) as [ref|]; [case_bool_decide|];
      injection Hu as -> ->; try by inversion Hin.
    apply elem_of_app in Hin as [Hin|Hin%list_elem_of_singleton].
    + exfalso. unfold stop_recorder in Hin.
      destruct (heap acc.1 !! ref); [|by inversion Hin].
      destruct (Recorder.stopRecording _). cbn in Hin.
      apply list_elem_of_fmap in Hin as (e & [=] & _).
    + injection Hin as ->. cbn. apply get_delete_eq.
Qed.

Lemma walk_ended id l acc k0 :
  (IoEmit (StreamEnded k0) ∈ acc.2 → JsMap.get k0 (activeStreams acc.1) = None) →
  IoEmit (StreamEnded k0) ∈ (foldl (disconnect_visit id) acc l).2 →
  JsMap.get k0 (activeStreams (foldl (disconnect_visit id) acc l).1) = None.
Proof.
  revert acc. induction l as [|k l IH]; intros acc H; [exact H|].
  cbn. apply IH. by apply visit_ended.
Qed.

(** X10.  A disconnect is a stop-broadcast for every group: after a
    client disconnects it is listed as a member of no group, and each
    "stream ended" event the disconnect sends names a group that has
    been deleted. *)
Theorem disconnect_leaves_every_group (s : Server) (id : string) :
  in_no_group id (disconnect id s).1 ∧
  ∀ k, IoEmit (StreamEnded k) ∈ (disconnect id s).2 →
       JsMap.get k (activeStreams (disconnect id s).1) = None.
Proof.
  split.
  - intros k st Hget. unfold disconnect in Hget.
    eapply walk_clears; [|exact Hget]. left.
    destruct (decide (k ∈ JsMap.keys (activeStreams s))) as [Hin|Hnot]; [done|].
    exfalso. apply Hnot.
    apply get_is_key in Hget.
    apply SignalingFacts.disconnect_walk_keys in Hget. exact Hget.
  - intros k. unfold disconnect. apply walk_ended. intros Hin. inversion Hin.
Qed.

Example disconnect_of_a_member :
  JsMap.get "k" (activeStreams (disconnect "A" (after ops_live_two)).1)
    = Some {| streamers := ["B"]; recorder := Some 0 |} ∧
  (disconnect "A" (after ops_live_two)).2 = [].
Proof. split; reflexivity. Qed.



(** *** Groups without a recorder *)

Lemma leave_keeps_active id k0 st0 s k :
  JsMap.get k0 (activeStreams s) = Some st0 →
  active_without_recorder s k →
  active_without_recorder (leave id k0 st0 s).1 k.
Proof.
  intros Hget0 (st & Hget & Hrec). unfold active_without_recorder.
  destruct (decide (k = k0)) as [->|Hne].
  - assert (st0 = st) as -> by congruence.
    rewrite leave_unfold, Hrec. cbn. rewrite get_set_eq.
    exists (left_by id st). done.
  - rewrite leave_other_group by done. by exists st.
Qed.

Lemma walk_keeps_active id l acc k :
  active_without_recorder acc.1 k →
  active_without_recorder (foldl (disconnect_visit id) acc l).1 k.
Proof.
  revert acc. induction l as [|k0 l IH]; intros acc Hacc; [done|].
  cbn. apply IH. unfold disconnect_visit.
  destruct (JsMap.get k0 (activeStreams acc.1)) as [st0|] eqn:Hget; [|done].
  destruct (JsSet.has id (streamers st0)); [|done].
  pose proof (leave_keeps_active id k0 st0 acc.1 k Hget Hacc).
  by destruct (leave id k0 st0 acc.1).
Qed.

Lemma start_keeps_groups id req a s k :
  is_Some (JsMap.get k (activeStreams s)) →
  is_Some (JsMap.get k (activeStreams (startHLSStream id req a s).1)).
Proof.
  intros Hk. rewrite startHLSStream_unfold. cbn zeta.
  assert (∀ v, is_Some (JsMap.get k
            (JsMap.set (effective_key req (now a)) v (activeStreams s)))) as Hset.
  { intros v. rewrite get_set_cases. by case_decide. }
  destruct (existsb is_video _ && _); [|apply Hset].
  destruct (ctor a); [|apply Hset].
  destruct (Recorder.startRecording _ _ _ _) as [[rec es] [u|m]]; apply Hset.
Qed.

(** X14.  A group without a recorder is never deleted: whatever the
    server does next, the group is still registered afterwards, also
    when its last member has stopped or disconnected; and nothing but a
    start-broadcast request gives it a recorder. *)
Theorem active_group_is_never_deleted (s : Server) (k : string) (op : Op) :
  active_without_recorder s k →
  is_Some (JsMap.get k (activeStreams (step op s).1)) ∧
  ((∀ id req a, op ≠ FromSocket id (StartHLSStream req a)) →
   active_without_recorder (step op s).1 k).
Proof.
  intros Hk.
  assert (∀ s', active_without_recorder s' k →
                is_Some (JsMap.get k (activeStreams s'))) as Hsome.
  { intros s' (st & -> & _). by eexists. }
  assert (∀ s', activeStreams s' = activeStreams s →
                active_without_recorder s' k) as Hsame.
  { intros s' Ha. unfold active_without_recorder. by rewrite Ha. }
  destruct op as [[r|m]|id req|ref cb]; cbn [step].
  - split; [apply Hsome|intros _]; by apply Hsame.
  - split; [apply Hsome|intros _]; by apply Hsame.
  - destruct req; cbn [handle];
      try (split; [apply Hsome|intros _]; apply Hsame; same_stream_maps).
    + split; [|intros Hno; by destruct (Hno id streamId a)].
      apply start_keeps_groups. destruct Hk as (st & -> & _). by eexists.
    + assert (active_without_recorder (stopHLSStream id streamId s).1 k) as Hstop.
      { unfold stopHLSStream.
        destruct (JsMap.get streamId (activeStreams s)) as [st0|] eqn:Hget; [|done].
        pose proof (leave_keeps_active id streamId st0 s k Hget Hk).
        by destruct (leave id streamId st0 s). }
      split; [by apply Hsome | done].
    + assert (active_without_recorder (disconnect id s).1 k) as Hdis.
      { unfold disconnect. apply walk_keeps_active. by apply Hsame. }
      split; [by apply Hsome | done].
  - assert (activeStreams (step (FromRecorder ref cb) s).1 = activeStreams s) as Ha.
    { cbn. destruct (heap s !! ref); [|done]. by destruct (recorder_callback cb _). }
    split; [apply Hsome|intros _]; by apply Hsame.
Qed.

Lemma active_group_is_never_deleted_witness :
  JsMap.get "quiet"
    (activeStreams (step (FromSocket "A" (StopHLSStream "quiet"))
                      (after ops_active_only)).1)
  = Some {| streamers := []; recorder := None |} ∧
  is_Some (JsMap.get "quiet"
    (activeStreams (step (FromSocket "A" Disconnect) (after ops_active_only)).1)).
Proof.
  split; [reflexivity|].
  refine (proj1 (active_group_is_never_deleted (after ops_active_only) "quiet"
                   (FromSocket "A" Disconnect) _)).
  exists {| streamers := ["A"]; recorder := None |}. split; reflexivity.
Defined.

(** *** Starting, again *)

Lemma joined_members id k s x :
  x ∈ streamers (joined id k s) ↔
  x = id ∨ ∃ st0, JsMap.get k (activeStreams s) = Some st0 ∧ x ∈ streamers st0.
Proof.
  unfold joined. cbn. rewrite JsSetFacts.elem_of_add.
  destruct (JsMap.get k (activeStreams s)) as [st0|]; cbn.
  - split; intros [?|?]; eauto. destruct H as (? & [= <-] & ?). eauto.
  - split; intros [?|H]; eauto; [inversion H|]. by destruct H as (? & [=] & _).
Qed.

(** X15.  Every start-broadcast request makes the caller a member of
    the group it names, whether a recorder is started, cannot be
    started, or is not needed: afterwards the group exists and its
    members are the caller and whoever was a member before.  The group
    is the one of the key given, or, when no key or the empty key is
    given, of the generated key [stream_<now>]; no other group is
    touched. *)
Theorem start_always_adds_the_caller
    (s : Server) (id : string) (req : option string) (a : StartArgs) :
  (∃ st,
     JsMap.get (effective_key req (now a))
       (activeStreams (startHLSStream id req a s).1) = Some st ∧
     id ∈ streamers st ∧
     ∀ x, x ∈ streamers st ↔
          x = id ∨ ∃ st0, JsMap.get (effective_key req (now a)) (activeStreams s)
                            = Some st0 ∧ x ∈ streamers st0) ∧
  (∀ k', k' ≠ effective_key req (now a) →
     JsMap.get k' (activeStreams (startHLSStream id req a s).1)
       = JsMap.get k' (activeStreams s)) ∧
  (req = None ∨ req = Some "" →
   effective_key req (now a) = "stream_" +:+ pretty (now a)) ∧
  (∀ k, req = Some k → k ≠ "" → effective_key req (now a) = k).
Proof.
  split; [|split; [|split]].
  - rewrite startHLSStream_unfold. cbn zeta.
    set (k := effective_key req (now a)).
    assert (∀ st, streamers st = streamers (joined id k s) →
              id ∈ streamers st ∧
              ∀ x, x ∈ streamers st ↔
                   x = id ∨ ∃ st0, JsMap.get k (activeStreams s) = Some st0 ∧
                                   x ∈ streamers st0) as Hmem.
    { intros st ->. split; [apply add_member | apply joined_members]. }
    destruct (existsb is_video _ && _);
      [destruct (ctor a);
       [destruct (Recorder.startRecording _ _ _ _) as [[rec es] [u|m]]|]|];
      cbn; rewrite get_set_eq; eexists; (split; [reflexivity|]); by apply Hmem.
  - intros k' Hne. rewrite startHLSStream_unfold. cbn zeta.
    destruct (existsb is_video _ && _);
      [destruct (ctor a);
       [destruct (Recorder.startRecording _ _ _ _) as [[rec es] [u|m]]|]|];
      cbn; by rewrite get_set_ne.
  - intros [->| ->]; reflexivity.
  - intros k -> Hne. by apply SignalingFacts.effective_key_given.
Qed.

Lemma refused_announce k st s : refused (announce k st s) = false.
Proof. reflexivity. Qed.

Lemma recording_after_set s k st :
  recording (with_activeStreams (JsMap.set k st (activeStreams s)) s) k
  = match recorder st with Some _ => true | None => false end.
Proof. unfold recording. cbn. by rewrite get_set_eq. Qed.

(** X16.  A start-broadcast that is answered with an error leaves the
    group in place without a recorder, with the caller as a member, and
    leaves [hlsRecorders] as it was; and the failure does not stand in
    the way of a retry: with the router there, a following
    start-broadcast for the same key whose recorder calls succeed
    attaches a recorder, is acknowledged, and announces "stream live"
    once. *)
Theorem failed_start_can_be_retried
    (s : Server) (id id' : string) (req : option string) (a a' : StartArgs) :
  refused (startHLSStream id req a s).2 = true →
  router s ≠ None →
  all_ok a' →
  (∃ st, JsMap.get (effective_key req (now a))
           (activeStreams (startHLSStream id req a s).1) = Some st ∧
         recorder st = None ∧ id ∈ streamers st) ∧
  hlsRecorders (startHLSStream id req a s).1 = hlsRecorders s ∧
  recording
    (startHLSStream id' (Some (effective_key req (now a))) a'
       (startHLSStream id req a s).1).1 (effective_key req (now a)) = true ∧
  acknowledged
    (startHLSStream id' (Some (effective_key req (now a))) a'
       (startHLSStream id req a s).1).2 = true ∧
  stream_live_count
    (startHLSStream id' (Some (effective_key req (now a))) a'
       (startHLSStream id req a s).1).2 = 1.
Proof.
  intros Href Hrouter (Hctor & t & cr & p & Hstart).
  set (k := effective_key req (now a)) in *.
  set (s1 := (startHLSStream id req a s).1) in *.
  assert (existsb is_video (JsMap.values (producers s)) = true ∧
          JsMap.get k (activeStreams s1) = Some (joined id k s) ∧
          recorder (joined id k s) = None ∧
          hlsRecorders s1 = hlsRecorders s) as (Hvid & Hget & Hnone & Hidx).
  { subst s1. revert Href. rewrite startHLSStream_unfold. cbn zeta. fold k.
    destruct (existsb is_video _) eqn:Hv; cbn [andb fst snd];
      [|by rewrite refused_announce].
    case_bool_decide as Hn; cbn [fst snd]; [|by rewrite refused_announce].
    destruct (ctor a);
      [destruct (Recorder.startRecording _ _ _ _) as [[rec es] [u|m]]|];
      cbn -[JsMap.get JsMap.set refused announce].
    - by rewrite SignalingFacts.refused_engine, refused_announce.
    - intros _. by rewrite get_set_eq.
    - intros _. by rewrite get_set_eq. }
  destruct (RegistryFacts.startHLSStream_frame id req a s) as (Hp & _ & _ & Hr).
  fold s1 in Hp, Hr.
  split; [exists (joined id k s); split; [done|]; split; [done | apply add_member]|].
  split; [done|].
  destruct (router s) as [rt|] eqn:Hrt; [|done].
  destruct (RecorderStartFacts.first_video_exists _ Hvid) as [pd Hpd].
  rewrite startHLSStream_unfold. cbn zeta.
  rewrite (SignalingFacts.effective_key_given k)
    by apply SignalingFacts.effective_key_nonempty.
  assert (recorder (joined id' k s1) = None) as Hnone'.
  { rewrite joined_recorder, Hget. done. }
  rewrite Hp, Hr, Hvid, Hnone', Hctor, Hstart. cbn [andb].
  rewrite bool_decide_true by done.
  rewrite (RecorderStartFacts.startRecording_fresh rt _ pd) by done.
  cbn -[JsMap.set recording acknowledged stream_live_count announce].
  split; [unfold recording; cbn -[JsMap.set JsMap.get]; by rewrite get_set_eq|].
  split; reflexivity.
Qed.

Lemma failed_start_can_be_retried_witness :
  recording
    (startHLSStream "B" (Some "k") start_ok
       (startHLSStream "A" (Some "k") start_fails (after ops_produce)).1).1 "k"
  = true.
Proof.
  refine (proj1 (proj2 (proj2
    (failed_start_can_be_retried (after ops_produce) "A" "B" (Some "k")
       start_fails start_ok eq_refl _ _)))).
  - discriminate.
  - split; [reflexivity|]. by eexists _, _, _.
Defined.

(** *** The recorder's callbacks, seen from the server *)

(** X17.  The callbacks a recorder registered (the start-up timer,
    the subprocess's stderr, [error] and [close] events) never send
    anything to clients and never change the groups: whatever happens
    to the recorder, [activeStreams] and [hlsRecorders] stay as they
    are, so a recorder whose subprocess died stays attached to its
    group, and no "stream ended" event is sent for it.  After an
    [error] or [close] event the recorder object holds nothing and is
    inactive; no other recorder object is touched. *)
Theorem recorder_callbacks_never_tell_clients
    (s : Server) (ref : nat) (cb : Callback) :
  activeStreams (step (FromRecorder ref cb) s).1 = activeStreams s ∧
  hlsRecorders (step (FromRecorder ref cb) s).1 = hlsRecorders s ∧
  Forall (λ o, is_engine o = true) (step (FromRecorder ref cb) s).2 ∧
  (cb = ProcessError ∨ cb = ProcessClose →
   ∀ rec, heap s !! ref = Some rec →
     ∃ rec', heap (step (FromRecorder ref cb) s).1 !! ref = Some rec' ∧
             Recorder.stopped rec') ∧
  (∀ ref', ref' ≠ ref →
     heap (step (FromRecorder ref cb) s).1 !! ref' = heap s !! ref').
Proof.
  cbn [step]. destruct (heap s !! ref) as [rec|] eqn:Hg.
  - destruct (recorder_callback cb rec) as [rec' es] eqn:Hcb. cbn.
    split; [done|]. split; [done|]. split; [|split].
    + clear Hcb. induction es; cbn; constructor; done.
    + intros Hcase rec0 [= <-]. exists rec'.
      rewrite list_lookup_insert_eq by (by eapply lookup_lt_Some).
      split; [done|].
      destruct (RecorderFacts.cleanup_spec rec) as [Hstop _].
      destruct Hcase as [-> | ->]; cbn in Hcb;
        unfold Recorder.onError, Recorder.onClose in Hcb;
        rewrite Hcb in Hstop; exact Hstop.
    + intros ref' Hne. by rewrite list_lookup_insert_ne.
  - cbn. split; [done|]. split; [done|]. split; [constructor|].
    split; [intros _ rec [=] | done].
Qed.

Lemma recorder_callbacks_never_tell_clients_witness :
  ∃ rec', heap (step (FromRecorder 0 ProcessClose) (after ops_live_one)).1 !! 0
            = Some rec' ∧ Recorder.stopped rec'.
Proof.
  refine (proj1 (proj2 (proj2 (proj2
    (recorder_callbacks_never_tell_clients (after ops_live_one) 0 ProcessClose))))
    _ RecorderTerms.sample_started eq_refl).
  by right.
Defined.

(** X18.  When a start-broadcast newly attaches a recorder, the group
    is not yet reported live: it becomes live when the recorder's timer
    callback has connected the transport and resumed the consumer.  If
    the connect fails in that callback the recorder is torn down, the
    group is reported not live, and yet the recorder stays attached to
    the group. *)
Theorem attached_group_goes_live_on_timer
    (s : Server) (id : string) (req : option string) (a : StartArgs) :
  recording s (effective_key req (now a)) = false →
  recording (startHLSStream id req a s).1 (effective_key req (now a)) = true →
  JsMap.get (effective_key req (now a))
    (activeStreams (startHLSStream id req a s).1) ≫= recorder
    = Some (length (heap s)) ∧
  is_live (startHLSStream id req a s).1 (effective_key req (now a)) = false ∧
  is_live (step (FromRecorder (length (heap s)) (TimerFired (Ok ()) (Ok ())))
             (startHLSStream id req a s).1).1 (effective_key req (now a)) = true ∧
  ∀ m resume,
    is_live (step (FromRecorder (length (heap s)) (TimerFired (Throw m) resume))
               (startHLSStream id req a s).1).1 (effective_key req (now a)) = false ∧
    recording (step (FromRecorder (length (heap s)) (TimerFired (Throw m) resume))
                 (startHLSStream id req a s).1).1 (effective_key req (now a)) = true.
Proof.
  set (k := effective_key req (now a)). intros Hbefore.
  assert (recorder (joined id k s) = None) as Hnone.
  { rewrite joined_recorder. unfold recording in Hbefore.
    destruct (JsMap.get k (activeStreams s)) as [st|]; [|done].
    cbn. by destruct (recorder st). }
  rewrite startHLSStream_unfold. cbn zeta. fold k.
  destruct (existsb is_video _ && _); cbn [fst snd];
    [|by rewrite recording_after_set, Hnone].
  destruct (ctor a); cbn [fst snd]; [|by rewrite recording_after_set, Hnone].
  destruct (Recorder.startRecording _ _ _ _) as [[rec es] [u|m]] eqn:Hstart.
  2:{ cbn -[JsMap.set]. unfold recording. cbn -[JsMap.set].
      by rewrite get_set_eq, Hnone. }
  intros _.
  destruct (RecorderStartFacts.startRecording_success _ _ _
              (Recorder.new (cwd s) k) _ _ _ eq_refl Hstart)
    as (pd & t & cr & p & _ & _ & _ & _ & _ & -> & _).
  assert (∀ h : list Recorder.HLSRecorderV2, ∀ x, (h ++ [x]) !! length h = Some x)
    as Hlast.
  { intros h x. by rewrite (list_lookup_middle h [] x _ eq_refl). }
  unfold is_live, recording. cbn -[JsMap.set JsMap.get].
  rewrite !get_set_eq. cbn -[JsMap.set JsMap.get].
  rewrite !Hlast. cbn -[JsMap.set JsMap.get].
  rewrite !get_set_eq. cbn -[JsMap.set JsMap.get].
  rewrite !list_lookup_insert_eq by (rewrite length_app; cbn; lia).
  split; [done|]. split; [done|]. split; [done|].
  intros m resume. rewrite ?get_set_eq. cbn -[JsMap.set JsMap.get].
  rewrite ?list_lookup_insert_eq by (rewrite length_app; cbn; lia). done.
Qed.

Lemma attached_group_goes_live_on_timer_witness :
  is_live (startHLSStream "A" (Some "k") start_ok (after ops_produce)).1
    (effective_key (Some "k") (now start_ok)) = false ∧
  is_live (step (FromRecorder (length (heap (after ops_produce)))
                   (TimerFired (Ok ()) (Ok ())))
             (startHLSStream "A" (Some "k") start_ok (after ops_produce)).1).1
    (effective_key (Some "k") (now start_ok)) = true.
Proof.
  destruct (attached_group_goes_live_on_timer (after ops_produce) "A" (Some "k")
              start_ok eq_refl eq_refl) as (_ & Hnot & Hlive & _).
  split; [exact Hnot | exact Hlive].
Defined.

End StreamFacts.

(** ** What a disconnect announces *)

Module DisconnectFacts.
Import Signaling.
Import SignalingTerms.
Import JsMapFacts.

Lemma delete_empty_only x l : JsSet.delete x l = [] → ∀ y, y ∈ l → y = x.
Proof.
  intros H y Hy. destruct (decide (y = x)) as [|Hne]; [done|].
  assert (y ∈ JsSet.delete x l) as Hin
    by (apply JsSetFacts.elem_of_delete; done).
  rewrite H in Hin. by apply elem_of_nil in Hin.
Qed.

Lemma stop_recorder_no_event ref s e : IoEmit e ∉ (stop_recorder ref s).2.
Proof.
  unfold stop_recorder. destruct (heap s !! ref); [|apply not_elem_of_nil].
  destruct (Recorder.stopRecording _). cbn.
  by intros (x & [=] & _)%list_elem_of_fmap.
Qed.

(** A member leaves and the group stays. *)
Lemma stay_walk_ok s id acc k st :
  walk_ok s id acc →
  JsMap.get k (activeStreams acc.1) = Some st →
  walk_ok s id
    (with_activeStreams (JsMap.set k (left_by id st) (activeStreams acc.1)) acc.1,
     acc.2 ++ []).
Proof.
  intros [Hm Hh He] Hget. rewrite app_nil_r. split; cbn.
  - intros k0 st0. destruct (decide (k0 = k)) as [->|Hne].
    + rewrite get_set_eq. intros [= <-]. cbn.
      by intros [_ ?]%JsSetFacts.elem_of_delete.
    + rewrite get_set_ne by done. apply Hm.
  - exact Hh.
  - intros k0 Hin.
    destruct (He k0 Hin) as (st0 & ref0 & H1 & H2 & H3 & H4 & H5 & H6 & H7).
    exists st0, ref0.
    split; [done|]. split; [done|]. split; [done|]. split; [done|].
    split; [|split; [exact H6 | exact H7]]. cbn.
    destruct (decide (k0 = k)) as [->|Hne];
      [by rewrite Hget in H5 | by rewrite get_set_ne].
Qed.

(** The last member leaves a group with a recorder. *)
Lemma drop_walk_ok s id acc k st ref :
  walk_ok s id acc →
  JsMap.get k (activeStreams acc.1) = Some st →
  id ∈ streamers st → recorder st = Some ref →
  JsSet.delete id (streamers st) = [] →
  walk_ok s id
    (with_activeStreams
       (JsMap.delete k (activeStreams acc.1))
       (with_hlsRecorders (delete k (hlsRecorders acc.1))
          (stop_recorder ref acc.1).1),
     acc.2 ++ (stop_recorder ref acc.1).2 ++ [IoEmit (StreamEnded k)]).
Proof.
  intros [Hm Hh He] Hget Hhas Hrec Hempty.
  pose proof (Hm k st Hget Hhas) as Hs.
  assert (Hstop : ∀ ref0 rec0, heap acc.1 !! ref0 = Some rec0 →
            ∃ rec1, heap (stop_recorder ref acc.1).1 !! ref0 = Some rec1 ∧
                    (Recorder.stopped rec0 → Recorder.stopped rec1) ∧
                    (ref0 ≠ ref → rec1 = rec0) ∧
                    (ref0 = ref → Recorder.stopped rec1 ∧
                       (stop_recorder ref acc.1).2
                         = map Engine (Recorder.releases rec0))).
  { intros ref0 rec0 H0. destruct (decide (ref0 = ref)) as [->|Hne].
    - rewrite (SignalingFacts.stop_recorder_spec _ _ _ H0).
      cbn [fst snd heap with_heap].
      rewrite list_lookup_insert_eq by (by eapply lookup_lt_Some).
      eexists. split; [done|].
      destruct (RecorderFacts.cleanup_spec rec0) as [Hst _].
      split; [by intros _|]. split; [by intros []|]. by intros _.
    - unfold stop_recorder. destruct (heap acc.1 !! ref) as [rec|]; cbn.
      + destruct (Recorder.stopRecording rec). cbn.
        rewrite list_lookup_insert_ne by done.
        exists rec0. split; [done|]. split; [done|]. split; [done|].
        by intros ?.
      + exists rec0. split; [done|]. split; [done|]. split; [done|].
        by intros ?. }
  split; cbn [fst snd activeStreams with_activeStreams heap hlsRecorders
              with_hlsRecorders].
  - intros k0 st0. destruct (decide (k0 = k)) as [->|Hne].
    + by rewrite get_delete_eq.
    + rewrite get_delete_ne by done. apply Hm.
  - intros ref0 rec0 H0.
    destruct (Hh ref0 rec0 H0) as [Hsame|[(rec' & Hl & Hst) Hrel]].
    + destruct (Hstop ref0 rec0 Hsame) as (rec1 & H1 & _ & Hne & Heq).
      destruct (decide (ref0 = ref)) as [->|Hn].
      * right. destruct (Heq eq_refl) as [Hst Hout]. split; [by exists rec1|].
        intros e Hin. rewrite Hout. apply elem_of_app. right.
        apply elem_of_app. left. by apply (list_elem_of_fmap_2 Engine).
      * left. by rewrite H1, (Hne Hn).
    + right. destruct (Hstop ref0 rec' Hl) as (rec1 & H1 & Hkeep & _).
      split; [exists rec1; auto|].
      intros e Hin. apply elem_of_app. left. by apply Hrel.
  - intros k0 Hin.
    apply elem_of_app in Hin as [Hin|Hin].
    + destruct (He k0 Hin) as (st0 & ref0 & H1 & H2 & H3 & H4 & H5 & H6 & H7).
      assert (k0 ≠ k) as Hne by (intros ->; by rewrite Hget in H5).
      exists st0, ref0.
      split; [done|]. split; [done|]. split; [done|]. split; [done|].
      cbn [fst snd activeStreams with_activeStreams heap hlsRecorders
           with_hlsRecorders].
      split; [by rewrite get_delete_ne|].
      split; [by rewrite lookup_delete_ne|].
      intros rec Hrec0. destruct (H7 rec Hrec0) as [(rec' & Hl & Hst) Hrel].
      split.
      * destruct (Hstop ref0 rec' Hl) as (rec1 & Hl1 & Hkeep & _).
        exists rec1; auto.
      * intros e He0. apply elem_of_app. left. by apply Hrel.
    + apply elem_of_app in Hin as [Hin|Hin%list_elem_of_singleton];
        [by apply stop_recorder_no_event in Hin|].
      injection Hin as <-. exists st, ref.
      split; [done|]. split; [done|]. split; [done|].
      split; [by apply delete_empty_only|].
      cbn [fst snd activeStreams with_activeStreams heap hlsRecorders
           with_hlsRecorders].
      split; [apply get_delete_eq|].
      split; [apply lookup_delete_eq|].
      intros rec Hrec0.
      destruct (Hh ref rec Hrec0) as [Hsame|[(rec' & Hl & Hst) Hrel]].
      * destruct (Hstop ref rec Hsame) as (rec1 & H1 & _ & _ & Heq).
        destruct (Heq eq_refl) as [Hst Hout]. split; [by exists rec1|].
        intros e He0. rewrite Hout. apply elem_of_app. right.
        apply elem_of_app. left. by apply (list_elem_of_fmap_2 Engine).
      * destruct (Hstop ref rec' Hl) as (rec1 & H1 & Hkeep & _).
        split; [exists rec1; auto|].
        intros e He0. apply elem_of_app. left. by apply Hrel.
Qed.

(** The loop body keeps [walk_ok]. *)
Lemma visit_walk_ok s id acc k :
  walk_ok s id acc → walk_ok s id (disconnect_visit id acc k).
Proof.
  intros Hok. unfold disconnect_visit.
  destruct (JsMap.get k (activeStreams acc.1)) as [st|] eqn:Hget; [|done].
  destruct (JsSet.has id (streamers st)) eqn:Hhas; [|done].
  apply bool_decide_eq_true in Hhas.
  rewrite StreamFacts.leave_unfold.
  destruct (recorder st) as [ref|] eqn:Hrec; [case_bool_decide as Hempty|].
  - by apply (drop_walk_ok s id acc k st ref).
  - by apply stay_walk_ok.
  - by apply stay_walk_ok.
Qed.

Lemma walk_walk_ok s id l acc :
  walk_ok s id acc → walk_ok s id (foldl (disconnect_visit id) acc l).
Proof.
  revert acc. induction l as [|k l IH]; intros acc H; [exact H|].
  cbn. by apply IH, visit_walk_ok.
Qed.

(** C3, amended.  On a client disconnect, after the registry cleanup
    and the stream-membership cleanup, no "producer gone" notification
    is broadcast: the only events the handler sends are "stream ended"
    events (next to the recorder's own releases), none of its outputs
    names a producer, and every "stream ended" event is for a group
    whose recorder the handler stopped: the group had a recorder
    attached and the disconnecting client as its only member, it is
    gone from [activeStreams] and [hlsRecorders] afterwards, and its
    recorder object holds nothing, is inactive, and has had all its
    releases sent.  This holds in every state of the server. *)
Theorem disconnect_only_announces_stream_ends (s : Server) (id : string) :
  Forall (λ o, ended_or_engine o = true) (disconnect id s).2 ∧
  Forall (λ o, ∀ pid, names_producer pid o = false) (disconnect id s).2 ∧
  ∀ k, IoEmit (StreamEnded k) ∈ (disconnect id s).2 →
       stopped_and_dropped s id k (disconnect id s).
Proof.
  destruct (SignalingFacts.disconnect_registries id s) as (_ & _ & _ & Ho).
  split; [exact Ho|]. split.
  - eapply Forall_impl; [exact Ho|].
    intros o Hok pid. destruct o as [a|e|e|e]; try done.
    destruct e; done.
  - unfold disconnect. apply wk_ended, walk_walk_ok. split; cbn.
    + done.
    + intros ref rec H. by left.
    + intros k H. by apply elem_of_nil in H.
Qed.

Lemma disconnect_only_announces_stream_ends_witness :
  IoEmit (StreamEnded "k") ∈ (disconnect "A" (after ops_live_one)).2 ∧
  stopped_and_dropped (after ops_live_one) "A" "k"
    (disconnect "A" (after ops_live_one)).
Proof.
  assert (IoEmit (StreamEnded "k") ∈ (disconnect "A" (after ops_live_one)).2)
    as Hin.
  { rewrite SignalingFacts.disconnect_of_last_member.
    do 3 (apply elem_of_cons; right). apply elem_of_cons. by left. }
  split; [exact Hin|].
  exact (proj2 (proj2 (disconnect_only_announces_stream_ends
                         (after ops_live_one) "A")) "k" Hin).
Defined.

End DisconnectFacts.

(** ** Paths made of plain segments *)

Module PathFacts.
Import PlaybackTerms.

Lemma str_app_nil s : s +:+ "" = s.
Proof.
  induction s as [|c s IH]; [done|].
  change (String c s +:+ "") with (String c (s +:+ "")). by rewrite IH.
Qed.

Lemma str_app_assoc a b c : (a +:+ b) +:+ c = a +:+ b +:+ c.
Proof.
  induction a as [|x a IH]; [done|].
  change (String x ((a +:+ b) +:+ c) = String x (a +:+ b +:+ c)). by rewrite IH.
Qed.

Lemma rev_app_append a b : String.rev_app a b = String.rev a +:+ b.
Proof.
  revert b. induction a as [|x a IH]; intros b; [done|].
  unfold String.rev. cbn [String.rev_app].
  rewrite (IH (String x b)), (IH (String x "")). by rewrite str_app_assoc.
Qed.

Lemma rev_cons_append c cur s :
  String.rev (String c cur) +:+ s = String.rev cur +:+ String c s.
Proof.
  unfold String.rev at 1. cbn [String.rev_app].
  rewrite rev_app_append. by rewrite str_app_assoc.
Qed.

Lemma split_aux_slash cur s rest :
  has_slash s = false →
  NodePath.split_aux cur (s +:+ String NodePath.slash rest)
    = (String.rev cur +:+ s) :: NodePath.split_aux "" rest.
Proof.
  revert cur. induction s as [|c s IH]; intros cur Hs.
  - change ("" +:+ String NodePath.slash rest) with (String NodePath.slash rest).
    cbn [NodePath.split_aux]. rewrite decide_True by done.
    by rewrite str_app_nil.
  - cbn [has_slash] in Hs. apply orb_false_elim in Hs as [Hc Hs].
    apply bool_decide_eq_false in Hc.
    change (String c s +:+ String NodePath.slash rest)
      with (String c (s +:+ String NodePath.slash rest)).
    cbn [NodePath.split_aux]. rewrite decide_False by done.
    rewrite (IH _ Hs). f_equal. apply rev_cons_append.
Qed.

Lemma split_aux_plain cur s :
  has_slash s = false → NodePath.split_aux cur s = [String.rev cur +:+ s].
Proof.
  revert cur. induction s as [|c s IH]; intros cur Hs.
  - cbn [NodePath.split_aux]. by rewrite str_app_nil.
  - cbn [has_slash] in Hs. apply orb_false_elim in Hs as [Hc Hs].
    apply bool_decide_eq_false in Hc.
    cbn [NodePath.split_aux]. rewrite decide_False by done.
    rewrite (IH _ Hs). f_equal. apply rev_cons_append.
Qed.

Lemma split_concat_sep l :
  l ≠ [] → Forall (λ x, has_slash x = false) l →
  NodePath.split (NodePath.concat_sep l) = l.
Proof.
  intros Hne Hl. induction Hl as [|x l Hx Hl IH]; [done|].
  destruct l as [|y l].
  - cbn [NodePath.concat_sep]. unfold NodePath.split.
    by rewrite split_aux_plain.
  - change (NodePath.concat_sep (x :: y :: l))
      with (x +:+ String NodePath.slash (NodePath.concat_sep (y :: l))).
    unfold NodePath.split. rewrite split_aux_slash by done.
    f_equal. by apply IH.
Qed.

Lemma concat_sep_app l1 l2 :
  l1 ≠ [] → l2 ≠ [] →
  NodePath.concat_sep (l1 ++ l2)
    = NodePath.concat_sep l1 +:+ "/" +:+ NodePath.concat_sep l2.
Proof.
  intros H1 H2. induction l1 as [|x l1 IH]; [done|].
  destruct l1 as [|y l1].
  - destruct l2; done.
  - change (NodePath.concat_sep ((x :: y :: l1) ++ l2))
      with (x +:+ "/" +:+ NodePath.concat_sep ((y :: l1) ++ l2)).
    rewrite IH by done.
    change (NodePath.concat_sep (x :: y :: l1))
      with (x +:+ "/" +:+ NodePath.concat_sep (y :: l1)).
    by rewrite !str_app_assoc.
Qed.

Lemma concat_sep_nonempty l :
  l ≠ [] → Forall (λ x, x ≠ "") l → NodePath.concat_sep l ≠ "".
Proof.
  intros Hne Hl. destruct Hl as [|x l Hx Hl]; [done|].
  destruct x as [|c x]; [done|]. by destruct l.
Qed.

Lemma last_is_slash_append a b :
  b ≠ "" → NodePath.last_is_slash (a +:+ b) = NodePath.last_is_slash b.
Proof.
  intros Hb. induction a as [|c a IH]; [done|].
  change (String c a +:+ b) with (String c (a +:+ b)).
  cbn [NodePath.last_is_slash]. rewrite IH.
  destruct (a +:+ b) eqn:E; [|done].
  destruct a; [|done]. by destruct b.
Qed.

Lemma last_is_slash_plain s : has_slash s = false → NodePath.last_is_slash s = false.
Proof.
  induction s as [|c s IH]; [done|]. cbn [has_slash].
  intros [Hc Hs]%orb_false_elim. cbn [NodePath.last_is_slash].
  destruct s; [done | by apply IH].
Qed.

Lemma concat_sep_snoc l x :
  ∃ pre, NodePath.concat_sep (l ++ [x]) = pre +:+ x.
Proof.
  destruct l as [|y l]; [by exists ""|].
  exists (NodePath.concat_sep (y :: l) +:+ "/").
  rewrite concat_sep_app by done. by rewrite str_app_assoc.
Qed.

Lemma normalizeSegments_quiet b acc segs :
  Forall (λ x, x = "" ∨ plain x) segs →
  NodePath.normalizeSegments b acc segs = rev acc ++ filter (λ a, a ≠ "") segs.
Proof.
  intros Hs. revert acc. induction Hs as [|x l Hx Hl IH]; intros acc.
  - cbn. by rewrite app_nil_r.
  - cbn [NodePath.normalizeSegments].
    destruct Hx as [->|(H1 & H2 & H3 & _)].
    + rewrite decide_True by done. rewrite filter_cons_False by naive_solver.
      apply IH.
    + rewrite !decide_False by done. rewrite filter_cons_True by done.
      rewrite IH. cbn [rev]. by rewrite <- app_assoc.
Qed.

Lemma filter_plain l : Forall plain l → filter (λ a : string, a ≠ "") l = l.
Proof.
  induction 1 as [|x l Hx Hl IH]; [done|].
  rewrite filter_cons_True by apply Hx. by rewrite IH.
Qed.


Lemma quiet_no_slash l :
  Forall (λ x, x = "" ∨ plain x) l → Forall (λ x, has_slash x = false) l.
Proof.
  intros H. eapply Forall_impl; [exact H|].
  intros x [->|(_ & _ & _ & Hx)]; done.
Qed.

Lemma plain_quiet l : Forall plain l → Forall (λ x, x = "" ∨ plain x) l.
Proof. intros H. eapply Forall_impl; [exact H|]. by right. Qed.

(** [path.normalize] of an absolute path whose segments are empty or
    plain and whose last segment is plain keeps the plain segments. *)
Lemma normalize_abs l x :
  Forall (λ x, x = "" ∨ plain x) l → plain x →
  NodePath.normalize (String NodePath.slash (NodePath.concat_sep (l ++ [x])))
    = abs_path (filter (λ a, a ≠ "") l ++ [x]).
Proof.
  intros Hl Hx.
  assert (Hq : Forall (λ x, x = "" ∨ plain x) (l ++ [x])).
  { apply Forall_app. split; [done|]. apply Forall_singleton. by right. }
  unfold NodePath.normalize. rewrite decide_False by done.
  cbn [NodePath.first_is_slash]. rewrite bool_decide_true by done.
  cbn [negb].
  assert (NodePath.last_is_slash
            (String NodePath.slash (NodePath.concat_sep (l ++ [x]))) = false)
    as ->.
  { destruct (concat_sep_snoc l x) as [pre ->].
    change (String NodePath.slash (pre +:+ x))
      with (String NodePath.slash pre +:+ x).
    rewrite last_is_slash_append by apply Hx.
    apply last_is_slash_plain, Hx. }
  assert (NodePath.split
            (String NodePath.slash (NodePath.concat_sep (l ++ [x])))
          = "" :: l ++ [x]) as ->.
  { unfold NodePath.split.
    change (String NodePath.slash (NodePath.concat_sep (l ++ [x])))
      with ("" +:+ String NodePath.slash (NodePath.concat_sep (l ++ [x]))).
    rewrite split_aux_slash by done. f_equal.
    apply split_concat_sep; [by destruct l | by apply quiet_no_slash]. }
  rewrite normalizeSegments_quiet by (constructor; [by left | done]).
  cbn [rev app]. rewrite filter_cons_False by naive_solver.
  rewrite filter_app, (filter_cons_True _ x) by apply Hx. rewrite filter_nil.
  rewrite decide_False; [done|].
  apply concat_sep_nonempty; [by destruct (filter _ l)|].
  apply Forall_app. split; [|apply Forall_singleton, Hx].
  apply Forall_forall. by intros y [Hy _]%list_elem_of_filter.
Qed.

Lemma join_cons x l args :
  filter (λ a : string, a ≠ "") args = x :: l →
  NodePath.join args = NodePath.normalize (NodePath.concat_sep (x :: l)).
Proof. unfold NodePath.join. by intros ->. Qed.

Lemma snoc_of_nonempty {A} (l : list A) : l ≠ [] → ∃ l' x, l = l' ++ [x].
Proof.
  induction l as [|a l IH] using rev_ind; [done|]. intros _. by exists l, a.
Qed.

(** [path.join] of an absolute directory made of plain segments with
    further plain segments appends them. *)
Lemma join_abs r more :
  Forall plain r → Forall plain more → r ++ more ≠ [] →
  NodePath.join (abs_path r :: more) = abs_path (r ++ more).
Proof.
  intros Hr Hm Hne.
  rewrite (join_cons (abs_path r) more).
  2:{ rewrite filter_cons_True by done. by rewrite filter_plain. }
  assert (Hall : Forall plain (r ++ more)) by by apply Forall_app.
  destruct (snoc_of_nonempty _ Hne) as (l & x & Hlx).
  rewrite Hlx in Hall. apply Forall_app in Hall as [Hl Hx].
  rewrite Forall_singleton in Hx.
  assert (NodePath.concat_sep (abs_path r :: more)
          = String NodePath.slash
              (NodePath.concat_sep ((if decide (r = []) then [""] else []) ++ l ++ [x])))
    as ->; [|].
  { rewrite <- Hlx. destruct r as [|a r].
    - destruct more as [|b more]; [done|]. reflexivity.
    - rewrite decide_False by done. rewrite app_nil_l.
      destruct more as [|b more]; [by rewrite app_nil_r|].
      change (NodePath.concat_sep (abs_path (a :: r) :: b :: more))
        with (abs_path (a :: r) +:+ "/" +:+ NodePath.concat_sep (b :: more)).
      rewrite (concat_sep_app (a :: r) (b :: more)).
      all: done. }
  rewrite app_assoc, normalize_abs; [| |done].
  - rewrite Hlx. f_equal. f_equal.
    rewrite filter_app, (filter_plain l) by done.
    by destruct (decide (r = [])).
  - apply Forall_app. split; [|by apply plain_quiet].
    destruct (decide (r = [])); [|done]. apply Forall_singleton. by left.
Qed.

End PathFacts.

(** ** The playback route on plain requests *)

Module PlaybackMore.
Import Playback.
Import PlaybackTerms.
Import PathFacts.

Ltac plain_names :=
  first [ assumption
        | by repeat split
        | apply Forall_nil_2
        | apply Forall_cons_2; plain_names ].

Lemma plain_public_hls : Forall plain ["public"; "hls"].
Proof. plain_names. Qed.

Lemma abs_path_below l m :
  m ≠ [] → l ≠ [] →
  abs_path (l ++ m) = abs_path l +:+ "/" +:+ NodePath.concat_sep m.
Proof.
  intros Hm Hl. unfold abs_path. rewrite concat_sep_app by done.
  by rewrite str_app_assoc.
Qed.

Lemma hlsRoot_abs r :
  Forall plain r → hlsRoot (abs_path r) = abs_path (r ++ ["public"; "hls"]).
Proof.
  intros Hr. unfold hlsRoot. apply join_abs; [done | apply plain_public_hls|].
  by destruct r.
Qed.

Lemma filePath_abs r segs :
  Forall plain r → Forall plain segs →
  NodePath.join ([abs_path r; "public"; "hls"] ++ segs)
    = abs_path ((r ++ ["public"; "hls"]) ++ segs).
Proof.
  intros Hr Hs. rewrite <- app_assoc.
  apply (join_abs r (["public"; "hls"] ++ segs)); [done| |by destruct r].
  apply Forall_app. split; [apply plain_public_hls | done].
Qed.

Lemma filePath_below r segs :
  Forall plain r → Forall plain segs → segs ≠ [] →
  NodePath.join ([abs_path r; "public"; "hls"] ++ segs)
    = hlsRoot (abs_path r) +:+ "/" +:+ NodePath.concat_sep segs.
Proof.
  intros Hr Hs Hne. rewrite filePath_abs, hlsRoot_abs by done.
  apply abs_path_below; [done | by destruct r].
Qed.

Lemma below_is_inside root rest : inside root (root +:+ "/" +:+ rest) = true.
Proof.
  unfold inside. rewrite <- str_app_assoc, PlaybackFacts.startsWith_app.
  apply orb_true_r.
Qed.


Lemma handler_below r segs fs :
  Forall plain r → Forall plain segs → segs ≠ [] →
  handler (abs_path r) fs (Segments segs) =
    if existsSync fs (hlsRoot (abs_path r) +:+ "/" +:+ NodePath.concat_sep segs)
    then streaming fs (hlsRoot (abs_path r) +:+ "/" +:+ NodePath.concat_sep segs)
    else not_found.
Proof.
  intros Hr Hs Hne. unfold handler. rewrite filePath_below by done.
  rewrite (PlaybackFacts.inside_passes_check _ _
             (below_is_inside (hlsRoot (abs_path r)) (NodePath.concat_sep segs))).
  cbn [negb]. by destruct (existsSync fs _).
Qed.

(** X19.  A request whose segments are plain names (no empty segment,
    no ["."], no [".."], no slash inside a segment) is never answered
    403: it is resolved to the file of that relative path below the
    HLS root, which lies inside the root, and the answer is 404 when
    that file does not exist and the streamed file otherwise. *)
Theorem plain_request_is_never_forbidden
    (r segs : list string) (fs : Fs) :
  Forall plain r → Forall plain segs → segs ≠ [] →
  let file := hlsRoot (abs_path r) +:+ "/" +:+ NodePath.concat_sep segs in
  inside (hlsRoot (abs_path r)) file = true ∧
  handler (abs_path r) fs (Segments segs) =
    if existsSync fs file then streaming fs file else not_found.
Proof.
  intros Hr Hs Hne file. split; [apply below_is_inside|].
  by apply handler_below.
Qed.

Lemma plain_request_is_never_forbidden_witness :
  Forall plain ["srv"; "app"] ∧ Forall plain ["k"; "segment_007.ts"] ∧
  handler "/srv/app" sibling_fs (Segments ["k"; "segment_007.ts"]) = not_found.
Proof.
  assert (Forall plain ["srv"; "app"]) as Hr by plain_names.
  assert (Forall plain ["k"; "segment_007.ts"]) as Hs
    by plain_names.
  split; [exact Hr|]. split; [exact Hs|].
  exact (proj2 (plain_request_is_never_forbidden ["srv"; "app"]
                  ["k"; "segment_007.ts"] sibling_fs Hr Hs
                  ltac:(discriminate))).
Defined.

(** *** Content types *)

Lemma split_abs_path segs :
  segs ≠ [] → Forall plain segs →
  NodePath.split (abs_path segs) = "" :: segs.
Proof.
  intros Hne Hs. unfold NodePath.split.
  change (abs_path segs)
    with ("" +:+ String NodePath.slash (NodePath.concat_sep segs)).
  rewrite split_aux_slash by done. f_equal.
  apply split_concat_sep; [done|]. by apply quiet_no_slash, plain_quiet.
Qed.

Lemma basename_abs l x :
  Forall plain l → plain x → NodePath.basename (abs_path (l ++ [x])) = x.
Proof.
  intros Hl Hx. unfold NodePath.basename.
  assert (Forall plain (l ++ [x])) as Hall
    by (apply Forall_app; split; [done | by apply Forall_singleton]).
  rewrite split_abs_path by (done || by destruct l).
  rewrite filter_cons_False by naive_solver. rewrite filter_plain by done.
  by rewrite rev_unit.
Qed.

Lemma from_last_dot_suffix a e :
  NodePath.from_last_dot e = None →
  NodePath.from_last_dot (a +:+ String NodePath.dot e)
    = Some (String NodePath.dot e).
Proof.
  intros He. induction a as [|c a IH].
  - change ("" +:+ String NodePath.dot e) with (String NodePath.dot e).
    cbn [NodePath.from_last_dot]. rewrite He. by rewrite decide_True.
  - change (String c a +:+ String NodePath.dot e)
      with (String c (a +:+ String NodePath.dot e)).
    cbn [NodePath.from_last_dot]. by rewrite IH.
Qed.

(** The extension of a file whose name is [stem.ext], the stem not
    empty and [ext] without a dot, is [.ext]. *)
Lemma extname_suffix l c stem e :
  Forall plain l → plain (String c stem +:+ String NodePath.dot e) →
  NodePath.from_last_dot e = None →
  NodePath.extname (abs_path (l ++ [String c stem +:+ String NodePath.dot e]))
    = String NodePath.dot e.
Proof.
  intros Hl Hx He. unfold NodePath.extname. rewrite basename_abs by done.
  rewrite decide_False by apply Hx.
  change (String c stem +:+ String NodePath.dot e)
    with (String c (stem +:+ String NodePath.dot e)).
  cbv beta iota. by rewrite from_last_dot_suffix.
Qed.

(** A name without a dot after its first character has no extension:
    this covers names without any dot and dot files such as [".ts"]. *)
Lemma extname_none l c rest :
  Forall plain l → plain (String c rest) →
  NodePath.from_last_dot rest = None →
  NodePath.extname (abs_path (l ++ [String c rest])) = "".
Proof.
  intros Hl Hx He. unfold NodePath.extname. rewrite basename_abs by done.
  rewrite decide_False by apply Hx. cbv beta iota. by rewrite He.
Qed.


(** X20.  For a request of plain segments whose file exists, the
    content type follows the file name alone: a name [stem.m3u8] with
    a non-empty stem is served as an HLS playlist, a name [stem.ts] as
    an MPEG transport stream, and a name with no dot after its first
    character (no extension, or a dot file such as [.ts]) is served
    without any [Content-Type] header. *)
Theorem content_type_follows_the_file_name
    (r dirs : list string) (name : string) (fs : Fs) :
  Forall plain r → Forall plain dirs → plain name →
  let file :=
    hlsRoot (abs_path r) +:+ "/" +:+ NodePath.concat_sep (dirs ++ [name]) in
  existsSync fs file = true →
  handler (abs_path r) fs (Segments (dirs ++ [name])) = streaming fs file ∧
  (∀ c stem, name = String c stem +:+ ".m3u8" →
     contentType file = [("Content-Type", "application/vnd.apple.mpegurl")]) ∧
  (∀ c stem, name = String c stem +:+ ".ts" →
     contentType file = [("Content-Type", "video/mp2t")]) ∧
  (∀ c rest, name = String c rest → NodePath.from_last_dot rest = None →
     contentType file = []).
Proof.
  intros Hr Hd Hn file Hex.
  assert (Forall plain (dirs ++ [name])) as Hall
    by (apply Forall_app; split; [done | by apply Forall_singleton]).
  assert (file = abs_path ((r ++ ["public"; "hls"] ++ dirs) ++ [name])) as Hfile.
  { unfold file. rewrite <- filePath_below by (done || by destruct dirs).
    rewrite filePath_abs by done. f_equal. by rewrite <- !app_assoc. }
  assert (Forall plain (r ++ ["public"; "hls"] ++ dirs)) as Hdir.
  { apply Forall_app. split; [done|]. apply Forall_app.
    split; [apply plain_public_hls | done]. }
  split.
  { rewrite handler_below by (done || by destruct dirs).
    fold file. by rewrite Hex. }
  unfold contentType. rewrite Hfile. repeat split.
  - intros c stem ->.
    rewrite (extname_suffix _ c stem "m3u8") by done. done.
  - intros c stem ->.
    rewrite (extname_suffix _ c stem "ts") by done. done.
  - intros c rest -> Hnone. by rewrite extname_none.
Qed.

Lemma content_type_follows_the_file_name_witness :
  Forall plain ["srv"; "app"] ∧ Forall plain ["k"] ∧ plain "playlist.m3u8" ∧
  existsSync sibling_fs "/srv/app/public/hls/k/playlist.m3u8" = true ∧
  contentType "/srv/app/public/hls/k/playlist.m3u8"
    = [("Content-Type", "application/vnd.apple.mpegurl")].
Proof.
  assert (Forall plain ["srv"; "app"]) as Hr by plain_names.
  assert (Forall plain ["k"]) as Hd by plain_names.
  assert (plain "playlist.m3u8") as Hn by plain_names.
  split; [exact Hr|]. split; [exact Hd|]. split; [exact Hn|].
  split; [reflexivity|].
  exact (proj1 (proj2 (content_type_follows_the_file_name ["srv"; "app"] ["k"]
                         "playlist.m3u8" sibling_fs Hr Hd Hn eq_refl))
           "p"%char "laylist" eq_refl).
Defined.

(** *** The recorder and the route *)

Lemma playlist_path r key :
  Forall plain r → plain key →
  NodePath.join [Recorder.outputPath (Recorder.new (abs_path r) key);
                 "playlist.m3u8"]
    = hlsRoot (abs_path r) +:+ "/" +:+ key +:+ "/playlist.m3u8".
Proof.
  intros Hr Hk. cbn [Recorder.new Recorder.outputPath].
  assert (Forall plain ["public"; "hls"; key]) as Hm
    by plain_names.
  assert (plain "playlist.m3u8") as Hp by plain_names.
  rewrite (join_abs r ["public"; "hls"; key]) by (done || by destruct r).
  rewrite (join_abs (r ++ ["public"; "hls"; key]) ["playlist.m3u8"]).
  - change (key +:+ "/playlist.m3u8")
      with (NodePath.concat_sep [key; "playlist.m3u8"]).
    rewrite <- filePath_below by (done || plain_names).
    rewrite filePath_abs by (done || plain_names).
    f_equal. by rewrite <- !app_assoc.
  - by apply Forall_app.
  - by apply Forall_singleton.
  - by destruct r.
Qed.

(** X21.  The recorder and the playback route agree on where the
    playlist is.  When the output directory is given by plain segments
    and the stream key is a plain name, a successful [startRecording]
    spawns ffmpeg exactly once, writing the playlist to
    [<root>/<key>/playlist.m3u8]; the URL [getPlaylistUrl] hands to the
    clients is [/api/hls/] followed by the segments
    [<key>/playlist.m3u8]; and the route answers a request for these
    segments with that very file, as an HLS playlist, once it exists. *)
Theorem playlist_is_served_where_ffmpeg_writes_it
    (r : list string) (key : string) (fs : Fs) (router : option Router)
    (ps : jsmap ProducerData) (o : Recorder.StartOutcomes)
    (rec' : Recorder.HLSRecorderV2) (es : list Recorder.Effect) (u : unit) :
  Forall plain r → plain key →
  Recorder.startRecording router ps o (Recorder.new (abs_path r) key)
    = (rec', es, Ok u) →
  let playlist := hlsRoot (abs_path r) +:+ "/" +:+ key +:+ "/playlist.m3u8" in
  (∃ p input, Recorder.Spawned p input playlist ∈ es) ∧
  (∀ p input out, Recorder.Spawned p input out ∈ es → out = playlist) ∧
  Recorder.getPlaylistUrl rec'
    = "/api/hls/" +:+ NodePath.concat_sep [key; "playlist.m3u8"] ∧
  handler (abs_path r) fs (Segments [key; "playlist.m3u8"]) =
    (if existsSync fs playlist then streaming fs playlist else not_found) ∧
  contentType playlist = [("Content-Type", "application/vnd.apple.mpegurl")].
Proof.
  intros Hr Hk Hstart playlist.
  destruct (RecorderStartFacts.startRecording_success _ _ _
              (Recorder.new (abs_path r) key) _ _ _ eq_refl Hstart)
    as (pd & t & cr & p & _ & _ & _ & _ & _ & -> & ->).
  assert (Forall plain [key; "playlist.m3u8"]) as Hsegs
    by plain_names.
  unfold RecorderTerms.start_effects. rewrite playlist_path by done.
  fold playlist. split; [|split; [|split; [|split]]].
  - eexists _, _. apply elem_of_cons. right. apply elem_of_cons. right.
    apply elem_of_cons. by left.
  - intros p' input out Hin. repeat (apply elem_of_cons in Hin as [Hin|Hin]);
      try discriminate Hin; [by injection Hin | by apply elem_of_nil in Hin].
  - reflexivity.
  - by rewrite handler_below.
  - unfold contentType.
    assert (playlist
            = abs_path ((r ++ ["public"; "hls"; key]) ++ ["playlist.m3u8"]))
      as ->.
    { unfold playlist.
      change (key +:+ "/playlist.m3u8")
        with (NodePath.concat_sep [key; "playlist.m3u8"]).
      rewrite <- filePath_below, filePath_abs by done.
      f_equal. by rewrite <- !app_assoc. }
    rewrite (extname_suffix _ "p"%char "laylist" "m3u8"); [done| |done|done].
    apply Forall_app. split; [done|]. plain_names.
Qed.


Lemma playlist_is_served_where_ffmpeg_writes_it_witness :
  Forall plain ["srv"; "app"] ∧ plain "k" ∧
  Recorder.getPlaylistUrl RecorderTerms.sample_started
    = "/api/hls/k/playlist.m3u8" ∧
  handler "/srv/app" sibling_fs (Segments ["k"; "playlist.m3u8"])
    = streaming sibling_fs "/srv/app/public/hls/k/playlist.m3u8".
Proof.
  assert (Forall plain ["srv"; "app"]) as Hr by plain_names.
  assert (plain "k") as Hk by plain_names.
  split; [exact Hr|]. split; [exact Hk|].
  destruct (playlist_is_served_where_ffmpeg_writes_it ["srv"; "app"] "k"
              sibling_fs (Some RecorderTerms.sample_router)
              [("A", RecorderTerms.sample_camera)] RecorderTerms.all_succeed
              RecorderTerms.sample_started _ () Hr Hk eq_refl)
    as (_ & _ & Hurl & Hserved & _).
  split; [exact Hurl | exact Hserved].
Defined.

End PlaybackMore.

(** ** The announced address of a transport *)

Module MediasoupFacts.
Import Mediasoup.
Import MediasoupTerms.

Lemma scanInterface_spec nets ip :
  scanInterface nets ip = default ip (first_external nets).
Proof.
  unfold first_external. induction nets as [|net rest IH]; [done|].
  cbn [scanInterface List.find].
  destruct (bool_decide (family net = "IPv4") && negb (internal net)); done.
Qed.

Lemma localIp_snoc ifs entry :
  localIp (ifs ++ [entry]) = scanInterface entry.2 (localIp ifs).
Proof. unfold localIp. by rewrite foldl_app. Qed.

(** X22.  The address [createTransport] announces for a WebRTC
    transport is decided by the last interface that has an IPv4
    address that is not internal: it is the first such address of that
    interface.  Interfaces listed earlier do not matter, and the
    address is [127.0.0.1] exactly when no interface has one. *)
Theorem announced_ip_comes_from_the_last_external_interface
    (networkInterfaces : list (string * list NetworkInterfaceInfo)) :
  listenIps networkInterfaces =
    [{| ip := "0.0.0.0";
        announcedIp :=
          Some (default "127.0.0.1"
                  (last (omap (λ entry, first_external entry.2)
                           networkInterfaces))) |};
     {| ip := "127.0.0.1"; announcedIp := None |}].
Proof.
  unfold listenIps. do 3 f_equal.
  induction networkInterfaces as [|entry ifs IH] using rev_ind; [done|].
  rewrite localIp_snoc, scanInterface_spec, omap_app.
  change (omap (λ e : string * list NetworkInterfaceInfo, first_external e.2)
            [entry])
    with (match first_external entry.2 with Some y => [y] | None => [] end).
  destruct (first_external entry.2) as [a|].
  - by rewrite last_snoc.
  - by rewrite app_nil_r.
Qed.

Example later_interface_wins :
  listenIps sample_interfaces =
    [{| ip := "0.0.0.0"; announcedIp := Some "172.17.0.1" |};
     {| ip := "127.0.0.1"; announcedIp := None |}].
Proof. reflexivity. Qed.

End MediasoupFacts.

(** ** The watch page *)

Module WatchFacts.
Import Signaling.
Import SignalingTerms.
Import WatchTerms.

Lemma ids_filter k (l : list StreamInfo) :
  map si_streamId (filter (λ s, si_streamId s ≠ k) l)
    = filter (λ i, i ≠ k) (map si_streamId l).
Proof.
  induction l as [|x l IH]; [done|]. cbn [map].
  destruct (decide (si_streamId x = k)) as [Heq|Hne].
  - rewrite !filter_cons_False by naive_solver. exact IH.
  - rewrite !filter_cons_True by done. cbn [map]. by rewrite IH.
Qed.

Lemma ids_live k url ms p :
  ids (WatchPage.handleStreamLive k url ms p)
    = filter (λ i, i ≠ k) (ids p) ++ [k].
Proof.
  unfold ids, WatchPage.handleStreamLive. cbn [WatchPage.activeStreams].
  by rewrite map_app, ids_filter.
Qed.

Lemma ids_ended k p :
  ids (WatchPage.handleStreamEnded k p) = filter (λ i, i ≠ k) (ids p).
Proof.
  unfold ids, WatchPage.handleStreamEnded. cbn [WatchPage.activeStreams].
  apply ids_filter.
Qed.

Lemma on_NoDup p e : NoDup (ids p) → NoDup (ids (WatchPage.on p e)).
Proof.
  intros Hnd. destruct e as [pid sid|k url ms|k]; cbn [WatchPage.on]; [done| |].
  - rewrite ids_live. apply NoDup_app. split; [by apply NoDup_filter|].
    split; [|apply NoDup_singleton].
    intros x [Hx _]%list_elem_of_filter ->%list_elem_of_singleton. done.
  - rewrite ids_ended. by apply NoDup_filter.
Qed.

Lemma find_app_first {A} (f : A → bool) l1 l2 :
  List.find f (l1 ++ l2)
    = match List.find f l1 with Some x => Some x | None => List.find f l2 end.
Proof.
  induction l1 as [|x l1 IH]; [done|]. cbn. by destruct (f x).
Qed.

Lemma find_filter_other id k (l : list StreamInfo) :
  k ≠ id →
  List.find (λ s, bool_decide (si_streamId s = id))
    (filter (λ s, si_streamId s ≠ k) l)
  = List.find (λ s, bool_decide (si_streamId s = id)) l.
Proof.
  intros Hne. induction l as [|x l IH]; [done|].
  destruct (decide (si_streamId x = k)) as [Heq|Hx].
  - rewrite filter_cons_False by naive_solver. cbn [List.find].
    rewrite bool_decide_false by congruence. exact IH.
  - rewrite filter_cons_True by done. cbn [List.find]. by rewrite IH.
Qed.

Lemma find_filter_same k (l : list StreamInfo) :
  List.find (λ s, bool_decide (si_streamId s = k))
    (filter (λ s, si_streamId s ≠ k) l) = None.
Proof.
  induction l as [|x l IH]; [done|].
  destruct (decide (si_streamId x = k)) as [Heq|Hx].
  - by rewrite filter_cons_False by naive_solver.
  - rewrite filter_cons_True by done. cbn [List.find].
    by rewrite bool_decide_false.
Qed.

Lemma entry_live k url ms p id :
  entry id (WatchPage.handleStreamLive k url ms p) =
    if bool_decide (k = id)
    then Some {| si_streamId := k; si_playlistUrl := url;
                 si_streamers := ms; si_isLive := true |}
    else entry id p.
Proof.
  unfold entry, WatchPage.handleStreamLive. cbn [WatchPage.activeStreams].
  rewrite find_app_first. case_bool_decide as Hk.
  - subst id. rewrite find_filter_same. cbn. by rewrite bool_decide_true.
  - rewrite find_filter_other by done. cbn.
    rewrite bool_decide_false by done. by destruct (List.find _ _).
Qed.

Lemma entry_ended k p id :
  entry id (WatchPage.handleStreamEnded k p) =
    if bool_decide (k = id) then None else entry id p.
Proof.
  unfold entry, WatchPage.handleStreamEnded. cbn [WatchPage.activeStreams].
  case_bool_decide as Hk.
  - subst id. apply find_filter_same.
  - by apply find_filter_other.
Qed.

(** X23.  The list of the watch page follows the events it hears:
    for every stream id, the entry shown after a sequence of events is
    the one of the last [streamLive] that named the id, marked live,
    unless a [streamEnded] naming it came later, in which case there is
    none; an id that no event named keeps the entry it had.  A list
    with one entry per stream id keeps that form. *)
Theorem watch_list_follows_the_latest_event
    (events : list Event) (p : WatchPage.Page) :
  NoDup (ids p) →
  NoDup (ids (foldl WatchPage.on p events)) ∧
  ∀ id, entry id (foldl WatchPage.on p events) = latest id events (entry id p).
Proof.
  revert p. induction events as [|e events IH]; intros p Hnd; [done|].
  cbn [foldl]. destruct (IH (WatchPage.on p e) (on_NoDup p e Hnd)) as [H1 H2].
  split; [exact H1|]. intros id. rewrite H2.
  destruct e as [pid sid|k url ms|k]; cbn [WatchPage.on latest]; [done| |].
  - by rewrite entry_live.
  - by rewrite entry_ended.
Qed.

Lemma watch_list_follows_the_latest_event_witness :
  NoDup (ids WatchPage.newPage) ∧
  entry "a" (foldl WatchPage.on WatchPage.newPage sample_events)
    = Some {| si_streamId := "a";
              si_playlistUrl := Some "/api/hls/a/playlist.m3u8";
              si_streamers := ["A"; "C"]; si_isLive := true |} ∧
  entry "b" (foldl WatchPage.on WatchPage.newPage sample_events) = None.
Proof.
  split; [apply NoDup_nil_2|].
  split;
    [exact (proj2 (watch_list_follows_the_latest_event sample_events
                     WatchPage.newPage (NoDup_nil_2 (A:=string))) "a")
    |exact (proj2 (watch_list_follows_the_latest_event sample_events
                     WatchPage.newPage (NoDup_nil_2 (A:=string))) "b")].
Defined.

End WatchFacts.

(** ** The watch page and the server *)

Module WatchServerFacts.
Import Signaling.
Import SignalingTerms.
Import WatchTerms.
Import JsMapFacts.






















Example a_page_watching_two_starts :
  ids (foldl (watch "W") (initial "/srv/app", WatchPage.newPage)
         (map Runs ops_live_two ++
          [Runs (FromSocket "A" Disconnect);
           Runs (FromSocket "B" Disconnect)])).2 = [].
Proof. vm_compute. reflexivity. Qed.

End WatchServerFacts.
